(** * chob_tools: topological_sort and InvertibleDict

    A shallow embedding of [src/chob_tools/algorithms/topological_sort.py]
    and of the class [InvertibleDict] of
    [src/chob_tools/data_structures/invertible_dict.py], with the
    properties their specification states and further properties read
    off the code.

    Conventions of the embedding.
    - A Python [dict] is an association list in insertion order with the
      usual update-in-place-or-append assignment ([Dict]).
    - A Python [set] is a duplicate-free list ([ListSet]).
    - A raised exception is a value of [exn]; a computation is a [result].
    - Recursion and the consumption of a generator carry a [fuel] budget.
      Running out of it is the outcome [Diverge]; for the two recursive
      functions of the source this is the situation CPython reports as
      [RecursionError].
    - A generator is a state together with a [next] function ([step]). *)

From Stdlib Require Import List ListSet ZArith String Ascii Bool Arith Lia.
From Stdlib Require Import Permutation Relations ListDec.
Import ListNotations.

Set Implicit Arguments.
Open Scope string_scope.
Open Scope list_scope.

(** ** Nodes

    The node type [NT] of the source is a type variable.  The program uses
    four capabilities of a node: equality (dict keys, [==]), truthiness
    ([if node:]), being a [str] (the [join] in [CycleError.__init__]) and
    the order [<] ([sorted]). *)

Class PyNode (NT : Type) : Type := {
  node_eq_dec : forall x y : NT, {x = y} + {x <> y};
  truthy : NT -> bool;
  as_str : NT -> option string;
  node_ltb : NT -> NT -> bool
}.

#[export] Instance PyNode_str : PyNode string := {
  node_eq_dec := string_dec;
  truthy := fun s => negb (String.eqb s "");
  as_str := fun s => Some s;
  node_ltb := String.ltb
}.

#[export] Instance PyNode_int : PyNode Z := {
  node_eq_dec := Z.eq_dec;
  truthy := fun z => negb (Z.eqb z 0);
  as_str := fun _ => None;
  node_ltb := Z.ltb
}.

(** ** Dictionaries *)

Module Dict.
Section Dict.
Context {K V : Type} (eq_dec : forall x y : K, {x = y} + {x <> y}).

Definition dict := list (K * V).

(** [d.get(k)] *)
Fixpoint get (d : dict) (k : K) : option V :=
  match d with
  | [] => None
  | (k', v) :: r => if eq_dec k k' then Some v else get r k
  end.

(** [k in d] *)
Definition mem (d : dict) (k : K) : bool :=
  match get d k with Some _ => true | None => false end.

(** [d[k] = v] *)
Fixpoint set (d : dict) (k : K) (v : V) : dict :=
  match d with
  | [] => [(k, v)]
  | (k', v') :: r =>
      if eq_dec k k' then (k', v) :: r else (k', v') :: set r k v
  end.

(** [list(d)] *)
Definition keys (d : dict) : list K := map fst d.

(** [list(d.values())] *)
Definition values (d : dict) : list V := map snd d.

(** [del d[k]]; [None] is the [KeyError] of a missing key. *)
Fixpoint del (d : dict) (k : K) : option dict :=
  match d with
  | [] => None
  | (k', v) :: r =>
      if eq_dec k k' then Some r
      else match del r k with
           | Some r' => Some ((k', v) :: r')
           | None => None
           end
  end.
End Dict.
Arguments dict : clear implicits.
End Dict.

(** ** Outcomes *)

Section Outcomes.
Variable NT : Type.

Inductive exn : Type :=
| ValueError (msg : string)
| CycleError (cycle : list NT) (msg : string)
| TypeError
| KeyError (key : NT).

Inductive result (A : Type) : Type :=
| Ok (a : A)
| Raise (e : exn)
| Diverge.

(** What one [next()] on a generator in state [S] does. *)
Inductive step (S A : Type) : Type :=
| Yield (a : A) (s : S)
| Stop
| Fail (e : exn)
| Spin.

(** An element of the list [topological_sort] returns. *)
Inductive item : Type :=
| Node (n : NT)
| Group (g : list NT).
End Outcomes.

Arguments ValueError {NT} msg.
Arguments CycleError {NT} cycle msg.
Arguments TypeError {NT}.
Arguments KeyError {NT} key.
Arguments Ok {NT A} a.
Arguments Raise {NT A} e.
Arguments Diverge {NT A}.
Arguments Yield {NT S A} a s.
Arguments Stop {NT S A}.
Arguments Fail {NT S A} e.
Arguments Spin {NT S A}.
Arguments Node {NT} n.
Arguments Group {NT} g.

Definition bind {NT A B} (r : result NT A) (k : A -> result NT B)
  : result NT B :=
  match r with
  | Ok a => k a
  | Raise e => Raise e
  | Diverge => Diverge
  end.

Notation "'let*' x ':=' r 'in' k" := (bind r (fun x => k))
  (at level 10, x pattern, r at level 100, k at level 200).

(** [list(gen)]: pull until the generator stops. *)
Fixpoint drain {NT S A} (fuel : nat) (next : S -> step NT S A) (s : S)
  : result NT (list A) :=
  match fuel with
  | 0 => Diverge
  | Datatypes.S fuel' =>
      match next s with
      | Yield a s' =>
          let* rest := drain fuel' next s' in Ok (a :: rest)
      | Stop => Ok []
      | Fail e => Raise e
      | Spin => Diverge
      end
  end.

(** The first [n] pulls of a consumer that then stops iterating. *)
Fixpoint pull {NT S A} (n : nat) (next : S -> step NT S A) (s : S)
  : result NT (list A) :=
  match n with
  | 0 => Ok []
  | Datatypes.S n' =>
      match next s with
      | Yield a s' => let* rest := pull n' next s' in Ok (a :: rest)
      | Stop => Ok []
      | Fail e => Raise e
      | Spin => Diverge
      end
  end.

(** The double quote of the messages. *)
Definition dq : string := String "034"%char EmptyString.

Section TopologicalSort.
Context {NT : Type} {PN : PyNode NT}.

Local Abbreviation graph_t := (Dict.dict NT (list NT)).
Local Abbreviation indegree_t := (Dict.dict NT Z).
Local Abbreviation gget := (Dict.get node_eq_dec).
Local Abbreviation gset := (Dict.set node_eq_dec).
Local Abbreviation gmem := (Dict.mem node_eq_dec).
Local Abbreviation sadd := (set_add node_eq_dec).
Local Abbreviation smem := (set_mem node_eq_dec).
Local Abbreviation sremove := (set_remove node_eq_dec).

(** *** CycleError *)

(** [sep.join(cycle)]: fails unless every item is a [str]. *)
Fixpoint str_join (sep : string) (cycle : list NT) : option string :=
  match cycle with
  | [] => Some ""
  | x :: rest =>
      match as_str x with
      | None => None
      | Some s =>
          match rest with
          | [] => Some s
          | _ :: _ =>
              match str_join sep rest with
              | None => None
              | Some t => Some (s ++ sep ++ t)%string
              end
          end
      end
  end.

(** [raise CycleError(cycle)]: the exception that leaves the statement.
    [cycle] is what [_get_cycle] returned, [None] included. *)
Definition raise_CycleError (cycle : option (list NT)) : exn NT :=
  match cycle with
  | None => TypeError
  | Some c =>
      match str_join " -> " c with
      | None => TypeError
      | Some s => CycleError c ("Cycle detected in graph: " ++ s ++ ".")%string
      end
  end.

(** *** _get_cycle *)

(** The table of [functools.cache], keyed by the arguments of [dfs]. *)
Definition memo_t := list ((NT * nat) * option (list NT)).

Definition memo_key_dec (x y : NT * nat) : {x = y} + {x <> y}.
Proof. decide equality; [apply Nat.eq_dec | apply node_eq_dec]. Defined.

Definition is_node (node : option NT) (curr : NT) : bool :=
  match node with
  | None => false
  | Some n => if node_eq_dec curr n then true else false
  end.

(** [return] in [dfs(curr, level)]: the cache records the value. *)
Definition memo_return (curr : NT) (level : nat) (r : option (list NT))
    (memo : memo_t) : result NT (option (list NT) * memo_t) :=
  Ok (r, ((curr, level), r) :: memo).

(** The [for neighbour in graph[curr]] loop of [dfs(curr, level)]; [dfs]
    is the (cached) function it calls. *)
Fixpoint _get_cycle_dfs_loop
    (dfs : NT -> nat -> memo_t -> result NT (option (list NT) * memo_t))
    (curr : NT) (level : nat) (neighbours : list NT) (memo : memo_t)
  : result NT (option (list NT) * memo_t) :=
  match neighbours with
  | [] => memo_return curr level None memo
  | neighbour :: rest =>
      match dfs neighbour (level + 1) memo with
      | Ok (Some path, memo') =>
          memo_return curr level (Some (curr :: path)) memo'
      | Ok (None, memo') => _get_cycle_dfs_loop dfs curr level rest memo'
      | Raise e => Raise e
      | Diverge => Diverge
      end
  end.

(** The inner [dfs(curr, level)] of [_get_cycle]; [node] is the variable
    of the enclosing scope it compares with. *)
Fixpoint _get_cycle_dfs (fuel : nat) (graph : graph_t) (node : option NT)
    (curr : NT) (level : nat) (memo : memo_t)
  : result NT (option (list NT) * memo_t) :=
  match fuel with
  | 0 => Diverge
  | S fuel' =>
      match Dict.get memo_key_dec memo (curr, level) with
      | Some r => Ok (r, memo)
      | None =>
          if is_node node curr && negb (level =? 0)%nat then
            memo_return curr level (Some [curr]) memo
          else
            match gget graph curr with
            | None => Raise (KeyError curr)
            | Some neighbours =>
                if (List.length neighbours =? 0)%nat then
                  memo_return curr level None memo
                else
                  _get_cycle_dfs_loop (_get_cycle_dfs fuel' graph node)
                    curr level neighbours memo
            end
      end
  end.

(** The [for node in graph] loop at the end of [_get_cycle]. *)
Fixpoint _get_cycle_scan (fuel : nat) (graph : graph_t) (nodes : list NT)
    (memo : memo_t) : result NT (option (list NT)) :=
  match nodes with
  | [] => Ok None
  | node :: rest =>
      match _get_cycle_dfs fuel graph (Some node) node 0 memo with
      | Ok (Some (x :: path), _) => Ok (Some (x :: path))
      | Ok (_, memo') => _get_cycle_scan fuel graph rest memo'
      | Raise e => Raise e
      | Diverge => Diverge
      end
  end.

Definition _get_cycle (fuel : nat) (graph : graph_t) (node : option NT)
  : result NT (option (list NT)) :=
  match node with
  | Some n =>
      if truthy n then
        let* rm := _get_cycle_dfs fuel graph node n 0 [] in Ok (fst rm)
      else _get_cycle_scan fuel graph (Dict.keys graph) []
  | None => _get_cycle_scan fuel graph (Dict.keys graph) []
  end.

(** *** Normalising the input *)

(** [indegree[k] += 1] on a [defaultdict(int)]. *)
Definition incr (indegree : indegree_t) (k : NT) : indegree_t :=
  Dict.set node_eq_dec indegree k
    (match Dict.get node_eq_dec indegree k with
     | Some n => n | None => 0 end + 1)%Z.

(** [indegree[k]] on a [defaultdict(int)].  The table is never iterated,
    so the key a read of a missing entry would insert is not kept. *)
Definition degree (indegree : indegree_t) (k : NT) : Z :=
  match Dict.get node_eq_dec indegree k with Some n => n | None => 0%Z end.

(** [new_graph[k].append(x)] *)
Definition append_to (new_graph : graph_t) (k x : NT)
  : result NT graph_t :=
  match gget new_graph k with
  | None => Raise (KeyError k)
  | Some l => Ok (gset new_graph k (l ++ [x]))
  end.

Fixpoint _get_edges_from_dependencies_inner (node : NT)
    (dependencies : list NT) (new_graph : graph_t) (indegree : indegree_t)
  : result NT (graph_t * indegree_t) :=
  match dependencies with
  | [] => Ok (new_graph, indegree)
  | dependency :: rest =>
      if node_eq_dec dependency node then
        _get_edges_from_dependencies_inner node rest new_graph indegree
      else
        let new_graph :=
          if gmem new_graph dependency then new_graph
          else gset new_graph dependency [] in
        let* new_graph := append_to new_graph dependency node in
        _get_edges_from_dependencies_inner node rest new_graph
          (incr indegree node)
  end.

Fixpoint _get_edges_from_dependencies_items (items : graph_t)
    (new_graph : graph_t) (indegree : indegree_t)
  : result NT (graph_t * indegree_t) :=
  match items with
  | [] => Ok (new_graph, indegree)
  | (node, dependencies) :: rest =>
      let new_graph :=
        if gmem new_graph node then new_graph else gset new_graph node [] in
      let* gi := _get_edges_from_dependencies_inner node dependencies
                   new_graph indegree in
      _get_edges_from_dependencies_items rest (fst gi) (snd gi)
  end.

Definition _get_edges_from_dependencies (graph : graph_t)
  : result NT (graph_t * indegree_t) :=
  _get_edges_from_dependencies_items graph [] [].

Fixpoint _prepare_graph_inner (graph : graph_t) (node : NT)
    (neighbours : list NT) (new_graph : graph_t) (indegree : indegree_t)
  : result NT (graph_t * indegree_t) :=
  match neighbours with
  | [] => Ok (new_graph, indegree)
  | neighbour :: rest =>
      if node_eq_dec neighbour node then
        _prepare_graph_inner graph node rest new_graph indegree
      else
        let new_graph :=
          if gmem graph neighbour then new_graph
          else gset new_graph neighbour [] in
        let* new_graph := append_to new_graph node neighbour in
        _prepare_graph_inner graph node rest new_graph
          (incr indegree neighbour)
  end.

Fixpoint _prepare_graph_items (graph : graph_t) (items : graph_t)
    (new_graph : graph_t) (indegree : indegree_t)
  : result NT (graph_t * indegree_t) :=
  match items with
  | [] => Ok (new_graph, indegree)
  | (node, neighbours) :: rest =>
      let* gi := _prepare_graph_inner graph node neighbours
                   (gset new_graph node []) indegree in
      _prepare_graph_items graph rest (fst gi) (snd gi)
  end.

Definition _prepare_graph (graph : graph_t)
  : result NT (graph_t * indegree_t) :=
  _prepare_graph_items graph graph [] [].

(** *** The breadth-first producers *)

Definition _check_cycle (fuel : nat) (graph : graph_t) (visited : list NT)
  : result NT unit :=
  if (List.length visited <? List.length graph)%nat then
    let* cycle :=
      _get_cycle fuel
        (filter (fun item => negb (smem (fst item) visited)) graph) None in
    Raise (raise_CycleError cycle)
  else Ok tt.

(** The loop both producers run over the neighbours of the node they
    took from the queue:
    [indegree[neighbour] -= 1] and, when that reaches 0,
    [ready.append(neighbour)]. *)
Fixpoint release (neighbours : list NT) (indegree : indegree_t)
    (ready : list NT) : indegree_t * list NT :=
  match neighbours with
  | [] => (indegree, ready)
  | neighbour :: rest =>
      let d := (degree indegree neighbour - 1)%Z in
      let indegree := Dict.set node_eq_dec indegree neighbour d in
      if (d =? 0)%Z then release rest indegree (ready ++ [neighbour])
      else release rest indegree ready
  end.

(** A suspended [_node_generator]: its locals, and in [ng_yielded] the
    node of the [yield] it is suspended at (none before the first
    [next]). *)
Record node_gen : Type := {
  ng_indegree : indegree_t;
  ng_queue : list NT;
  ng_visited : list NT;
  ng_yielded : option NT
}.

Definition _node_generator (indegree : indegree_t) (queue : list NT)
  : node_gen :=
  {| ng_indegree := indegree; ng_queue := queue;
     ng_visited := []; ng_yielded := None |}.

Definition _node_generator_next (fuel : nat) (graph : graph_t)
    (s : node_gen) : step NT node_gen NT :=
  match
    match ng_yielded s with
    | None => Ok (ng_indegree s, ng_queue s)
    | Some node =>
        match gget graph node with
        | None => Raise (KeyError node)
        | Some neighbours =>
            Ok (release neighbours (ng_indegree s) (ng_queue s))
        end
    end
  with
  | Ok (indegree, queue) =>
      match queue with
      | node :: queue' =>
          Yield node
            {| ng_indegree := indegree; ng_queue := queue';
               ng_visited := sadd node (ng_visited s);
               ng_yielded := Some node |}
      | [] =>
          match _check_cycle fuel graph (ng_visited s) with
          | Ok _ => Stop
          | Raise e => Fail e
          | Diverge => Spin
          end
      end
  | Raise e => Fail e
  | Diverge => Spin
  end.

(** Stable insertion by [<], the order [sorted] produces on a totally
    ordered node type. *)
Fixpoint insert_sorted (x : NT) (l : list NT) : list NT :=
  match l with
  | [] => [x]
  | y :: r => if node_ltb x y then x :: y :: r else y :: insert_sorted x r
  end.

Definition sorted (l : list NT) : list NT :=
  fold_left (fun acc x => insert_sorted x acc) l [].

(** A suspended [_group_generator].  It suspends with an empty queue;
    the [queue.extend(next_degree)] and the reset of [batch] and
    [next_degree] that follow the [yield] are recorded in the state at
    the [yield], so [gg_queue] is the queue the [while] test sees. *)
Record group_gen : Type := {
  gg_indegree : indegree_t;
  gg_queue : list NT;
  gg_visited : list NT
}.

Definition _group_generator (indegree : indegree_t) (queue : list NT)
  : group_gen :=
  {| gg_indegree := indegree; gg_queue := queue; gg_visited := [] |}.

(** The iterations of the [while] loop up to the next [yield]. *)
Fixpoint _group_generator_batch (graph : graph_t) (sort_groups : bool)
    (queue : list NT) (indegree : indegree_t) (visited : list NT)
    (batch next_degree : list NT) : step NT group_gen (list NT) :=
  match queue with
  | [] => Stop
  | node :: queue' =>
      let visited := sadd node visited in
      let batch := batch ++ [node] in
      match gget graph node with
      | None => Fail (KeyError node)
      | Some neighbours =>
          let (indegree, next_degree) :=
            release neighbours indegree next_degree in
          match queue' with
          | [] =>
              Yield (if sort_groups then sorted batch else batch)
                {| gg_indegree := indegree; gg_queue := next_degree;
                   gg_visited := visited |}
          | _ :: _ =>
              _group_generator_batch graph sort_groups queue' indegree
                visited batch next_degree
          end
      end
  end.

Definition _group_generator_next (fuel : nat) (graph : graph_t)
    (sort_groups : bool) (s : group_gen) : step NT group_gen (list NT) :=
  match gg_queue s with
  | [] =>
      match _check_cycle fuel graph (gg_visited s) with
      | Ok _ => Stop
      | Raise e => Fail e
      | Diverge => Spin
      end
  | _ :: _ =>
      _group_generator_batch graph sort_groups (gg_queue s)
        (gg_indegree s) (gg_visited s) [] []
  end.

(** *** topological_sort_generator *)

(** Where the body of [topological_sort_generator] is suspended. *)
Inductive tsg_state : Type :=
| TsgStart
| TsgNodes (new_graph : graph_t) (s : node_gen)
| TsgFlatten (new_graph : graph_t) (group : list NT) (s : group_gen)
| TsgGroups (new_graph : graph_t) (s : group_gen).

Definition normalise (graph : graph_t) (graph_type : string)
  : result NT (graph_t * indegree_t) :=
  if graph_type =? "dependencies" then _get_edges_from_dependencies graph
  else _prepare_graph graph.

Definition initial_queue (new_graph : graph_t) (indegree : indegree_t)
  : list NT :=
  filter (fun node => (degree indegree node =? 0)%Z) (Dict.keys new_graph).

(** [for group in _group_generator(...): yield from group], resumed with
    the current group used up. *)
Fixpoint flatten_next (fuel : nat) (k : nat) (new_graph : graph_t)
    (sort_groups : bool) (s : group_gen) : step NT tsg_state (item NT) :=
  match k with
  | 0 => Spin
  | S k' =>
      match _group_generator_next fuel new_graph sort_groups s with
      | Yield [] s' => flatten_next fuel k' new_graph sort_groups s'
      | Yield (x :: group) s' =>
          Yield (Node x) (TsgFlatten new_graph group s')
      | Stop => Stop
      | Fail e => Fail e
      | Spin => Spin
      end
  end.

Definition topological_sort_generator_next (fuel : nat) (graph : graph_t)
    (return_type : string) (sort_groups : bool) (graph_type : string)
    (s : tsg_state) : step NT tsg_state (item NT) :=
  let nodes new_graph s :=
    match _node_generator_next fuel new_graph s with
    | Yield x s' => Yield (Node x) (TsgNodes new_graph s')
    | Stop => Stop
    | Fail e => Fail e
    | Spin => Spin
    end in
  let groups new_graph s :=
    match _group_generator_next fuel new_graph sort_groups s with
    | Yield g s' => Yield (Group g) (TsgGroups new_graph s')
    | Stop => Stop
    | Fail e => Fail e
    | Spin => Spin
    end in
  match s with
  | TsgStart =>
      match normalise graph graph_type with
      | Ok (new_graph, indegree) =>
          let queue := initial_queue new_graph indegree in
          if return_type =? "nodes" then
            if sort_groups then
              flatten_next fuel fuel new_graph sort_groups
                (_group_generator indegree queue)
            else nodes new_graph (_node_generator indegree queue)
          else groups new_graph (_group_generator indegree queue)
      | Raise e => Fail e
      | Diverge => Spin
      end
  | TsgNodes new_graph s => nodes new_graph s
  | TsgFlatten new_graph (x :: group) s =>
      Yield (Node x) (TsgFlatten new_graph group s)
  | TsgFlatten new_graph [] s =>
      flatten_next fuel fuel new_graph sort_groups s
  | TsgGroups new_graph s => groups new_graph s
  end.

(** Calling the generator function runs none of its body. *)
Definition topological_sort_generator : tsg_state := TsgStart.

Definition _bfs_topological_sort (fuel : nat) (graph : graph_t)
    (return_type : string) (sort_groups : bool) (graph_type : string)
  : result NT (list (item NT)) :=
  drain fuel
    (topological_sort_generator_next fuel graph return_type sort_groups
       graph_type)
    topological_sort_generator.

(** *** The depth-first producer *)

Record dfs_state : Type := {
  sorted_list : list NT;
  visited : list NT;
  currently_visiting : list NT
}.

(** The [for neighbour in new_graph[node]] loop of [dfs(node)]; [dfs] is
    the function it calls. *)
Fixpoint _dfs_topological_sort_dfs_loop
    (dfs : NT -> dfs_state -> result NT dfs_state)
    (neighbours : list NT) (st : dfs_state) : result NT dfs_state :=
  match neighbours with
  | [] => Ok st
  | neighbour :: rest =>
      if smem neighbour (visited st) then
        _dfs_topological_sort_dfs_loop dfs rest st
      else
        let* st := dfs neighbour st in
        _dfs_topological_sort_dfs_loop dfs rest st
  end.

(** The inner [dfs(node)] of [_dfs_topological_sort]. *)
Fixpoint _dfs_topological_sort_dfs (fuel : nat) (graph new_graph : graph_t)
    (node : NT) (st : dfs_state) : result NT dfs_state :=
  match fuel with
  | 0 => Diverge
  | S fuel' =>
      if smem node (currently_visiting st) then
        let* cycle := _get_cycle fuel' graph (Some node) in
        Raise (raise_CycleError cycle)
      else
        let st :=
          {| sorted_list := sorted_list st; visited := visited st;
             currently_visiting := sadd node (currently_visiting st) |} in
        match gget new_graph node with
        | None => Raise (KeyError node)
        | Some neighbours =>
            let* st :=
              _dfs_topological_sort_dfs_loop
                (_dfs_topological_sort_dfs fuel' graph new_graph)
                neighbours st in
            if smem node (currently_visiting st) then
              Ok {| sorted_list := sorted_list st ++ [node];
                    visited := sadd node (visited st);
                    currently_visiting :=
                      sremove node (currently_visiting st) |}
            else Raise (KeyError node)
        end
  end.

(** The [for node in new_graph] loop of [_dfs_topological_sort]. *)
Fixpoint _dfs_topological_sort_loop (fuel : nat) (graph new_graph : graph_t)
    (nodes : list NT) (st : dfs_state) : result NT dfs_state :=
  match nodes with
  | [] => Ok st
  | node :: rest =>
      if smem node (visited st) then
        _dfs_topological_sort_loop fuel graph new_graph rest st
      else
        let* st := _dfs_topological_sort_dfs fuel graph new_graph node st in
        _dfs_topological_sort_loop fuel graph new_graph rest st
  end.

Definition _dfs_topological_sort (fuel : nat) (graph : graph_t)
    (graph_type : string) : result NT (list NT) :=
  let* gi := normalise graph graph_type in
  let new_graph := fst gi in
  let* st := _dfs_topological_sort_loop fuel graph new_graph
               (Dict.keys new_graph)
               {| sorted_list := []; visited := [];
                  currently_visiting := [] |} in
  Ok (rev (sorted_list st)).

(** *** The facade *)

Definition _validate_return_type (return_type : string) : result NT unit :=
  if (return_type =? "nodes") || (return_type =? "groups") then Ok tt
  else
    Raise (ValueError
      ("Return type " ++ dq ++ return_type ++ dq ++ ", invalid. "
       ++ "Return type must be " ++ dq ++ "nodes" ++ dq ++ " or "
       ++ dq ++ "groups" ++ dq ++ ".")%string).

Definition _validate_graph_type (graph_type : string) : result NT unit :=
  if (graph_type =? "edges") || (graph_type =? "dependencies") then Ok tt
  else
    Raise (ValueError
      ("Graph type " ++ dq ++ graph_type ++ dq ++ ", invalid. "
       ++ "Graph type must be " ++ dq ++ "edges" ++ dq ++ " or "
       ++ dq ++ "dependencies" ++ dq ++ ".")%string).

Definition topological_sort (fuel : nat) (graph : graph_t)
    (method return_type : string) (sort_groups : bool)
    (graph_type : string) : result NT (list (item NT)) :=
  let* _ := _validate_return_type return_type in
  let* _ := _validate_graph_type graph_type in
  if method =? "bfs" then
    _bfs_topological_sort fuel graph return_type sort_groups graph_type
  else if method =? "dfs" then
    if negb (return_type =? "nodes") then
      Raise (ValueError
        ("If sort method is depth-first search, "
         ++ "return type must be " ++ dq ++ "nodes" ++ dq ++ ".")%string)
    else if sort_groups then
      Raise (ValueError
        ("If sort method is depth-first search, "
         ++ "cannot sort indegree groups.")%string)
    else
      let* l := _dfs_topological_sort fuel graph graph_type in
      Ok (map Node l)
  else
    Raise (ValueError
      ("Method " ++ dq ++ method ++ dq ++ ", invalid. Method must be "
       ++ dq ++ "bfs" ++ dq ++ " or " ++ dq ++ "dfs" ++ dq ++ ".")%string).

End TopologicalSort.

(** ** Example graphs *)

Definition TEST_GRAPH : Dict.dict string (list string) :=
  [("D", ["B"; "C"]); ("C", ["A"; "C"; "E"]); ("B", ["A"])].

Definition INV_TEST_GRAPH : Dict.dict string (list string) :=
  [("A", ["B"; "C"]); ("B", ["B"; "D"]); ("C", ["D"]); ("E", ["C"])].

Definition CYCLE_TEST_GRAPH : Dict.dict string (list string) :=
  [("G", []); ("F", []); ("D", ["B"; "C"]); ("C", ["E"; "A"]);
   ("B", ["A"; "F"]); ("A", ["D"])].

(** A cycle D, C, A behind a neighbour E that is no key. *)
Definition KEY_GRAPH : Dict.dict string (list string) :=
  [("D", ["C"; "B"]); ("C", ["E"; "A"]); ("B", ["A"]); ("A", ["D"])].

(** A cycle D, Y behind the cycle E, F. *)
Definition SPIN_GRAPH : Dict.dict string (list string) :=
  [("D", ["E"; "Y"]); ("E", ["F"]); ("F", ["E"]); ("Y", ["D"])].

Definition LOOP_GRAPH : Dict.dict string (list string) :=
  [("B", ["B"; "A"]); ("A", ["B"])].

Definition LOOP_GRAPH_removed : Dict.dict string (list string) :=
  [("B", ["A"]); ("A", ["B"])].

Definition LOOP_SPIN_GRAPH : Dict.dict string (list string) :=
  [("A", ["B"]); ("B", ["B"; "A"])].

Definition LOOP_SPIN_GRAPH_removed : Dict.dict string (list string) :=
  [("A", ["B"]); ("B", ["A"])].

Definition INT_CYCLE : Dict.dict Z (list Z) :=
  [(1%Z, [2%Z]); (2%Z, [1%Z])].

(** A cycle 4, 3, 1 of integers behind a neighbour 5 that is no key. *)
Definition INT_KEY_GRAPH : Dict.dict Z (list Z) :=
  [(4%Z, [3%Z; 2%Z]); (3%Z, [5%Z; 1%Z]); (2%Z, [1%Z]); (1%Z, [4%Z])].

Definition DEP_CYCLE : Dict.dict string (list string) :=
  [("A", ["B"]); ("B", ["C"]); ("C", ["A"])].

(** A topological numbering of [TEST_GRAPH]. *)
Definition TEST_GRAPH_rank (s : string) : nat :=
  if s =? "D" then 0 else if (s =? "B") || (s =? "C") then 1 else 2.

(** ** Vocabulary of the specification *)

(** [x] occurs before [y] in [l]. *)
Definition precedes {A} (x y : A) (l : list A) : Prop :=
  exists l1 l2 l3, l = l1 ++ x :: l2 ++ y :: l3.

Fixpoint precedesb {A} (dec : forall x y : A, {x = y} + {x <> y})
    (x y : A) (l : list A) : bool :=
  match l with
  | [] => false
  | a :: r =>
      ((if dec a x then true else false)
       && (if in_dec dec y r then true else false))
      || precedesb dec x y r
  end.

(** The batch holding [x] comes before the batch holding [y]. *)
Definition batch_precedes {A} (x y : A) (batches : list (list A)) : Prop :=
  exists b1 bx b2 byy b3,
    batches = b1 ++ bx :: b2 ++ byy :: b3 /\ In x bx /\ In y byy.

(** [a] is directly followed by [b] in [l]. *)
Definition consecutive {A} (a b : A) (l : list A) : Prop :=
  exists l1 l2, l = l1 ++ a :: b :: l2.

(** [s] occurs in the message [msg]. *)
Definition mentions (msg s : string) : Prop :=
  exists pre post, msg = (pre ++ s ++ post)%string.

Fixpoint mentionsb (msg s : string) : bool :=
  String.prefix s msg
  || match msg with
     | EmptyString => false
     | String _ rest => mentionsb rest s
     end.

(** Consecutive elements of [l] are related. *)
Fixpoint walk {A} (R : A -> A -> Prop) (l : list A) : Prop :=
  match l with
  | a :: (b :: _) as rest => R a b /\ walk R rest
  | _ => True
  end.

(** Every element of [L] has all its [R]-predecessors before it. *)
Definition respects {A} (R : A -> A -> Prop) (L : list A) : Prop :=
  forall l1 x l2, L = l1 ++ x :: l2 -> forall y, R y x -> In y l1.

(** Every element of a batch has all its [R]-predecessors in [V] or in
    an earlier batch. *)
Fixpoint layers {A} (R : A -> A -> Prop) (V : list A) (Bs : list (list A))
  : Prop :=
  match Bs with
  | [] => True
  | B :: Bs' =>
      (forall x, In x B -> forall y, R y x -> In y V) /\ layers R (V ++ B) Bs'
  end.

Section Vocabulary.
Context {NT : Type} {PN : PyNode NT}.

Local Abbreviation graph_t := (Dict.dict NT (list NT)).
Local Abbreviation gget := (Dict.get node_eq_dec).

Definition successors (G : graph_t) (u : NT) : list NT :=
  match gget G u with Some l => l | None => [] end.

(** [u -> v] is an edge of the adjacency lists [G]. *)
Definition edge (G : graph_t) (u v : NT) : Prop :=
  In v (successors G u).

Definition acyclic (G : graph_t) : Prop :=
  forall u, ~ clos_trans NT (edge G) u u.

(** The canonical graph of an input. *)
Definition canonical (graph : graph_t) (graph_type : string) : graph_t :=
  match normalise graph graph_type with
  | Ok gi => fst gi
  | _ => []
  end.

(** The nodes of an input: its keys and everything its lists name. *)
Definition input_node (graph : graph_t) (v : NT) : Prop :=
  In v (Dict.keys graph) \/ exists u ns, In (u, ns) graph /\ In v ns.

(** Consecutive nodes of [path] are linked in the lists of [graph]. *)
Fixpoint chain (graph : graph_t) (path : list NT) : Prop :=
  match path with
  | a :: (b :: _) as rest =>
      (exists ns, In (a, ns) graph /\ In b ns) /\ chain graph rest
  | _ => True
  end.

(** Every listed successor has a larger rank than its key. *)
Definition ranked (rank : NT -> nat) (G : graph_t) : bool :=
  forallb (fun item : NT * list NT =>
             forallb (fun v => (rank (fst item) <? rank v)%nat) (snd item)) G.

(** *** Kahn's algorithm *)

(** The number of entries for [v] in the lists of the keys outside [D]:
    the edges into [v] that [D] has not released. *)
Definition pending_in (G : graph_t) (D : list NT) (v : NT) : nat :=
  list_sum
    (map (fun item : NT * list NT =>
            if set_mem node_eq_dec (fst item) D then 0
            else count_occ node_eq_dec (snd item) v) G).

(** What the normalisers establish. *)
Record wf_graph (G : graph_t) (indegree : Dict.dict NT Z) : Prop := {
  wf_nodup : NoDup (Dict.keys G);
  wf_closed : forall u v, edge G u v -> In v (Dict.keys G);
  wf_indegree : forall v, degree indegree v = Z.of_nat (pending_in G [] v)
}.

(** The state of Kahn's algorithm: [D] are the nodes taken from the queue
    and released, [P] those found ready and not yet released. *)
Record kahn_inv (G : graph_t) (D P : list NT) (indegree : Dict.dict NT Z)
  : Prop := {
  ki_nodup : NoDup (D ++ P);
  ki_keys : forall v, In v (D ++ P) -> In v (Dict.keys G);
  ki_degree : forall v, degree indegree v = Z.of_nat (pending_in G D v);
  ki_ready : forall v, In v (Dict.keys G) ->
                       (In v (D ++ P) <-> pending_in G D v = 0)
}.

(** A suspended [_node_generator]: the node it yielded last is visited
    and not yet released. *)
Definition node_inv (G : graph_t) (s : node_gen) : Prop :=
  match ng_yielded s with
  | None =>
      ng_visited s = [] /\ kahn_inv G [] (ng_queue s) (ng_indegree s)
  | Some x =>
      exists D, ng_visited s = D ++ [x]
                /\ kahn_inv G D (x :: ng_queue s) (ng_indegree s)
  end.

(** A suspended [_group_generator]. *)
Definition group_inv (G : graph_t) (s : group_gen) : Prop :=
  kahn_inv G (gg_visited s) (gg_queue s) (gg_indegree s).

(** *** The depth-first producer *)

(** The finished nodes: each comes after all its successors. *)
Definition dfs_inv (G : graph_t) (st : dfs_state) : Prop :=
  visited st = sorted_list st
  /\ NoDup (sorted_list st)
  /\ (forall v, In v (sorted_list st) -> In v (Dict.keys G))
  /\ respects (fun w u => edge G u w) (sorted_list st).

(** What a call [dfs(node)] that returns has done. *)
Definition dfs_post (G : graph_t) (node : NT) (st st' : dfs_state) : Prop :=
  dfs_inv G st'
  /\ currently_visiting st' = currently_visiting st
  /\ In node (visited st')
  /\ (forall v, In v (visited st) -> In v (visited st'))
  /\ (forall v, In v (visited st') ->
        In v (visited st) \/ v = node \/ clos_trans NT (edge G) node v).

(** When [dfs(node)] is called on an acyclic graph: the nodes being
    visited are the path that led to [node]. *)
Definition dfs_pre (G : graph_t) (fuel : nat) (node : NT) (st : dfs_state)
  : Prop :=
  dfs_inv G st
  /\ In node (Dict.keys G)
  /\ ~ In node (visited st)
  /\ NoDup (currently_visiting st)
  /\ (forall c, In c (currently_visiting st) -> In c (Dict.keys G))
  /\ (forall c, In c (currently_visiting st) ->
        clos_trans NT (edge G) c node)
  /\ List.length G - List.length (currently_visiting st) < fuel.

(** *** The normalisers *)

(** The entries of [ns] other than [k]. *)
Definition remove_self (k : NT) (ns : list NT) : list NT :=
  filter (fun v => if node_eq_dec v k then false else true) ns.

(** [_prepare_graph] after the entries [done] of [graph]; the last of
    them may be an initial part of its entry. *)
Record prepared (graph done G : graph_t) (ind : Dict.dict NT Z) : Prop := {
  pr_nodup : NoDup (Dict.keys G);
  pr_keys : forall k,
    In k (Dict.keys G) <->
    In k (Dict.keys done)
    \/ (~ In k (Dict.keys graph) /\ exists u ns, In (u, ns) done /\ In k ns);
  pr_lists : forall k,
    In k (Dict.keys G) ->
    gget G k = Some (match gget done k with
                     | Some ns => remove_self k ns
                     | None => []
                     end);
  pr_degree : forall v, degree ind v = Z.of_nat (pending_in G [] v)
}.

(** The keys that list [k] as a dependency, once per listing, in the
    order of the entries. *)
Definition dependents (done : graph_t) (k : NT) : list NT :=
  flat_map (fun e : NT * list NT =>
              if node_eq_dec (fst e) k then []
              else repeat (fst e) (count_occ node_eq_dec (snd e) k)) done.

(** [_get_edges_from_dependencies] after the entries [done]. *)
Record reversed (done G : graph_t) (ind : Dict.dict NT Z) : Prop := {
  rv_nodup : NoDup (Dict.keys G);
  rv_keys : forall k,
    In k (Dict.keys G) <->
    In k (Dict.keys done) \/ exists u ds, In (u, ds) done /\ In k ds;
  rv_lists : forall k,
    In k (Dict.keys G) -> gget G k = Some (dependents done k);
  rv_degree : forall v, degree ind v = Z.of_nat (pending_in G [] v)
}.

(** *** The cycle search *)

(** A path the search may return from [curr]: it starts at [curr] and
    follows the lists of [graph]. *)
Definition path_from (graph : graph_t) (curr : NT) (r : option (list NT))
  : Prop :=
  forall p, r = Some p -> chain graph p /\ exists rest, p = curr :: rest.

(** Every path in the cache is one the search may return for its key. *)
Definition memo_ok (graph : graph_t) (memo : memo_t) : Prop :=
  forall key r, In (key, r) memo -> path_from graph (fst key) r.

(** The payload of a [CycleError]: a nonempty path along the lists of
    [graph] whose first node satisfies [Q], all of it [str]. *)
Definition reported (graph : graph_t) (Q : NT -> Prop) (e : exn NT) : Prop :=
  forall c msg, e = CycleError c msg ->
    chain graph c
    /\ exists x rest s, c = x :: rest /\ Q x
                        /\ str_join " -> " c = Some s.

(** The payload of a [CycleError] is nonempty, all [str], and starts at a
    node satisfying [Q]. *)
Definition headed (Q : NT -> Prop) (e : exn NT) : Prop :=
  forall c msg, e = CycleError c msg ->
    exists x rest s, c = x :: rest /\ Q x /\ str_join " -> " c = Some s.

(** No [CycleError] is raised. *)
Definition quiet {A} (r : result NT A) : Prop :=
  forall c msg, r <> Raise (CycleError c msg).

(** The canonical graph a suspended [topological_sort_generator] holds. *)
Definition tsg_graph (graph : graph_t) (graph_type : string)
    (s : tsg_state) : graph_t :=
  match s with
  | TsgStart => canonical graph graph_type
  | TsgNodes G _ => G
  | TsgFlatten G _ _ => G
  | TsgGroups G _ => G
  end.

(** A [next]: the graph stays, a failure is about it. *)
Definition next_ok (graph : graph_t) (graph_type : string) (G : graph_t)
    {A} (r : step NT tsg_state A) : Prop :=
  match r with
  | Yield _ s' => tsg_graph graph graph_type s' = G
  | Fail e => headed (fun x => In x (Dict.keys G)) e
  | _ => True
  end.
End Vocabulary.

(** ** Vocabulary of the further properties *)

Section MoreVocabulary.
Context {NT : Type} {PN : PyNode NT}.

(** The finished nodes of the depth-first producer are ordered and none
    of them is being visited. *)
Definition dfs_settled (G : Dict.dict NT (list NT)) (st : dfs_state)
  : Prop :=
  dfs_inv G st
  /\ forall c, In c (currently_visiting st) -> ~ In c (visited st).

(** No path is recorded in the cache of the cycle search. *)
Definition memo_none (memo : list ((NT * nat) * option (list NT))) : Prop :=
  forall key r, In (key, r) memo -> r = None.

(** What [dfs(curr, level)] of [_get_cycle] returns while the search is
    for [n]: no path, the cache holding none either, or a path that ends
    at [n]. *)
Definition ends_at (n : NT) (level : nat) (r : option (list NT))
    (memo : list ((NT * nat) * option (list NT))) : Prop :=
  match r with
  | None => memo_none memo
  | Some p => exists mid, p = mid ++ [n] /\ (level = 0 -> mid <> [])
  end.

(** A path that comes back to where it starts. *)
Definition closed_path (c : list NT) : Prop :=
  exists x mid, c = x :: mid ++ [x].

(** The payload of a [CycleError] is a closed path and the message lists
    it. *)
Definition well_reported (e : exn NT) : Prop :=
  forall c msg, e = CycleError c msg ->
    closed_path c
    /\ exists s, str_join " -> " c = Some s
                 /\ msg = ("Cycle detected in graph: " ++ s ++ ".")%string.

(** The payload of a [CycleError] follows the edges of [G]. *)
Definition along (G : Dict.dict NT (list NT)) (e : exn NT) : Prop :=
  forall c msg, e = CycleError c msg -> walk (edge G) c.

(** The exception is a [KeyError] for a node that is no key of [graph]. *)
Definition missing_key (graph : Dict.dict NT (list NT)) (e : exn NT)
  : Prop :=
  exists k, e = KeyError k /\ ~ In k (Dict.keys graph).

(** The exception is no [ValueError]. *)
Definition no_ValueError (e : exn NT) : Prop :=
  forall msg, e <> ValueError msg.

(** Everything the lists of [graph] name is a key of it. *)
Definition list_closed (graph : Dict.dict NT (list NT)) : Prop :=
  forall u ns v, In (u, ns) graph -> In v ns -> In v (Dict.keys graph).

(** An element of a result with its batch sorted. *)
Definition sorted_item (it : item NT) : item NT :=
  match it with
  | Group g => Group (sorted g)
  | Node n => Node n
  end.
End MoreVocabulary.

(** ** chob_tools.data_structures.invertible_dict

    [InvertibleDict] of [invertible_dict.py]; the class of the same name
    in [invertible_mapping.py] has the same body.  The object holds two
    dict objects.  A method that assigns or deletes returns the state of
    the object after the call together with what the call did, so that
    an exception raised half way leaves the changes made before it.  The
    view [inv] is a second object over the same two dicts, the other way
    round: the state a call on [inv d] leaves is, seen from [d], the
    [inv] of it. *)

(** What the two classes ask of keys and values: being hashable, that
    is, comparable. *)
Class PyKey (A : Type) : Type :=
  key_eq_dec : forall x y : A, {x = y} + {x <> y}.

#[export] Instance PyKey_str : PyKey string := string_dec.
#[export] Instance PyKey_int : PyKey Z := Z.eq_dec.

Record InvertibleDict (K V : Type) : Type := {
  _forward : Dict.dict K V;
  _backward : Dict.dict V K
}.

Section InvertibleDict.
Context {K V : Type} {HK : PyKey K} {HV : PyKey V}.

(** A [KeyError] carries the key of [_forward] or of [_backward] that
    was missing. *)
Local Abbreviation outcome := (result (K + V)).

Fixpoint _check_non_invertible_loop (vals seen : list V) : outcome unit :=
  match vals with
  | [] => Ok tt
  | val :: rest =>
      if set_mem key_eq_dec val seen then
        Raise (ValueError
          ("Dictionary values must be unique "
           ++ "to maintain invertability.")%string)
      else _check_non_invertible_loop rest (set_add key_eq_dec val seen)
  end.

Definition _check_non_invertible (self : InvertibleDict K V)
  : outcome unit :=
  _check_non_invertible_loop (Dict.values (_forward self)) [].

(** [{value: key for key, value in forward.items()}] *)
Definition inverted (forward : Dict.dict K V) : Dict.dict V K :=
  fold_left (fun acc item => Dict.set key_eq_dec acc (snd item) (fst item))
    forward [].

(** [InvertibleDict(forward, _backward=backward)]; [None] is the default
    of either argument. *)
Definition __init__ (forward : option (Dict.dict K V))
    (backward : option (Dict.dict V K)) : outcome (InvertibleDict K V) :=
  match forward with
  | None => Ok {| _forward := []; _backward := [] |}
  | Some forward =>
      match backward with
      | Some backward =>
          Ok {| _forward := forward; _backward := backward |}
      | None =>
          let self :=
            {| _forward := forward; _backward := inverted forward |} in
          let* _ := _check_non_invertible self in
          Ok self
      end
  end.

Definition __getitem__ (self : InvertibleDict K V) (key : K) : outcome V :=
  match Dict.get key_eq_dec (_forward self) key with
  | Some value => Ok value
  | None => Raise (KeyError (inl key))
  end.

Definition __setitem__ (self : InvertibleDict K V) (key : K) (value : V)
  : InvertibleDict K V * outcome unit :=
  if Dict.mem key_eq_dec (_backward self) value then
    (self, Raise (ValueError
                    "Value must be unique to maintain invertibility."))
  else
    match
      if Dict.mem key_eq_dec (_forward self) key then
        match Dict.get key_eq_dec (_forward self) key with
        | None => Raise (KeyError (inl key))
        | Some old =>
            match Dict.del key_eq_dec (_backward self) old with
            | None => Raise (KeyError (inr old))
            | Some backward => Ok backward
            end
        end
      else Ok (_backward self)
    with
    | Ok backward =>
        ({| _forward := Dict.set key_eq_dec (_forward self) key value;
            _backward := Dict.set key_eq_dec backward value key |}, Ok tt)
    | Raise e => (self, Raise e)
    | Diverge => (self, Diverge)
    end.

Definition __delitem__ (self : InvertibleDict K V) (key : K)
  : InvertibleDict K V * outcome unit :=
  match Dict.get key_eq_dec (_forward self) key with
  | None => (self, Raise (KeyError (inl key)))
  | Some value =>
      match Dict.del key_eq_dec (_forward self) key with
      | None => (self, Raise (KeyError (inl key)))
      | Some forward =>
          let self :=
            {| _forward := forward; _backward := _backward self |} in
          match Dict.del key_eq_dec (_backward self) value with
          | None => (self, Raise (KeyError (inr value)))
          | Some backward =>
              ({| _forward := forward; _backward := backward |}, Ok tt)
          end
      end
  end.

Definition __iter__ (self : InvertibleDict K V) : list K :=
  Dict.keys (_forward self).

Definition __len__ (self : InvertibleDict K V) : nat :=
  List.length (_forward self).
End InvertibleDict.

(** [self.inv]: [self.__class__(self._backward, _backward=self._forward)] *)
Definition inv {K V : Type} {HK : PyKey K} {HV : PyKey V}
    (self : InvertibleDict K V) : result (V + K) (InvertibleDict V K) :=
  __init__ (Some (_backward self)) (Some (_forward self)).

(** The two dicts of an [InvertibleDict] are each other's inverse. *)
Definition consistent {K V : Type} (self : InvertibleDict K V) : Prop :=
  NoDup (Dict.keys (_forward self))
  /\ NoDup (Dict.keys (_backward self))
  /\ forall k v, In (k, v) (_forward self) <-> In (v, k) (_backward self).

(** Example objects, after the repository's tests. *)
Definition food_dict : Dict.dict string string :=
  [("apple", "fruit"); ("carrot", "vegetable")].

Definition duplicate_food_dict : Dict.dict string string :=
  [("apple", "fruit"); ("carrot", "vegetable"); ("peach", "fruit")].

Definition FOODS : InvertibleDict string string :=
  {| _forward := food_dict;
     _backward := [("fruit", "apple"); ("vegetable", "carrot")] |}.

(** ** Tactics *)

Ltac splits := repeat match goal with |- _ /\ _ => split end.

(** ** Dictionaries, lists and messages *)

Section DictFacts.
Context {K V : Type} (eq_dec : forall x y : K, {x = y} + {x <> y}).

Local Abbreviation get := (Dict.get eq_dec).
Local Abbreviation set := (Dict.set eq_dec).
Local Abbreviation mem := (Dict.mem eq_dec).
Local Abbreviation keys := (@Dict.keys K V).

Lemma get_set_eq (d : Dict.dict K V) k v : get (set d k v) k = Some v.
Proof.
  induction d as [|[k' v'] d IH]; simpl.
  - destruct (eq_dec k k); [reflexivity | contradiction].
  - destruct (eq_dec k k') as [e|n]; simpl.
    + destruct (eq_dec k k'); [reflexivity | contradiction].
    + destruct (eq_dec k k'); [contradiction | exact IH].
Qed.

Lemma get_set_neq (d : Dict.dict K V) k k' v :
  k <> k' -> get (set d k v) k' = get d k'.
Proof.
  intros n. induction d as [|[k0 v0] d IH]; simpl.
  - destruct (eq_dec k' k); [congruence | reflexivity].
  - destruct (eq_dec k k0) as [e|n0]; simpl.
    + subst k0. destruct (eq_dec k' k); [congruence | reflexivity].
    + destruct (eq_dec k' k0); [reflexivity | exact IH].
Qed.

Lemma get_Some_In (d : Dict.dict K V) k v : get d k = Some v -> In (k, v) d.
Proof.
  induction d as [|[k' v'] d IH]; simpl; [discriminate|].
  destruct (eq_dec k k') as [->|n]; intros H.
  - injection H as ->. left. reflexivity.
  - right. apply IH, H.
Qed.

Lemma get_None_iff (d : Dict.dict K V) k :
  get d k = None <-> ~ In k (keys d).
Proof.
  induction d as [|[k' v'] d IH]; simpl; [tauto|].
  destruct (eq_dec k k') as [->|n].
  - split; [discriminate | intros H; exfalso; apply H; left; reflexivity].
  - rewrite IH. split; intros H; [intros [e|i]; [congruence | tauto] | tauto].
Qed.

Lemma get_Some_key (d : Dict.dict K V) k v :
  get d k = Some v -> In k (keys d).
Proof.
  intros H. apply get_Some_In in H.
  apply (in_map fst) in H. exact H.
Qed.

Lemma key_get (d : Dict.dict K V) k :
  In k (keys d) -> exists v, get d k = Some v.
Proof.
  intros H. destruct (get d k) eqn:E; [eauto|].
  apply get_None_iff in E. contradiction.
Qed.

Lemma mem_iff (d : Dict.dict K V) k : mem d k = true <-> In k (keys d).
Proof.
  unfold Dict.mem. destruct (get d k) eqn:E.
  - split; [intros _; eapply get_Some_key, E | reflexivity].
  - apply get_None_iff in E. split; [discriminate | contradiction].
Qed.

Lemma In_get (d : Dict.dict K V) k v :
  NoDup (keys d) -> In (k, v) d -> get d k = Some v.
Proof.
  induction d as [|[k' v'] d IH]; simpl; [contradiction|].
  intros nd [e|i].
  - injection e as -> ->. destruct (eq_dec k k); [reflexivity|contradiction].
  - inversion nd as [|? ? notin nd']; subst.
    destruct (eq_dec k k') as [->|n].
    + exfalso. apply notin. apply (in_map fst) in i. exact i.
    + apply IH; assumption.
Qed.

Lemma keys_set_old (d : Dict.dict K V) k v :
  In k (keys d) -> keys (set d k v) = keys d.
Proof.
  induction d as [|[k' v'] d IH]; simpl; [contradiction|].
  intros H. destruct (eq_dec k k') as [->|n]; simpl; [reflexivity|].
  f_equal. apply IH. destruct H; [congruence | assumption].
Qed.

Lemma set_new (d : Dict.dict K V) k v :
  ~ In k (keys d) -> set d k v = d ++ [(k, v)].
Proof.
  induction d as [|[k' v'] d IH]; simpl; [reflexivity|].
  intros H. destruct (eq_dec k k') as [->|n]; [tauto|].
  f_equal. apply IH. tauto.
Qed.

Lemma set_same (d : Dict.dict K V) k v : get d k = Some v -> set d k v = d.
Proof.
  induction d as [|[k' v'] d IH]; simpl; [discriminate|].
  destruct (eq_dec k k') as [->|n]; intros H.
  - injection H as ->. reflexivity.
  - f_equal. apply IH, H.
Qed.

Lemma keys_set_iff (d : Dict.dict K V) k v x :
  In x (keys (set d k v)) <-> x = k \/ In x (keys d).
Proof.
  destruct (in_dec eq_dec k (keys d)) as [i|n].
  - rewrite keys_set_old by assumption.
    split; [tauto | intros [->|H]; assumption].
  - rewrite set_new by assumption. unfold Dict.keys.
    rewrite map_app, in_app_iff. simpl. intuition congruence.
Qed.

Lemma NoDup_keys_set (d : Dict.dict K V) k v :
  NoDup (keys d) -> NoDup (keys (set d k v)).
Proof.
  intros nd. destruct (in_dec eq_dec k (keys d)) as [i|n].
  - rewrite keys_set_old by assumption. exact nd.
  - rewrite set_new by assumption. unfold Dict.keys.
    rewrite map_app. simpl. apply NoDup_app; auto.
    + constructor; [intros []|constructor].
    + intros x H [<-|[]]. contradiction.
Qed.
End DictFacts.

Section DictMore.
Context {K V : Type} (eq_dec : forall x y : K, {x = y} + {x <> y}).
Local Abbreviation get := (Dict.get eq_dec).

Lemma get_app (d1 d2 : Dict.dict K V) k :
  get (d1 ++ d2) k
  = match get d1 k with Some v => Some v | None => get d2 k end.
Proof.
  induction d1 as [|[k' v'] d1 IH]; simpl; [reflexivity|].
  destruct (eq_dec k k'); [reflexivity | exact IH].
Qed.

Lemma keys_app (d1 d2 : Dict.dict K V) :
  Dict.keys (d1 ++ d2) = Dict.keys d1 ++ Dict.keys d2.
Proof. apply map_app. Qed.
End DictMore.

Section ListFacts.
Context {A : Type} (dec : forall x y : A, {x = y} + {x <> y}).

Lemma precedes_precedesb (x y : A) (l : list A) :
  precedes x y l <-> precedesb dec x y l = true.
Proof.
  split.
  - intros (l1 & l2 & l3 & ->).
    induction l1 as [|a l1 IH]; simpl.
    + destruct (dec x x) as [_|n]; [|contradiction].
      destruct (in_dec dec y (l2 ++ y :: l3)) as [_|n]; [reflexivity|].
      exfalso; apply n, in_or_app; right; left; reflexivity.
    + rewrite IH. apply orb_true_r.
  - induction l as [|a r IH]; simpl; [discriminate|].
    intros H. apply orb_true_iff in H. destruct H as [H|H].
    + apply andb_true_iff in H. destruct H as [Ha Hy].
      destruct (dec a x) as [->|]; [|discriminate].
      destruct (in_dec dec y r) as [i|]; [|discriminate].
      apply in_split in i. destruct i as (l2 & l3 & ->).
      exists [], l2, l3. reflexivity.
    + destruct (IH H) as (l1 & l2 & l3 & ->).
      exists (a :: l1), l2, l3. reflexivity.
Qed.
End ListFacts.

Lemma prefix_app (s post : string) : String.prefix s (s ++ post) = true.
Proof.
  induction s as [|a s IH]; simpl.
  - destruct post; reflexivity.
  - destruct (ascii_dec a a) as [_|n]; [exact IH | contradiction].
Qed.

Lemma mentionsb_prefix (msg s : string) :
  String.prefix s msg = true -> mentionsb msg s = true.
Proof. intros H. destruct msg; simpl in *; rewrite H; reflexivity. Qed.

Lemma mentions_mentionsb (msg s : string) :
  mentions msg s -> mentionsb msg s = true.
Proof.
  intros (pre & post & ->).
  induction pre as [|a pre IH].
  - apply mentionsb_prefix. simpl. apply prefix_app.
  - simpl. rewrite IH. apply orb_true_r.
Qed.

Lemma mentions_head (s post : string) : mentions (s ++ post) s.
Proof. exists "", post. reflexivity. Qed.

Lemma mentions_later (pre msg s : string) :
  mentions msg s -> mentions (pre ++ msg) s.
Proof.
  intros (a & b & ->). exists (pre ++ a)%string, b.
  induction pre as [|c pre IH]; simpl; [reflexivity|].
  f_equal. exact IH.
Qed.

(** ** Orders *)

Section Orders.
Context {A : Type}.

Lemma respects_nil (R : A -> A -> Prop) : respects R [].
Proof. intros l1 x l2 E. destruct l1; discriminate. Qed.

Lemma respects_snoc (R : A -> A -> Prop) (L : list A) (x : A) :
  respects R L -> (forall y, R y x -> In y L) -> respects R (L ++ [x]).
Proof.
  intros H Hx l1 x' l2 E y Ryx.
  destruct (exists_last (l := x' :: l2)) as (l2' & z & E2); [discriminate|].
  rewrite E2, app_assoc in E. apply app_inj_tail in E. destruct E as [E Ez].
  subst z. destruct l2' as [|a l2']; simpl in E2; injection E2 as E2 E3.
  - subst. rewrite app_nil_r in Hx. apply Hx, Ryx.
  - subst x'. apply (H l1 a l2' E y Ryx).
Qed.

Lemma respects_precedes (R : A -> A -> Prop) (L : list A) (x y : A) :
  respects R L -> In x L -> R y x -> precedes y x L.
Proof.
  intros H i Ryx. apply in_split in i. destruct i as (l1 & l2 & E).
  pose proof (H l1 x l2 E y Ryx) as i.
  apply in_split in i. destruct i as (a & b & ->).
  exists a, b, l2. rewrite E, <- app_assoc. reflexivity.
Qed.

Lemma precedes_rev (x y : A) (l : list A) :
  precedes x y l -> precedes y x (rev l).
Proof.
  intros (l1 & l2 & l3 & ->). exists (rev l3), (rev l2), (rev l1).
  rewrite rev_app_distr. simpl. rewrite rev_app_distr. simpl.
  rewrite <- !app_assoc. reflexivity.
Qed.

Lemma layers_ext (R : A -> A -> Prop) (Bs : list (list A)) :
  forall V V', (forall x, In x V -> In x V') -> layers R V Bs ->
               layers R V' Bs.
Proof.
  induction Bs as [|B Bs IH]; simpl; [auto|].
  intros V V' sub [H1 H2]. split.
  - intros x i y r. apply sub. eapply H1; eauto.
  - apply (IH (V ++ B)); [|exact H2].
    intros x i. apply in_app_or in i. apply in_or_app. intuition.
Qed.

Lemma in_concat_split (x : A) (Bs : list (list A)) :
  In x (List.concat Bs) -> exists b1 B b2, Bs = b1 ++ B :: b2 /\ In x B.
Proof.
  intros i. apply in_concat in i. destruct i as (B & iB & ix).
  apply in_split in iB. destruct iB as (b1 & b2 & ->). eauto.
Qed.

Lemma layers_precedes (R : A -> A -> Prop) (Bs : list (list A)) :
  forall V x y, layers R V Bs -> In x (List.concat Bs) -> R y x ->
                In y V \/ batch_precedes y x Bs.
Proof.
  induction Bs as [|B Bs IH]; simpl; [intros V x y _ []|].
  intros V x y [H1 H2] i r. apply in_app_or in i. destruct i as [i|i].
  - left. eapply H1; eauto.
  - destruct (IH _ _ _ H2 i r) as [iy|bp].
    + apply in_app_or in iy. destruct iy as [iy|iy]; [left; exact iy|].
      right. destruct (in_concat_split _ _ i) as (b1 & Bx & b2 & -> & ix).
      exists [], B, b1, Bx, b2. auto.
    + right. destruct bp as (b1 & bx & b2 & byy & b3 & -> & iy & ix).
      exists (B :: b1), bx, b2, byy, b3. auto.
Qed.

Lemma batch_precedes_concat (x y : A) (Bs : list (list A)) :
  batch_precedes x y Bs -> precedes x y (List.concat Bs).
Proof.
  intros (b1 & bx & b2 & byy & b3 & -> & ix & iy).
  apply in_split in ix. destruct ix as (x1 & x2 & ->).
  apply in_split in iy. destruct iy as (y1 & y2 & ->).
  exists (List.concat b1 ++ x1), (x2 ++ List.concat b2 ++ y1), (y2 ++ List.concat b3).
  repeat (rewrite ?concat_app, <- ?app_assoc; simpl). reflexivity.
Qed.
End Orders.

(** ** Cycles in finite graphs *)

Section Cycles.
Context {A : Type} (dec : forall x y : A, {x = y} + {x <> y}).
Variable R : A -> A -> Prop.

Lemma walk_app_inv (l1 l2 : list A) : walk R (l1 ++ l2) -> walk R l2.
Proof.
  induction l1 as [|a l1 IH]; simpl; [auto|].
  destruct (l1 ++ l2) eqn:E; intros H.
  - destruct l1; [simpl in E; subst; exact I | discriminate].
  - apply IH. tauto.
Qed.

Lemma walk_reach (a b : A) (l l' : list A) :
  walk R (a :: l ++ b :: l') -> clos_trans A R a b.
Proof.
  revert a. induction l as [|c l IH]; intros a; simpl.
  - intros [H _]. apply t_step, H.
  - intros [H W]. eapply t_trans; [apply t_step, H | apply IH, W].
Qed.

Lemma repeated (l : list A) :
  ~ NoDup l -> exists a l1 l2 l3, l = l1 ++ a :: l2 ++ a :: l3.
Proof.
  induction l as [|a l IH]; intros H.
  - exfalso. apply H. constructor.
  - destruct (in_dec dec a l) as [i|n].
    + apply in_split in i. destruct i as (l2 & l3 & ->).
      exists a, [], l2, l3. reflexivity.
    + destruct IH as (b & l1 & l2 & l3 & ->).
      * intros nd. apply H. constructor; assumption.
      * exists b, (a :: l1), l2, l3. reflexivity.
Qed.

(** In a finite set whose every element has a predecessor in the set,
    some element reaches itself. *)
Lemma predecessors_cycle (U : A -> Prop) (universe : list A) :
  (forall v, U v -> In v universe) ->
  (forall v, U v -> exists u, U u /\ R u v) ->
  forall v, U v -> exists w, clos_trans A R w w.
Proof.
  intros fin pred v Uv.
  assert (chains : forall n v, U v ->
            exists l, List.length l = n /\ walk R (l ++ [v])
                      /\ forall x, In x l -> U x).
  { induction n as [|n IH]; intros w Uw.
    - exists []. simpl. tauto.
    - destruct (pred w Uw) as (u & Uu & Ruw).
      destruct (IH u Uu) as (l & len & W & all).
      exists (l ++ [u]). split; [|split].
      + rewrite length_app. simpl. lia.
      + rewrite <- app_assoc. simpl.
        clear - W Ruw. induction l as [|a l IHl]; simpl in *; [tauto|].
        destruct (l ++ [u]) eqn:E1.
        * destruct l; discriminate.
        * destruct (l ++ [u; w]) eqn:E2.
          -- destruct l; discriminate.
          -- assert (a1 = a0).
             { destruct l; simpl in *; congruence. }
             subst. split; [tauto|]. apply IHl. tauto.
      + intros x i. apply in_app_or in i. destruct i as [i|[<-|[]]]; auto. }
  destruct (chains (S (List.length universe)) v Uv) as (l & len & W & all).
  assert (nnd : ~ NoDup l).
  { intros nd.
    assert (List.length l <= List.length universe).
    { apply NoDup_incl_length; [exact nd|]. intros x i. apply fin, all, i. }
    lia. }
  destruct (repeated nnd) as (a & l1 & l2 & l3 & ->).
  exists a. rewrite <- app_assoc in W. apply walk_app_inv in W.
  simpl in W. rewrite <- app_assoc in W. simpl in W.
  eapply walk_reach. exact W.
Qed.
End Cycles.

(** ** Kahn's algorithm *)

Section KahnFacts.
Context {NT : Type} {PN : PyNode NT}.
Local Abbreviation graph_t := (Dict.dict NT (list NT)).
Local Abbreviation count := (count_occ node_eq_dec).
Local Abbreviation smem := (set_mem node_eq_dec).

Lemma smem_true (x : NT) l : smem x l = true <-> In x l.
Proof.
  split; [apply set_mem_correct1 | apply set_mem_correct2].
Qed.

Lemma smem_false (x : NT) l : smem x l = false <-> ~ In x l.
Proof.
  split; [apply set_mem_complete1 | apply set_mem_complete2].
Qed.

Lemma sadd_new (x : NT) l : ~ In x l -> set_add node_eq_dec x l = l ++ [x].
Proof.
  induction l as [|a l IH]; simpl; [reflexivity|].
  intros H. destruct (node_eq_dec x a) as [->|n]; [tauto|].
  f_equal. apply IH. tauto.
Qed.

Lemma edge_iff (G : graph_t) u v :
  edge G u v <-> exists ns, Dict.get node_eq_dec G u = Some ns /\ In v ns.
Proof.
  unfold edge, successors.
  destruct (Dict.get node_eq_dec G u) as [ns|].
  - split; [eauto | intros (ns' & E & H); injection E as <-; exact H].
  - split; [intros [] | intros (ns' & E & _); discriminate].
Qed.

Lemma edge_source_key (G : graph_t) u v : edge G u v -> In u (Dict.keys G).
Proof.
  rewrite edge_iff. intros (ns & E & _). eapply get_Some_key, E.
Qed.

Lemma pending_in_skip (G : graph_t) D x v :
  ~ In x (Dict.keys G) -> pending_in G (D ++ [x]) v = pending_in G D v.
Proof.
  unfold pending_in. induction G as [|[u ns] G IH]; simpl; [reflexivity|].
  intros H. rewrite IH by tauto. f_equal.
  destruct (smem u D) eqn:E.
  - apply smem_true in E.
    rewrite (proj2 (smem_true u (D ++ [x]))); [reflexivity|].
    apply in_or_app. left. exact E.
  - apply smem_false in E.
    rewrite (proj2 (smem_false u (D ++ [x]))); [reflexivity|].
    rewrite in_app_iff. simpl. intuition congruence.
Qed.

Lemma pending_in_step (G : graph_t) D x nbs v :
  NoDup (Dict.keys G) -> Dict.get node_eq_dec G x = Some nbs -> ~ In x D ->
  pending_in G D v = pending_in G (D ++ [x]) v + count nbs v.
Proof.
  unfold pending_in. induction G as [|[u ns] G IH]; simpl; [discriminate|].
  intros nd E H. inversion nd as [|? ? notin nd']; subst.
  destruct (node_eq_dec x u) as [->|n].
  - injection E as ->.
    rewrite (proj2 (smem_false u D)) by assumption.
    rewrite (proj2 (smem_true u (D ++ [u])))
      by (apply in_or_app; right; left; reflexivity).
    fold (pending_in G (D ++ [u]) v). rewrite pending_in_skip by assumption.
    unfold pending_in. lia.
  - rewrite (IH nd' E H).
    destruct (smem u D) eqn:E'.
    + apply smem_true in E'.
      rewrite (proj2 (smem_true u (D ++ [x])))
        by (apply in_or_app; left; exact E').
      lia.
    + apply smem_false in E'.
      rewrite (proj2 (smem_false u (D ++ [x])))
        by (rewrite in_app_iff; simpl; intuition congruence).
      lia.
Qed.

Lemma pending_zero_preds (G : graph_t) D u v :
  pending_in G D v = 0 -> edge G u v -> In u D.
Proof.
  rewrite edge_iff. intros Z (ns & E & H). apply get_Some_In in E.
  unfold pending_in in Z.
  assert (T : forall l : list nat, list_sum l = 0 -> forall n, In n l -> n = 0).
  { induction l as [|a l IH]; simpl; [intros _ n []|].
    intros S n [<-|i]; [lia | apply IH; [lia | exact i]]. }
  specialize (T _ Z). 
  specialize (T (if smem u D then 0 else count ns v)).
  destruct (smem u D) eqn:E'; [apply smem_true, E'|].
  exfalso.
  assert (count ns v = 0).
  { apply T. apply in_map_iff. exists (u, ns). simpl. rewrite E'. auto. }
  apply (count_occ_In node_eq_dec) in H. lia.
Qed.

Lemma pending_pos_pred (G : graph_t) D v :
  NoDup (Dict.keys G) -> pending_in G D v <> 0 ->
  exists u, ~ In u D /\ edge G u v.
Proof.
  intros nd H.
  assert (X : exists u ns, In (u, ns) G /\ ~ In u D /\ In v ns).
  { unfold pending_in in H. clear nd.
    induction G as [|[u ns] G IH]; simpl in H; [congruence|].
    destruct (smem u D) eqn:E.
    - destruct IH as (u' & ns' & i & n & i'); [exact H|].
      exists u', ns'. simpl. auto.
    - destruct (Nat.eq_dec (count ns v) 0) as [z|nz].
      + destruct IH as (u' & ns' & i & n & i'); [lia|].
        exists u', ns'. simpl. auto.
      + exists u, ns. split; [left; reflexivity|]. split.
        * apply smem_false, E.
        * apply (count_occ_In node_eq_dec). lia. }
  destruct X as (u & ns & i & n & i').
  exists u. split; [exact n|]. apply edge_iff. exists ns.
  split; [apply In_get; assumption | exact i'].
Qed.
End KahnFacts.

Section Release.
Context {NT : Type} {PN : PyNode NT}.
Local Abbreviation graph_t := (Dict.dict NT (list NT)).
Local Abbreviation count := (count_occ node_eq_dec).
Local Abbreviation smem := (set_mem node_eq_dec).

Lemma degree_set (ind : Dict.dict NT Z) k d v :
  degree (Dict.set node_eq_dec ind k d) v
  = if node_eq_dec k v then d else degree ind v.
Proof.
  unfold degree. destruct (node_eq_dec k v) as [->|n].
  - rewrite get_set_eq. reflexivity.
  - rewrite get_set_neq by assumption. reflexivity.
Qed.

Lemma release_spec (nbs : list NT) :
  forall (ind : Dict.dict NT Z) (R : list NT),
    (forall v, (Z.of_nat (count nbs v) <= degree ind v)%Z) ->
    exists new,
      snd (release nbs ind R) = R ++ new
      /\ (forall v, degree (fst (release nbs ind R)) v
                    = (degree ind v - Z.of_nat (count nbs v))%Z)
      /\ NoDup new
      /\ (forall v, In v new <->
                    In v nbs /\ degree ind v = Z.of_nat (count nbs v)).
Proof.
  induction nbs as [|nb rest IH]; intros ind R Hle.
  - exists []. simpl. rewrite app_nil_r.
    split; [reflexivity|]. split; [intros v; lia|].
    split; [constructor|]. intros v. simpl. tauto.
  - cbn [release].
    set (d := (degree ind nb - 1)%Z).
    set (ind1 := Dict.set node_eq_dec ind nb d).
    assert (Hle1 : forall v, (Z.of_nat (count rest v) <= degree ind1 v)%Z).
    { intros v. unfold ind1. rewrite degree_set.
      specialize (Hle v). simpl in Hle.
      destruct (node_eq_dec nb v) as [->|n]; unfold d; lia. }
    assert (Hd : forall v, degree ind1 v
                 = (degree ind v - (if node_eq_dec nb v then 1 else 0))%Z).
    { intros v. unfold ind1. rewrite degree_set.
      destruct (node_eq_dec nb v) as [->|n]; unfold d; lia. }
    destruct (Z.eqb_spec d 0) as [z|nz].
    + destruct (IH ind1 (R ++ [nb]) Hle1) as (new & E & Hdeg & nd & Hin).
      exists (nb :: new). rewrite E, <- app_assoc. simpl.
      split; [reflexivity|]. split; [|split].
      * intros v. rewrite Hdeg, Hd.
        destruct (node_eq_dec nb v); lia.
      * constructor; [|exact nd].
        rewrite Hin. intros [i e].
        rewrite Hd in e. destruct (node_eq_dec nb nb); [|contradiction].
        apply (count_occ_In node_eq_dec) in i. unfold d in z. lia.
      * intros v. simpl. rewrite Hin, Hd.
        specialize (Hle1 v). rewrite Hd in Hle1.
        destruct (node_eq_dec nb v) as [->|n].
        -- unfold d in z. split; [intros _|auto].
           split; [auto | lia].
        -- split.
           ++ intros [e|[i e]]; [congruence|]. split; [auto | lia].
           ++ intros [[e|i] e']; [congruence|]. right. split; [auto | lia].
    + destruct (IH ind1 R Hle1) as (new & E & Hdeg & nd & Hin).
      exists new. rewrite E.
      split; [reflexivity|]. split; [|split; [exact nd|]].
      * intros v. rewrite Hdeg, Hd. simpl.
        destruct (node_eq_dec nb v); lia.
      * intros v. simpl. rewrite Hin, Hd.
        destruct (node_eq_dec nb v) as [->|n].
        -- split.
           ++ intros [i e]. split; [auto | lia].
           ++ intros [_ e]. split; [|lia].
              apply (count_occ_In node_eq_dec). unfold d in nz. lia.
        -- split.
           ++ intros [i e]. split; [auto | lia].
           ++ intros [[e|i] e']; [congruence|]. split; [auto | lia].
Qed.

Lemma kahn_preds_done (G : graph_t) D P ind u v :
  kahn_inv G D P ind -> In v (D ++ P) -> edge G u v -> In u D.
Proof.
  intros K i e. apply (pending_zero_preds G D u v); [|exact e].
  apply (ki_ready K); [apply (ki_keys K), i | exact i].
Qed.

Lemma kahn_init (G : graph_t) ind :
  wf_graph G ind -> kahn_inv G [] (initial_queue G ind) ind.
Proof.
  intros W. unfold initial_queue. constructor; simpl.
  - apply NoDup_filter, (wf_nodup W).
  - intros v H. apply filter_In in H. tauto.
  - apply (wf_indegree W).
  - intros v k. rewrite filter_In, (wf_indegree W).
    split.
    + intros [_ H]. apply Z.eqb_eq in H. lia.
    + intros H. split; [exact k|]. apply Z.eqb_eq. lia.
Qed.

End Release.

Section KahnStep.
Context {NT : Type} {PN : PyNode NT}.
Local Abbreviation graph_t := (Dict.dict NT (list NT)).
Local Abbreviation count := (count_occ node_eq_dec).
Local Abbreviation smem := (set_mem node_eq_dec).

Lemma kahn_step (G : graph_t) D x P ind nbs R :
  NoDup (Dict.keys G) ->
  (forall u v, edge G u v -> In v (Dict.keys G)) ->
  kahn_inv G D (x :: P) ind ->
  Dict.get node_eq_dec G x = Some nbs ->
  exists new,
    snd (release nbs ind R) = R ++ new
    /\ kahn_inv G (D ++ [x]) (P ++ new) (fst (release nbs ind R)).
Proof.
  intros nd closed K E.
  assert (xD : ~ In x D).
  { pose proof (ki_nodup K) as H. apply NoDup_remove_2 in H.
    intros i. apply H, in_or_app. left. exact i. }
  assert (Hp : forall v, pending_in G D v
                         = pending_in G (D ++ [x]) v + count nbs v).
  { intros v. apply pending_in_step; assumption. }
  assert (Hle : forall v, (Z.of_nat (count nbs v) <= degree ind v)%Z).
  { intros v. rewrite (ki_degree K), Hp. lia. }
  destruct (release_spec nbs ind R Hle) as (new & ER & Hdeg & ndn & Hin).
  exists new. split; [exact ER|].
  assert (L : (D ++ [x]) ++ P ++ new = (D ++ x :: P) ++ new).
  { rewrite <- !app_assoc. reflexivity. }
  assert (Hnew : forall v, In v new ->
                   In v nbs /\ pending_in G D v = count nbs v).
  { intros v i. apply Hin in i. destruct i as [i e].
    rewrite (ki_degree K) in e. split; [exact i | lia]. }
  constructor.
  - rewrite L. apply NoDup_app; [apply (ki_nodup K) | exact ndn |].
    intros v i i'. apply Hnew in i'. destruct i' as [i' e].
    assert (k : In v (Dict.keys G)) by (apply (ki_keys K), i).
    apply (ki_ready K v k) in i.
    apply (count_occ_In node_eq_dec) in i'. lia.
  - intros v. rewrite L, in_app_iff. intros [i|i].
    + apply (ki_keys K), i.
    + apply Hnew in i. apply (closed x v).
      apply edge_iff. exists nbs. tauto.
  - intros v. rewrite Hdeg, (ki_degree K), Hp. lia.
  - intros v k. rewrite L, in_app_iff. split.
    + intros [i|i].
      * apply (ki_ready K v k) in i. specialize (Hp v). lia.
      * apply Hnew in i. specialize (Hp v). lia.
    + intros z. specialize (Hp v).
      destruct (Nat.eq_dec (count nbs v) 0) as [c|c].
      * left. apply (ki_ready K v k). lia.
      * right. apply Hin. split.
        -- apply (count_occ_In node_eq_dec). lia.
        -- rewrite (ki_degree K). lia.
Qed.
End KahnStep.

Section KahnComplete.
Context {NT : Type} {PN : PyNode NT}.
Local Abbreviation graph_t := (Dict.dict NT (list NT)).

Lemma kahn_done_bound (G : graph_t) D P ind :
  NoDup (Dict.keys G) -> kahn_inv G D P ind ->
  List.length (D ++ P) <= List.length G.
Proof.
  intros nd K. replace (List.length G) with (List.length (Dict.keys G))
    by apply length_map.
  apply NoDup_incl_length; [apply (ki_nodup K)|].
  intros v. apply (ki_keys K).
Qed.

Lemma kahn_complete (G : graph_t) D ind :
  NoDup (Dict.keys G) -> acyclic G -> kahn_inv G D [] ind ->
  Permutation D (Dict.keys G).
Proof.
  intros nd ac K.
  pose proof (ki_nodup K) as ndD. rewrite app_nil_r in ndD.
  apply NoDup_Permutation; [exact ndD | exact nd|].
  intros v. split.
  - intros i. apply (ki_keys K). rewrite app_nil_r. exact i.
  - intros k. destruct (in_dec node_eq_dec v D) as [i|n]; [exact i|].
    exfalso.
    destruct (@predecessors_cycle NT node_eq_dec (edge G)
                (fun v => In v (Dict.keys G) /\ ~ In v D) (Dict.keys G))
      with (v := v) as (w & cyc).
    + tauto.
    + intros x [kx nx].
      destruct (@pending_pos_pred NT PN G D x nd) as (u & nu & e).
      * intros z. apply nx. apply (ki_ready K x kx) in z.
        rewrite app_nil_r in z. exact z.
      * exists u. split; [split; [eapply edge_source_key, e | exact nu]|].
        exact e.
    + tauto.
    + apply (ac w cyc).
Qed.

Lemma _check_cycle_complete fuel (G : graph_t) visited :
  Permutation visited (Dict.keys G) -> _check_cycle fuel G visited = Ok tt.
Proof.
  intros P. unfold _check_cycle.
  apply Permutation_length in P. unfold Dict.keys in P.
  rewrite length_map in P. rewrite P, Nat.ltb_irrefl. reflexivity.
Qed.
End KahnComplete.

(** ** The breadth-first producers *)

Section Sorted.
Context {NT : Type} {PN : PyNode NT}.

Lemma insert_sorted_perm (x : NT) (l : list NT) :
  Permutation (insert_sorted x l) (x :: l).
Proof.
  induction l as [|y l IH]; simpl; [reflexivity|].
  destruct (node_ltb x y); [reflexivity|].
  rewrite IH. apply perm_swap.
Qed.

Lemma sorted_perm (l : list NT) : Permutation (sorted l) l.
Proof.
  unfold sorted.
  assert (H : forall acc, Permutation
                (fold_left (fun acc x => insert_sorted x acc) l acc)
                (acc ++ l)).
  { induction l as [|x l IH]; intros acc; simpl.
    - rewrite app_nil_r. reflexivity.
    - rewrite IH, insert_sorted_perm.
      change (x :: acc) with ([x] ++ acc).
      rewrite (Permutation_app_comm [x] acc), <- app_assoc. reflexivity. }
  apply (H []).
Qed.
End Sorted.

Section BreadthFirst.
Context {NT : Type} {PN : PyNode NT}.
Local Abbreviation graph_t := (Dict.dict NT (list NT)).
Local Abbreviation sadd := (set_add node_eq_dec).

Variable G : graph_t.
Hypothesis G_nodup : NoDup (Dict.keys G).
Hypothesis G_closed : forall u v, edge G u v -> In v (Dict.keys G).
Hypothesis G_acyclic : acyclic G.

(** *** The node generator *)

Lemma node_inv_visited (s : node_gen) :
  node_inv G s ->
  NoDup (ng_visited s) /\ forall v, In v (ng_visited s) -> In v (Dict.keys G).
Proof.
  unfold node_inv. destruct (ng_yielded s) as [x|].
  - intros (D & -> & K). split.
    + pose proof (ki_nodup K) as H.
      change (x :: ng_queue s) with ([x] ++ ng_queue s) in H.
      rewrite app_assoc in H. apply NoDup_app_remove_r in H. exact H.
    + intros v i. apply (ki_keys K). apply in_app_or in i.
      apply in_or_app. simpl in *. tauto.
  - intros [-> _]. split; [constructor | intros v []].
Qed.

Lemma node_next_spec (fuel : nat) (s : node_gen) :
  node_inv G s ->
  (exists y s',
      _node_generator_next fuel G s = Yield y s'
      /\ node_inv G s'
      /\ ng_visited s' = ng_visited s ++ [y]
      /\ forall u, edge G u y -> In u (ng_visited s))
  \/ (_node_generator_next fuel G s = Stop
      /\ Permutation (ng_visited s) (Dict.keys G)).
Proof.
  intros I.
  assert (X : exists ind' q',
             match ng_yielded s with
             | None => Ok (ng_indegree s, ng_queue s)
             | Some node =>
                 match Dict.get node_eq_dec G node with
                 | None => Raise (KeyError node)
                 | Some neighbours =>
                     Ok (release neighbours (ng_indegree s) (ng_queue s))
                 end
             end = @Ok NT _ (ind', q')
             /\ kahn_inv G (ng_visited s) q' ind').
  { unfold node_inv in I. destruct (ng_yielded s) as [x|].
    - destruct I as (D & EV & K).
      assert (kx : In x (Dict.keys G)).
      { apply (ki_keys K). apply in_or_app. right. left. reflexivity. }
      apply (key_get node_eq_dec) in kx. destruct kx as (nbs & E).
      rewrite E.
      destruct (kahn_step (ng_queue s) G_nodup G_closed K E)
        as (new & ER & K').
      exists (fst (release nbs (ng_indegree s) (ng_queue s))),
             (ng_queue s ++ new).
      split; [rewrite <- ER; destruct (release _ _ _); reflexivity|].
      rewrite EV. exact K'.
    - destruct I as [EV K]. exists (ng_indegree s), (ng_queue s).
      rewrite EV. auto. }
  destruct X as (ind' & q' & E & K).
  unfold _node_generator_next. rewrite E.
  destruct q' as [|y q'].
  - right. pose proof (kahn_complete G_nodup G_acyclic K) as P.
    rewrite (_check_cycle_complete fuel G P). auto.
  - left. eexists _, _. split; [reflexivity|].
    assert (ny : ~ In y (ng_visited s)).
    { pose proof (ki_nodup K) as H. apply NoDup_remove_2 in H.
      intros i. apply H, in_or_app. left. exact i. }
    rewrite (sadd_new _ _ ny). cbn [ng_visited].
    split; [|split; [reflexivity|]].
    + unfold node_inv. cbn. exists (ng_visited s). auto.
    + intros u e. eapply kahn_preds_done; [exact K | | exact e].
      apply in_or_app. right. left. reflexivity.
Qed.

Lemma drain_nodes (fuel' : nat) (graph : graph_t)
    (return_type : string) (sort_groups : bool) (graph_type : string) :
  forall (fuel : nat) (s : node_gen),
    node_inv G s -> respects (edge G) (ng_visited s) ->
    List.length G - List.length (ng_visited s) < fuel ->
    exists L,
      drain fuel
        (topological_sort_generator_next fuel' graph return_type sort_groups
           graph_type) (TsgNodes G s) = Ok (map Node L)
      /\ Permutation (ng_visited s ++ L) (Dict.keys G)
      /\ respects (edge G) (ng_visited s ++ L).
Proof.
  induction fuel as [|fuel IH]; intros s I R Hf; [lia|].
  cbn [drain topological_sort_generator_next].
  destruct (node_next_spec fuel' s I) as [(y & s' & E & I' & EV & Hy)|[E P]];
    rewrite E.
  - destruct (IH s' I') as (L & ED & P & R').
    + rewrite EV. apply respects_snoc; assumption.
    + destruct (node_inv_visited s' I') as [nd sub].
      assert (List.length (ng_visited s') <= List.length G).
      { replace (List.length G) with (List.length (Dict.keys G))
          by apply length_map.
        apply NoDup_incl_length; assumption. }
      rewrite EV, length_app in *. simpl in *. lia.
    + exists (y :: L). rewrite ED. cbn [bind map].
      split; [reflexivity|].
      rewrite EV, <- app_assoc in P, R'. auto.
  - exists []. rewrite app_nil_r. auto.
Qed.
End BreadthFirst.

Section BreadthFirstGroups.
Context {NT : Type} {PN : PyNode NT}.
Local Abbreviation graph_t := (Dict.dict NT (list NT)).
Local Abbreviation sadd := (set_add node_eq_dec).

Variable G : graph_t.
Hypothesis G_nodup : NoDup (Dict.keys G).
Hypothesis G_closed : forall u v, edge G u v -> In v (Dict.keys G).
Hypothesis G_acyclic : acyclic G.

Lemma batch_spec (sort_groups : bool) (queue : list NT) :
  forall ind visited batch N,
    queue <> [] ->
    kahn_inv G visited (queue ++ N) ind ->
    exists s',
      _group_generator_batch G sort_groups queue ind visited batch N
      = Yield (if sort_groups then sorted (batch ++ queue)
               else batch ++ queue) s'
      /\ gg_visited s' = visited ++ queue
      /\ group_inv G s'.
Proof.
  induction queue as [|x q IH]; intros ind visited batch N ne K;
    [contradiction|].
  cbn [_group_generator_batch].
  assert (kx : In x (Dict.keys G)).
  { apply (ki_keys K). apply in_or_app. right. left. reflexivity. }
  apply (key_get node_eq_dec) in kx. destruct kx as (nbs & E). rewrite E.
  assert (nx : ~ In x visited).
  { pose proof (ki_nodup K) as H. apply NoDup_remove_2 in H.
    intros i. apply H, in_or_app. left. exact i. }
  rewrite (sadd_new _ _ nx).
  destruct (kahn_step N G_nodup G_closed K E) as (new & ER & K').
  destruct (release nbs ind N) as [ind' N'] eqn:ERel.
  cbn [fst snd] in ER, K'. subst N'.
  destruct q as [|y q].
  - eexists. split; [reflexivity|]. cbn [gg_visited].
    split; [reflexivity|]. exact K'.
  - destruct (IH ind' (visited ++ [x]) (batch ++ [x]) (N ++ new))
      as (s' & EB & EV & I'); [discriminate | |].
    + rewrite app_assoc. exact K'.
    + exists s'. rewrite EB, EV, <- !app_assoc. auto.
Qed.

Lemma group_next_spec (fuel : nat) (sort_groups : bool) (s : group_gen) :
  group_inv G s ->
  (exists B s',
      _group_generator_next fuel G sort_groups s = Yield B s'
      /\ gg_queue s <> []
      /\ Permutation B (gg_queue s)
      /\ gg_visited s' = gg_visited s ++ gg_queue s
      /\ group_inv G s')
  \/ (_group_generator_next fuel G sort_groups s = Stop
      /\ Permutation (gg_visited s) (Dict.keys G)).
Proof.
  unfold group_inv, _group_generator_next. intros K.
  destruct (gg_queue s) as [|x q] eqn:EQ.
  - right. pose proof (kahn_complete G_nodup G_acyclic K) as P.
    rewrite (_check_cycle_complete fuel G P). auto.
  - left.
    destruct (@batch_spec sort_groups (x :: q) (gg_indegree s) (gg_visited s)
                [] []) as (s' & EB & EV & I'); [discriminate | |].
    + rewrite app_nil_r. exact K.
    + eexists _, s'. split; [exact EB|]. split; [discriminate|].
      split; [|auto]. cbn [app].
      destruct sort_groups; [apply sorted_perm | reflexivity].
Qed.

Lemma group_step_facts (s s' : group_gen) (B : list NT) :
  group_inv G s -> gg_queue s <> [] -> Permutation B (gg_queue s) ->
  gg_visited s' = gg_visited s ++ gg_queue s -> group_inv G s' ->
  B <> []
  /\ (forall x, In x B -> forall y, edge G y x -> In y (gg_visited s))
  /\ List.length (gg_visited s') = List.length (gg_visited s) + List.length B
  /\ List.length (gg_visited s') <= List.length G
  /\ (forall x, In x (gg_visited s ++ B) <-> In x (gg_visited s')).
Proof.
  intros K ne P EV K'. split; [|split; [|split; [|split]]].
  - intros ->. apply Permutation_nil in P. contradiction.
  - intros x i y e. eapply kahn_preds_done; [exact K | | exact e].
    apply in_or_app. right. eapply Permutation_in; eauto.
  - rewrite EV, length_app, (Permutation_length P). reflexivity.
  - pose proof (kahn_done_bound G_nodup K') as H.
    rewrite length_app in H. lia.
  - intros x. rewrite EV, !in_app_iff.
    split; (intros [i|i]; [left; exact i|right]).
    + eapply Permutation_in; eauto.
    + eapply Permutation_in; [symmetry|]; eauto.
Qed.

Lemma drain_groups (fuel' : nat) (graph : graph_t)
    (return_type : string) (sort_groups : bool) (graph_type : string) :
  forall (fuel : nat) (s : group_gen),
    group_inv G s ->
    List.length G - List.length (gg_visited s) < fuel ->
    exists Bs,
      drain fuel
        (topological_sort_generator_next fuel' graph return_type sort_groups
           graph_type) (TsgGroups G s) = Ok (map Group Bs)
      /\ Permutation (gg_visited s ++ List.concat Bs) (Dict.keys G)
      /\ layers (edge G) (gg_visited s) Bs.
Proof.
  induction fuel as [|fuel IH]; intros s I Hf; [lia|].
  cbn [drain topological_sort_generator_next].
  destruct (group_next_spec fuel' sort_groups I)
    as [(B & s' & E & ne & P & EV & I')|[E P]]; rewrite E.
  - destruct (group_step_facts I ne P EV I')
      as (neB & pre & len & bound & same).
    destruct (IH s' I') as (Bs & ED & P' & Ls).
    + destruct B; [contradiction|]. simpl in len. lia.
    + exists (B :: Bs). rewrite ED. cbn [bind map].
      split; [reflexivity|]. split.
      * cbn [List.concat]. rewrite app_assoc, <- P'.
        apply Permutation_app_tail. rewrite EV.
        apply Permutation_app_head. exact P.
      * cbn [layers]. split; [exact pre|].
        eapply layers_ext; [|exact Ls]. intros x. apply same.
  - exists []. cbn [List.concat map layers]. rewrite app_nil_r. auto.
Qed.

Lemma drain_flatten (fuel' : nat) (graph : graph_t)
    (return_type : string) (sort_groups : bool) (graph_type : string) :
  0 < fuel' ->
  forall (fuel : nat) (s : group_gen) (buf : list NT),
    group_inv G s ->
    List.length buf + (List.length G - List.length (gg_visited s)) < fuel ->
    exists Bs,
      drain fuel
        (topological_sort_generator_next fuel' graph return_type sort_groups
           graph_type) (TsgFlatten G buf s)
      = Ok (map Node (buf ++ List.concat Bs))
      /\ Permutation (gg_visited s ++ List.concat Bs) (Dict.keys G)
      /\ layers (edge G) (gg_visited s) Bs.
Proof.
  intros pos.
  induction fuel as [|fuel IH]; intros s buf I Hf; [lia|].
  destruct buf as [|x buf].
  - cbn [drain topological_sort_generator_next].
    destruct fuel' as [|k]; [lia|]. cbn [flatten_next].
    destruct (group_next_spec (S k) sort_groups I)
      as [(B & s' & E & ne & P & EV & I')|[E P]]; rewrite E.
    + destruct (group_step_facts I ne P EV I')
        as (neB & pre & len & bound & same).
      destruct B as [|b B]; [contradiction|].
      destruct (IH s' B I') as (Bs & ED & P' & Ls).
      * simpl in len. simpl in Hf. lia.
      * exists ((b :: B) :: Bs). rewrite ED. cbn [bind map].
        split; [reflexivity|].
        split.
        -- cbn [List.concat]. rewrite app_assoc, <- P'.
           apply Permutation_app_tail. rewrite EV.
           apply Permutation_app_head. exact P.
        -- cbn [layers]. split; [exact pre|].
           eapply layers_ext; [|exact Ls]. intros y. apply same.
    + exists []. split; [reflexivity|].
      split; [cbn [List.concat]; rewrite app_nil_r; exact P | exact Logic.I].
  - cbn [drain topological_sort_generator_next].
    destruct (IH s buf I) as (Bs & ED & P' & Ls); [simpl in Hf; lia|].
    exists Bs. rewrite ED. cbn [bind map app]. auto.
Qed.
End BreadthFirstGroups.

(** ** The depth-first producer *)

Section DepthFirst.
Context {NT : Type} {PN : PyNode NT}.
Local Abbreviation graph_t := (Dict.dict NT (list NT)).
Local Abbreviation sadd := (set_add node_eq_dec).
Local Abbreviation smem := (set_mem node_eq_dec).

Variable graph : graph_t.
Variable G : graph_t.
Hypothesis G_nodup : NoDup (Dict.keys G).
Hypothesis G_closed : forall u v, edge G u v -> In v (Dict.keys G).
Hypothesis G_acyclic : acyclic G.

Lemma sremove_snoc (x : NT) (l : list NT) :
  ~ In x l -> set_remove node_eq_dec x (l ++ [x]) = l.
Proof.
  induction l as [|a l IH]; simpl; intros H.
  - destruct (node_eq_dec x x); [reflexivity | contradiction].
  - destruct (node_eq_dec x a) as [->|n]; [tauto|].
    f_equal. apply IH. tauto.
Qed.

Lemma dfs_loop_spec (fuel : nat) (node : NT) (cv : list NT)
    (dfs : NT -> dfs_state -> result NT dfs_state) :
  (forall nb st, dfs_pre G fuel nb st ->
                 exists st', dfs nb st = Ok st' /\ dfs_post G nb st st') ->
  NoDup (cv ++ [node]) ->
  (forall c, In c (cv ++ [node]) -> In c (Dict.keys G)) ->
  (forall c, In c cv -> clos_trans NT (edge G) c node) ->
  List.length G - List.length (cv ++ [node]) < fuel ->
  forall nbs st,
    (forall w, In w nbs -> edge G node w) ->
    dfs_inv G st -> currently_visiting st = cv ++ [node] ->
    ~ In node (visited st) ->
    exists st',
      _dfs_topological_sort_dfs_loop dfs nbs st = Ok st'
      /\ dfs_inv G st'
      /\ currently_visiting st' = cv ++ [node]
      /\ ~ In node (visited st')
      /\ (forall w, In w nbs -> In w (visited st'))
      /\ (forall v, In v (visited st) -> In v (visited st'))
      /\ (forall v, In v (visited st') ->
            In v (visited st) \/ clos_trans NT (edge G) node v).
Proof.
  intros Hdfs ndcv kcv path Hf.
  induction nbs as [|nb rest IH]; intros st Hnbs I Ecv nv.
  - exists st. simpl. splits; auto; intros w [].
  - cbn [_dfs_topological_sort_dfs_loop].
    assert (e : edge G node nb) by (apply Hnbs; left; reflexivity).
    destruct (smem nb (visited st)) eqn:M.
    + apply smem_true in M.
      destruct (IH st) as (st' & E & I' & Ecv' & nv' & all & mono & new);
        auto.
      { intros w i. apply Hnbs. right. exact i. }
      exists st'. splits; auto.
      intros w [<-|i]; auto.
    + apply smem_false in M.
      destruct (Hdfs nb st) as (st1 & E1 & I1 & Ecv1 & v1 & mono1 & new1).
      { unfold dfs_pre. rewrite Ecv. splits; auto.
        - eapply G_closed, e.
        - intros c i. apply in_app_or in i. destruct i as [i|[<-|[]]].
          + eapply t_trans; [apply path, i | apply t_step, e].
          + apply t_step, e. }
      rewrite E1. cbn [bind].
      assert (nv1 : ~ In node (visited st1)).
      { intros i. apply new1 in i. destruct i as [i|[He|c]].
        - contradiction.
        - apply (@G_acyclic node). apply t_step. rewrite He at 2. exact e.
        - apply (@G_acyclic node).
          eapply t_trans; [apply t_step, e | exact c]. }
      destruct (IH st1) as (st' & E & I' & Ecv' & nv' & all & mono & new);
        auto.
      { intros w i. apply Hnbs. right. exact i. }
      { rewrite Ecv1. exact Ecv. }
      exists st'. splits; auto.
      * intros w [<-|i]; auto.
      * intros v i. apply new in i. destruct i as [i|c]; [|auto].
        apply new1 in i. destruct i as [i|[He|c]]; auto.
        -- right. rewrite He. apply t_step, e.
        -- right. eapply t_trans; [apply t_step, e | exact c].
Qed.

Lemma dfs_spec :
  forall fuel node st,
    dfs_pre G fuel node st ->
    exists st',
      _dfs_topological_sort_dfs fuel graph G node st = Ok st'
      /\ dfs_post G node st st'.
Proof.
  induction fuel as [|fuel IH]; intros node st
    (I & k & nv & ndcv & kcv & path & Hf); [lia|].
  cbn [_dfs_topological_sort_dfs].
  assert (ncv : ~ In node (currently_visiting st)).
  { intros i. apply (@G_acyclic node). apply path, i. }
  rewrite (proj2 (smem_false _ _) ncv).
  destruct (key_get node_eq_dec _ _ k) as (nbs & E). rewrite E.
  rewrite (sadd_new _ _ ncv).
  assert (len : List.length (currently_visiting st ++ [node])
                <= List.length G).
  { replace (List.length G) with (List.length (Dict.keys G))
      by apply length_map.
    apply NoDup_incl_length.
    - apply NoDup_app; auto.
      + constructor; [intros []|constructor].
      + intros x i [<-|[]]. contradiction.
    - intros x i. apply in_app_or in i. destruct i as [i|[<-|[]]]; auto. }
  rewrite length_app in len. simpl in len.
  destruct (@dfs_loop_spec fuel node (currently_visiting st)
              (_dfs_topological_sort_dfs fuel graph G) IH)
    with (nbs := nbs)
         (st := {| sorted_list := sorted_list st; visited := visited st;
                   currently_visiting := currently_visiting st ++ [node] |})
    as (st2 & E2 & I2 & Ecv2 & nv2 & all & mono & new).
  - apply NoDup_app; auto.
    + constructor; [intros []|constructor].
    + intros x i [<-|[]]. contradiction.
  - intros x i. apply in_app_or in i. destruct i as [i|[<-|[]]]; auto.
  - exact path.
  - rewrite length_app. simpl. lia.
  - intros w i. apply edge_iff. eauto.
  - exact I.
  - reflexivity.
  - exact nv.
  - rewrite E2. cbn [bind]. rewrite Ecv2.
    rewrite (proj2 (smem_true node (currently_visiting st ++ [node])))
      by (apply in_or_app; right; left; reflexivity).
    eexists. split; [reflexivity|].
    destruct I2 as (EV & nd & ks & R).
    unfold dfs_post, dfs_inv. cbn [sorted_list visited currently_visiting].
    rewrite sadd_new by exact nv2. rewrite sremove_snoc by exact ncv.
    rewrite EV.
    rewrite EV in nv2, all, mono, new. cbn [visited] in mono, new.
    splits.
    + reflexivity.
    + apply NoDup_app; auto.
      * constructor; [intros []|constructor].
      * intros x i [<-|[]]. contradiction.
    + intros v i. apply in_app_or in i. destruct i as [i|[<-|[]]]; auto.
    + apply respects_snoc; [exact R|].
      intros w e. apply all. apply edge_iff in e.
      destruct e as (ns & E' & i). rewrite E in E'. injection E' as <-.
      exact i.
    + reflexivity.
    + apply in_or_app. right. left. reflexivity.
    + intros v i. apply in_or_app. left. apply mono. exact i.
    + intros v i. apply in_app_or in i. destruct i as [i|[<-|[]]]; auto.
      apply new in i. tauto.
Qed.

Lemma dfs_top_loop_spec (fuel : nat) :
  List.length G < fuel ->
  forall nodes st,
    (forall n, In n nodes -> In n (Dict.keys G)) ->
    dfs_inv G st -> currently_visiting st = [] ->
    exists st',
      _dfs_topological_sort_loop fuel graph G nodes st = Ok st'
      /\ dfs_inv G st'
      /\ currently_visiting st' = []
      /\ (forall n, In n nodes -> In n (visited st'))
      /\ (forall v, In v (visited st) -> In v (visited st')).
Proof.
  intros Hf. induction nodes as [|n rest IH]; intros st ks I Ecv.
  - exists st. simpl. splits; auto; intros n [].
  - cbn [_dfs_topological_sort_loop].
    destruct (smem n (visited st)) eqn:M.
    + apply smem_true in M.
      destruct (IH st) as (st' & E & I' & Ecv' & all & mono); auto.
      { intros x i. apply ks. right. exact i. }
      exists st'. splits; auto. intros x [<-|i]; auto.
    + apply smem_false in M.
      destruct (dfs_spec (fuel := fuel) (node := n) (st := st))
        as (st1 & E1 & I1 & Ecv1 & v1 & mono1 & _).
      { unfold dfs_pre. rewrite Ecv. simpl. splits; auto.
        - apply ks. left. reflexivity.
        - constructor.
        - intros c [].
        - intros c [].
        - lia. }
      rewrite E1. cbn [bind].
      destruct (IH st1) as (st' & E & I' & Ecv' & all & mono); auto.
      { intros x i. apply ks. right. exact i. }
      { rewrite Ecv1. exact Ecv. }
      exists st'. splits; auto. intros x [<-|i]; auto.
Qed.

Lemma _dfs_topological_sort_loop_spec (fuel : nat) :
  List.length G < fuel ->
  exists st,
    _dfs_topological_sort_loop fuel graph G (Dict.keys G)
      {| sorted_list := []; visited := []; currently_visiting := [] |}
    = Ok st
    /\ Permutation (rev (sorted_list st)) (Dict.keys G)
    /\ respects (fun w u => edge G u w) (sorted_list st).
Proof.
  intros Hf.
  destruct (@dfs_top_loop_spec fuel Hf (Dict.keys G)
              {| sorted_list := []; visited := [];
                 currently_visiting := [] |})
    as (st & E & (EV & nd & ks & R) & _ & all & _).
  - auto.
  - unfold dfs_inv. simpl. splits; try constructor.
    + intros v [].
    + apply respects_nil.
  - reflexivity.
  - exists st. split; [exact E|]. split; [|exact R].
    rewrite <- Permutation_rev.
    apply NoDup_Permutation; auto.
    intros v. split; [apply ks|]. rewrite <- EV. apply all.
Qed.
End DepthFirst.

(** ** The normalisers *)

Section NormaliseFacts.
Context {NT : Type} {PN : PyNode NT}.
Local Abbreviation graph_t := (Dict.dict NT (list NT)).
Local Abbreviation gget := (Dict.get node_eq_dec).
Local Abbreviation gset := (Dict.set node_eq_dec).
Local Abbreviation count := (count_occ node_eq_dec).

Lemma pending_in_app (G1 G2 : graph_t) D v :
  pending_in (G1 ++ G2) D v = pending_in G1 D v + pending_in G2 D v.
Proof.
  unfold pending_in. rewrite map_app, list_sum_app. reflexivity.
Qed.

Lemma pending_in_nil (G : graph_t) v :
  pending_in G [] v = list_sum (map (fun item => count (snd item) v) G).
Proof. reflexivity. Qed.

Lemma pending_in_set_append (G : graph_t) k l x v :
  gget G k = Some l ->
  pending_in (gset G k (l ++ [x])) [] v
  = pending_in G [] v + (if node_eq_dec x v then 1 else 0).
Proof.
  rewrite !pending_in_nil.
  induction G as [|[k' l'] G IH]; simpl; [discriminate|].
  destruct (node_eq_dec k k') as [->|n]; intros E.
  - injection E as ->. simpl. rewrite count_occ_app. simpl.
    destruct (node_eq_dec x v); lia.
  - simpl. rewrite (IH E). lia.
Qed.

Lemma degree_incr (ind : Dict.dict NT Z) k v :
  degree (incr ind k) v
  = (degree ind v + (if node_eq_dec k v then 1 else 0))%Z.
Proof.
  unfold incr. rewrite degree_set. unfold degree.
  destruct (node_eq_dec k v) as [->|n]; lia.
Qed.

Lemma remove_self_In k ns v : In v (remove_self k ns) <-> In v ns /\ v <> k.
Proof.
  unfold remove_self. rewrite filter_In.
  destruct (node_eq_dec v k); intuition congruence.
Qed.

Lemma remove_self_snoc k ns x :
  remove_self k (ns ++ [x])
  = remove_self k ns ++ (if node_eq_dec x k then [] else [x]).
Proof.
  unfold remove_self. rewrite filter_app. simpl.
  destruct (node_eq_dec x k); reflexivity.
Qed.
End NormaliseFacts.

Section PrepareGraph.
Context {NT : Type} {PN : PyNode NT}.
Local Abbreviation graph_t := (Dict.dict NT (list NT)).
Local Abbreviation gget := (Dict.get node_eq_dec).
Local Abbreviation gset := (Dict.set node_eq_dec).
Local Abbreviation gmem := (Dict.mem node_eq_dec).

Lemma get_snoc (done0 : graph_t) node (x : list NT) k :
  ~ In node (Dict.keys done0) ->
  gget (done0 ++ [(node, x)]) k
  = if node_eq_dec k node then Some x else gget done0 k.
Proof.
  intros n. rewrite get_app. simpl.
  destruct (node_eq_dec k node) as [->|ne].
  - apply (get_None_iff node_eq_dec) in n. rewrite n. reflexivity.
  - destruct (gget done0 k); reflexivity.
Qed.

Lemma snoc_nodup (done0 : graph_t) node (x : list NT) :
  NoDup (Dict.keys (done0 ++ [(node, x)])) -> ~ In node (Dict.keys done0).
Proof.
  rewrite keys_app. simpl. intros nd i.
  apply NoDup_remove_2 in nd. apply nd. rewrite app_nil_r. exact i.
Qed.

Lemma in_snoc (done0 : graph_t) node (x : list NT) u ns :
  In (u, ns) (done0 ++ [(node, x)])
  <-> In (u, ns) done0 \/ (u = node /\ ns = x).
Proof.
  rewrite in_app_iff. simpl. split.
  - intros [i|[e|[]]]; [left; exact i | right]. inversion e. auto.
  - intros [i|[-> ->]]; [left; exact i | right; left; reflexivity].
Qed.

Lemma named_snoc (done0 : graph_t) node (nd : list NT) nb k :
  (exists u ns, In (u, ns) (done0 ++ [(node, nd ++ [nb])]) /\ In k ns)
  <-> (exists u ns, In (u, ns) (done0 ++ [(node, nd)]) /\ In k ns)
      \/ k = nb.
Proof.
  split.
  - intros (u & ns & i & i'). apply in_snoc in i.
    destruct i as [i|[-> ->]].
    + left. exists u, ns. split; [apply in_snoc; auto | exact i'].
    + apply in_app_or in i'. destruct i' as [i'|[<-|[]]]; [|auto].
      left. exists node, nd. split; [apply in_snoc; auto | exact i'].
  - intros [(u & ns & i & i')| ->].
    + apply in_snoc in i. destruct i as [i|[-> ->]].
      * exists u, ns. split; [apply in_snoc; auto | exact i'].
      * exists node, (nd ++ [nb]). split; [apply in_snoc; auto|].
        apply in_or_app. auto.
    + exists node, (nd ++ [nb]). split; [apply in_snoc; auto|].
      apply in_or_app. right. left. reflexivity.
Qed.

Lemma prepared_step (graph done0 : graph_t) node nd nb G ind :
  In node (Dict.keys graph) ->
  (forall k, In k (Dict.keys done0) -> In k (Dict.keys graph)) ->
  NoDup (Dict.keys (done0 ++ [(node, nd)])) ->
  prepared graph (done0 ++ [(node, nd)]) G ind ->
  exists G' ind',
    (if node_eq_dec nb node then Ok (G, ind)
     else
       let new_graph := if gmem graph nb then G else gset G nb [] in
       let* new_graph := append_to new_graph node nb in
       Ok (new_graph, incr ind nb)) = @Ok NT _ (G', ind')
    /\ prepared graph (done0 ++ [(node, nd ++ [nb])]) G' ind'.
Proof.
  intros kn sub ndd P.
  pose proof (snoc_nodup _ _ _ ndd) as n0.
  assert (Ekeys : forall x, Dict.keys (done0 ++ [(node, x)])
                            = Dict.keys done0 ++ [node]).
  { intros x. rewrite keys_app. reflexivity. }
  assert (kG : In node (Dict.keys G)).
  { apply (pr_keys P). left. rewrite Ekeys. apply in_or_app.
    right. left. reflexivity. }
  destruct (node_eq_dec nb node) as [->|ne].
  - exists G, ind. split; [reflexivity|]. constructor.
    + apply (pr_nodup P).
    + intros k. rewrite (pr_keys P), named_snoc, !Ekeys.
      split; [tauto|]. intros [i|[nk [H| ->]]]; tauto.
    + intros k i. rewrite (pr_lists P k i), !get_snoc by assumption.
      destruct (node_eq_dec k node) as [->|nk]; [|reflexivity].
      rewrite remove_self_snoc.
      destruct (node_eq_dec node node); [|contradiction].
      rewrite app_nil_r. reflexivity.
    + apply (pr_degree P).
  - set (G1 := if gmem graph nb then G else gset G nb []).
    assert (HG1 : (G1 = G /\ (In nb (Dict.keys graph) \/ In nb (Dict.keys G)))
                  \/ (G1 = G ++ [(nb, [])] /\ ~ In nb (Dict.keys graph)
                      /\ ~ In nb (Dict.keys G))).
    { unfold G1. destruct (gmem graph nb) eqn:M.
      - left. apply mem_iff in M. auto.
      - assert (nk : ~ In nb (Dict.keys graph)).
        { intros i. apply (mem_iff node_eq_dec) in i. congruence. }
        destruct (in_dec node_eq_dec nb (Dict.keys G)) as [i|n].
        + left. split; [|auto]. apply set_same.
          rewrite (pr_lists P nb i), get_snoc by assumption.
          destruct (node_eq_dec nb node); [contradiction|].
          destruct (gget done0 nb) eqn:E; [|reflexivity].
          exfalso. apply nk, sub. eapply get_Some_key, E.
        + right. split; [apply set_new; exact n | auto]. }
    assert (Hget : forall k, In k (Dict.keys G) -> gget G1 k = gget G k).
    { intros k i. destruct HG1 as [[-> _]|[-> _]]; [reflexivity|].
      rewrite get_app. destruct (key_get node_eq_dec _ _ i) as (l & ->).
      reflexivity. }
    assert (Hkeys1 : forall k, In k (Dict.keys G1) <->
                       In k (Dict.keys G)
                       \/ (k = nb /\ ~ In nb (Dict.keys graph))).
    { intros k. destruct HG1 as [[-> [i|i]]|(-> & nk & nG)].
      - tauto.
      - split; [auto|]. intros [i'|[-> _]]; assumption.
      - rewrite keys_app, in_app_iff. simpl. intuition. }
    assert (Hpend : forall v, pending_in G1 [] v = pending_in G [] v).
    { intros v. destruct HG1 as [[-> _]|[-> _]]; [reflexivity|].
      rewrite pending_in_app. unfold pending_in at 2. simpl. lia. }
    assert (nd1 : NoDup (Dict.keys G1)).
    { unfold G1. destruct (gmem graph nb);
        [|apply NoDup_keys_set]; apply (pr_nodup P). }
    assert (Edone : gget (done0 ++ [(node, nd)]) node = Some nd).
    { rewrite get_snoc by assumption.
      destruct (node_eq_dec node node); [reflexivity | contradiction]. }
    assert (El : gget G1 node = Some (remove_self node nd)).
    { rewrite (Hget node kG), (pr_lists P node kG), Edone. reflexivity. }
    cbv zeta. fold G1. unfold append_to. rewrite El. cbn [bind].
    eexists _, _. split; [reflexivity|].
    assert (k1 : In node (Dict.keys G1)) by (apply Hkeys1; auto).
    constructor.
    + apply NoDup_keys_set, nd1.
    + intros k. rewrite keys_set_iff, Hkeys1, (pr_keys P), named_snoc, !Ekeys.
      split.
      * intros [->|[H|[-> nk]]]; [|tauto|tauto].
        left. apply in_or_app. right. left. reflexivity.
      * intros [i|[nk [H| ->]]]; tauto.
    + intros k i. apply keys_set_iff in i.
      rewrite get_snoc by assumption.
      destruct (node_eq_dec k node) as [->|nk].
      * rewrite get_set_eq, remove_self_snoc.
        destruct (node_eq_dec nb node); [contradiction | reflexivity].
      * rewrite get_set_neq by congruence.
        destruct i as [->|i]; [contradiction|].
        apply Hkeys1 in i. destruct i as [i|[-> nkg]].
        -- rewrite (Hget k i), (pr_lists P k i), get_snoc by assumption.
           destruct (node_eq_dec k node); [contradiction | reflexivity].
        -- destruct (gget done0 nb) eqn:E.
           { exfalso. apply nkg, sub. eapply get_Some_key, E. }
           destruct HG1 as [[EG [i|i]]|(EG & _ & nG)].
           ++ contradiction.
           ++ rewrite EG, (pr_lists P nb i), get_snoc, E by assumption.
              destruct (node_eq_dec nb node); [contradiction | reflexivity].
           ++ rewrite EG, get_app.
              apply (get_None_iff node_eq_dec) in nG. rewrite nG. simpl.
              destruct (node_eq_dec nb nb); [reflexivity | contradiction].
    + intros v. rewrite degree_incr, (pr_degree P).
      rewrite (pending_in_set_append G1 node nb v El), Hpend.
      destruct (node_eq_dec nb v); lia.
Qed.

Lemma _prepare_graph_inner_spec (graph done0 : graph_t) node :
  In node (Dict.keys graph) ->
  (forall k, In k (Dict.keys done0) -> In k (Dict.keys graph)) ->
  forall nbs nd G ind,
    NoDup (Dict.keys (done0 ++ [(node, nd)])) ->
    prepared graph (done0 ++ [(node, nd)]) G ind ->
    exists G' ind',
      _prepare_graph_inner graph node nbs G ind = Ok (G', ind')
      /\ prepared graph (done0 ++ [(node, nd ++ nbs)]) G' ind'.
Proof.
  intros kn sub.
  induction nbs as [|nb rest IH]; intros nd G ind ndd P.
  - exists G, ind. rewrite app_nil_r. auto.
  - destruct (@prepared_step graph done0 node nd nb G ind kn sub ndd P)
      as (G1 & ind1 & E & P1).
    assert (ndd1 : NoDup (Dict.keys (done0 ++ [(node, nd ++ [nb])]))).
    { rewrite keys_app in *. exact ndd. }
    destruct (IH (nd ++ [nb]) G1 ind1 ndd1 P1) as (G' & ind' & E' & P').
    exists G', ind'. rewrite <- app_assoc in P'. split; [|exact P'].
    cbn [_prepare_graph_inner].
    destruct (node_eq_dec nb node).
    + injection E as <- <-. exact E'.
    + cbv zeta in E |- *.
      destruct (append_to (if gmem graph nb then G else gset G nb []) node nb);
        cbn [bind] in E |- *; try discriminate.
      injection E as <- <-. exact E'.
Qed.

Lemma prepared_open (graph done G : graph_t) ind node :
  In node (Dict.keys graph) -> ~ In node (Dict.keys done) ->
  prepared graph done G ind ->
  prepared graph (done ++ [(node, [])]) (gset G node []) ind.
Proof.
  intros kn nd P.
  assert (nG : ~ In node (Dict.keys G)).
  { intros i. apply (pr_keys P) in i. tauto. }
  rewrite (set_new node_eq_dec G node [] nG). constructor.
  - rewrite keys_app. simpl. apply NoDup_app; [apply (pr_nodup P) | |].
    + constructor; [intros []|constructor].
    + intros x i [<-|[]]. contradiction.
  - intros k. rewrite !keys_app, !in_app_iff, (pr_keys P). simpl.
    split.
    + intros [[i|(nk & u & ns & i & i')]|[<-|[]]]; auto.
      right. split; [exact nk|]. exists u, ns.
      split; [apply in_snoc; auto | exact i'].
    + intros [[i|[<-|[]]]|(nk & u & ns & i & i')]; auto.
      apply in_snoc in i. destruct i as [i|[-> ->]]; [|destruct i'].
      left. right. split; [exact nk|]. exists u, ns. auto.
  - intros k i. rewrite !get_snoc by assumption.
    destruct (node_eq_dec k node) as [->|nk]; [reflexivity|].
    rewrite keys_app, in_app_iff in i. simpl in i.
    destruct i as [i|[<-|[]]]; [|contradiction].
    apply (pr_lists P k i).
  - intros v. rewrite pending_in_app, (pr_degree P).
    change (pending_in [(node, [])] [] v) with 0. lia.
Qed.

Lemma _prepare_graph_items_spec (graph : graph_t) :
  NoDup (Dict.keys graph) ->
  forall items done G ind,
    graph = done ++ items ->
    prepared graph done G ind ->
    exists G' ind',
      _prepare_graph_items graph items G ind = Ok (G', ind')
      /\ prepared graph graph G' ind'.
Proof.
  intros ndg.
  induction items as [|[node nbs] rest IH]; intros done G ind E P.
  - rewrite app_nil_r in E. subst done. exists G, ind. auto.
  - cbn [_prepare_graph_items].
    assert (kn : In node (Dict.keys graph)).
    { rewrite E, keys_app. apply in_or_app. right. left. reflexivity. }
    assert (sub : forall k, In k (Dict.keys done) -> In k (Dict.keys graph)).
    { intros k i. rewrite E, keys_app. apply in_or_app. auto. }
    assert (nd : ~ In node (Dict.keys done)).
    { rewrite E, keys_app in ndg. simpl in ndg.
      apply NoDup_remove_2 in ndg. intros i. apply ndg, in_or_app. auto. }
    assert (ndd : NoDup (Dict.keys (done ++ [(node, [])]))).
    { rewrite E, keys_app in ndg. rewrite keys_app. simpl in *.
      apply NoDup_remove_1 in ndg. apply NoDup_app_remove_r in ndg.
      apply NoDup_app; auto.
      - constructor; [intros []|constructor].
      - intros x i [<-|[]]. contradiction. }
    destruct (@_prepare_graph_inner_spec graph done node kn sub nbs [] _ _
                ndd (@prepared_open graph done G ind node kn nd P))
      as (G1 & ind1 & E1 & P1).
    rewrite E1. cbn [bind fst snd]. simpl app in P1.
    apply (IH (done ++ [(node, nbs)])); [|exact P1].
    rewrite <- app_assoc. exact E.
Qed.

Lemma _prepare_graph_spec (graph : graph_t) :
  NoDup (Dict.keys graph) ->
  exists G ind,
    _prepare_graph graph = Ok (G, ind) /\ prepared graph graph G ind.
Proof.
  intros ndg. apply (@_prepare_graph_items_spec graph ndg graph []).
  - reflexivity.
  - constructor.
    + constructor.
    + intros k. simpl. split; [intros []|].
      intros [[]|(_ & u & ns & [] & _)].
    + intros k [].
    + intros v. reflexivity.
Qed.

(** The canonical graph of an edges input: its key set, its lists. *)
Lemma prepared_wf (graph G : graph_t) ind :
  NoDup (Dict.keys graph) -> prepared graph graph G ind ->
  wf_graph G ind
  /\ (forall k, In k (Dict.keys G) <-> input_node graph k)
  /\ (forall u v, edge G u v <->
                  exists ns, In (u, ns) graph /\ In v ns /\ v <> u).
Proof.
  intros ndg P.
  assert (Hk : forall k, In k (Dict.keys G) <-> input_node graph k).
  { intros k. rewrite (pr_keys P). unfold input_node.
    destruct (in_dec node_eq_dec k (Dict.keys graph)); tauto. }
  assert (He : forall u v, edge G u v <->
                 exists ns, In (u, ns) graph /\ In v ns /\ v <> u).
  { intros u v. rewrite edge_iff. split.
    - intros (l & E & i).
      pose proof (get_Some_key _ _ _ E) as k.
      rewrite (pr_lists P u k) in E. injection E as <-.
      destruct (gget graph u) as [ns|] eqn:E'; [|destruct i].
      apply remove_self_In in i. exists ns.
      split; [eapply get_Some_In, E' | exact i].
    - intros (ns & i & i' & ne).
      assert (k : In u (Dict.keys G)).
      { apply Hk. left. apply (in_map fst) in i. exact i. }
      eexists. split; [apply (pr_lists P u k)|].
      rewrite (In_get node_eq_dec _ _ _ ndg i).
      apply remove_self_In. auto. }
  split; [|auto]. constructor.
  - apply (pr_nodup P).
  - intros u v e. apply He in e. destruct e as (ns & i & i' & _).
    apply Hk. right. eauto.
  - apply (pr_degree P).
Qed.
End PrepareGraph.

Section EdgesFromDependencies.
Context {NT : Type} {PN : PyNode NT}.
Local Abbreviation graph_t := (Dict.dict NT (list NT)).
Local Abbreviation gget := (Dict.get node_eq_dec).
Local Abbreviation gset := (Dict.set node_eq_dec).
Local Abbreviation gmem := (Dict.mem node_eq_dec).
Local Abbreviation count := (count_occ node_eq_dec).

Lemma dependents_In (done : graph_t) k v :
  In v (dependents done k)
  <-> exists ds, In (v, ds) done /\ In k ds /\ k <> v.
Proof.
  unfold dependents. rewrite in_flat_map. split.
  - intros ([u ds] & i & i'). simpl in i'.
    destruct (node_eq_dec u k) as [->|n]; [destruct i'|].
    pose proof (repeat_spec _ _ _ i') as ->.
    exists ds. split; [exact i|]. split; [|congruence].
    apply (count_occ_In node_eq_dec).
    destruct (count ds k); [destruct i' | lia].
  - intros (ds & i & i' & n). exists (v, ds). split; [exact i|]. simpl.
    destruct (node_eq_dec v k); [congruence|].
    apply (count_occ_In node_eq_dec) in i'.
    destruct (count ds k); [lia | left; reflexivity].
Qed.

Lemma dependents_snoc (done0 : graph_t) node dd dep k :
  dependents (done0 ++ [(node, dd ++ [dep])]) k
  = dependents (done0 ++ [(node, dd)]) k
    ++ (if node_eq_dec dep k
        then if node_eq_dec node k then [] else [node]
        else []).
Proof.
  unfold dependents. rewrite !flat_map_app. simpl. rewrite !app_nil_r.
  rewrite <- app_assoc. f_equal.
  destruct (node_eq_dec node k) as [e|n].
  - destruct (node_eq_dec dep k); reflexivity.
  - rewrite count_occ_app. simpl.
    destruct (node_eq_dec dep k).
    + rewrite repeat_app. reflexivity.
    + rewrite Nat.add_0_r, app_nil_r. reflexivity.
Qed.

Lemma dependents_open (done : graph_t) node k :
  dependents (done ++ [(node, [])]) k = dependents done k.
Proof.
  unfold dependents. rewrite flat_map_app. simpl.
  destruct (node_eq_dec node k); rewrite !app_nil_r; reflexivity.
Qed.

Lemma reversed_unlisted (done G : graph_t) ind k :
  reversed done G ind -> ~ In k (Dict.keys G) -> dependents done k = [].
Proof.
  intros R n. destruct (dependents done k) as [|v l] eqn:E; [reflexivity|].
  exfalso. apply n, (rv_keys R). right.
  assert (i : In v (dependents done k)) by (rewrite E; left; reflexivity).
  apply dependents_In in i. destruct i as (ds & i & i' & _). eauto.
Qed.

(** [if k not in new_graph: new_graph[k] = []] *)
Lemma ensure_key (done G : graph_t) ind k :
  reversed done G ind ->
  let G1 := if gmem G k then G else gset G k [] in
  NoDup (Dict.keys G1)
  /\ (forall x, In x (Dict.keys G1) <-> In x (Dict.keys G) \/ x = k)
  /\ (forall x, In x (Dict.keys G1) -> gget G1 x = Some (dependents done x))
  /\ (forall v, pending_in G1 [] v = pending_in G [] v).
Proof.
  intros R G1. unfold G1. destruct (gmem G k) eqn:M.
  - apply mem_iff in M. split; [apply (rv_nodup R)|].
    split; [|split; [apply (rv_lists R) | reflexivity]].
    intros x. split; [auto | intros [i| ->]; assumption].
  - assert (n : ~ In k (Dict.keys G)).
    { intros i. apply (mem_iff node_eq_dec) in i. congruence. }
    rewrite (set_new node_eq_dec G k [] n).
    split; [|split; [|split]].
    + rewrite keys_app. simpl. apply NoDup_app; [apply (rv_nodup R) | |].
      * constructor; [intros []|constructor].
      * intros x i [<-|[]]. contradiction.
    + intros x. rewrite keys_app, in_app_iff. simpl. intuition.
    + intros x i. rewrite keys_app, in_app_iff in i. simpl in i.
      rewrite get_app. destruct i as [i|[<-|[]]].
      * rewrite (rv_lists R x i). reflexivity.
      * apply (get_None_iff node_eq_dec) in n. rewrite n. simpl.
        destruct (node_eq_dec k k); [|contradiction].
        rewrite (@reversed_unlisted done G ind k R); [reflexivity|].
        apply (get_None_iff node_eq_dec), n.
    + intros v. rewrite pending_in_app.
      change (pending_in [(k, [])] [] v) with 0. lia.
Qed.

Lemma reversed_step (done0 : graph_t) node dd dep G ind :
  reversed (done0 ++ [(node, dd)]) G ind ->
  exists G' ind',
    (if node_eq_dec dep node then Ok (G, ind)
     else
       let new_graph := if gmem G dep then G else gset G dep [] in
       let* new_graph := append_to new_graph dep node in
       Ok (new_graph, incr ind node)) = @Ok NT _ (G', ind')
    /\ reversed (done0 ++ [(node, dd ++ [dep])]) G' ind'.
Proof.
  intros R.
  assert (Ekeys : forall x, Dict.keys (done0 ++ [(node, x)])
                            = Dict.keys done0 ++ [node]).
  { intros x. rewrite keys_app. reflexivity. }
  destruct (node_eq_dec dep node) as [->|ne].
  - exists G, ind. split; [reflexivity|]. constructor.
    + apply (rv_nodup R).
    + intros k. rewrite (rv_keys R), named_snoc, !Ekeys.
      split; [tauto|]. intros [i|[H| ->]]; auto.
      left. apply in_or_app. right. left. reflexivity.
    + intros k i. rewrite (rv_lists R k i), dependents_snoc.
      destruct (node_eq_dec node k); rewrite app_nil_r; reflexivity.
    + apply (rv_degree R).
  - destruct (@ensure_key _ G ind dep R) as (nd1 & Hk1 & Hl1 & Hp1).
    set (G1 := if gmem G dep then G else gset G dep []) in *.
    assert (k1 : In dep (Dict.keys G1)) by (apply Hk1; auto).
    cbv zeta. unfold append_to. rewrite (Hl1 dep k1). cbn [bind].
    eexists _, _. split; [reflexivity|]. constructor.
    + apply NoDup_keys_set, nd1.
    + intros k. rewrite keys_set_iff, Hk1, (rv_keys R), named_snoc, !Ekeys.
      tauto.
    + intros k i. apply keys_set_iff in i. rewrite dependents_snoc.
      destruct (node_eq_dec dep k) as [->|nk].
      * rewrite get_set_eq.
        destruct (node_eq_dec node k); [congruence | reflexivity].
      * rewrite get_set_neq by assumption. rewrite app_nil_r.
        apply Hl1. destruct i as [->|i]; [contradiction | exact i].
    + intros v. rewrite degree_incr, (rv_degree R).
      rewrite (pending_in_set_append G1 dep node v (Hl1 dep k1)), Hp1.
      destruct (node_eq_dec node v); lia.
Qed.

Lemma _get_edges_from_dependencies_inner_spec (done0 : graph_t) node :
  forall deps dd G ind,
    reversed (done0 ++ [(node, dd)]) G ind ->
    exists G' ind',
      _get_edges_from_dependencies_inner node deps G ind = Ok (G', ind')
      /\ reversed (done0 ++ [(node, dd ++ deps)]) G' ind'.
Proof.
  induction deps as [|dep rest IH]; intros dd G ind R.
  - exists G, ind. rewrite app_nil_r. auto.
  - destruct (@reversed_step done0 node dd dep G ind R)
      as (G1 & ind1 & E & R1).
    destruct (IH (dd ++ [dep]) G1 ind1 R1) as (G' & ind' & E' & R').
    exists G', ind'. rewrite <- app_assoc in R'. split; [|exact R'].
    cbn [_get_edges_from_dependencies_inner].
    destruct (node_eq_dec dep node).
    + injection E as <- <-. exact E'.
    + cbv zeta in E |- *.
      destruct (append_to (if gmem G dep then G else gset G dep []) dep node);
        cbn [bind] in E |- *; try discriminate.
      injection E as <- <-. exact E'.
Qed.

Lemma reversed_open (done G : graph_t) ind node :
  reversed done G ind ->
  reversed (done ++ [(node, [])])
    (if gmem G node then G else gset G node []) ind.
Proof.
  intros R. destruct (@ensure_key _ G ind node R) as (nd1 & Hk1 & Hl1 & Hp1).
  constructor.
  - exact nd1.
  - intros k. rewrite Hk1, (rv_keys R), keys_app, in_app_iff. simpl.
    split.
    + intros [[i|(u & ds & i & i')]| ->]; auto.
      right. exists u, ds. split; [apply in_snoc; auto | exact i'].
    + intros [[i|[<-|[]]]|(u & ds & i & i')]; auto.
      apply in_snoc in i. destruct i as [i|[-> ->]]; [|destruct i'].
      left. right. eauto.
  - intros k i. rewrite dependents_open. apply Hl1, i.
  - intros v. rewrite Hp1. apply (rv_degree R).
Qed.

Lemma _get_edges_from_dependencies_items_spec :
  forall items done G ind,
    reversed done G ind ->
    exists G' ind',
      _get_edges_from_dependencies_items items G ind = Ok (G', ind')
      /\ reversed (done ++ items) G' ind'.
Proof.
  induction items as [|[node deps] rest IH]; intros done G ind R.
  - rewrite app_nil_r. exists G, ind. auto.
  - cbn [_get_edges_from_dependencies_items]. cbv zeta.
    destruct (@_get_edges_from_dependencies_inner_spec done node deps [] _ _
                (@reversed_open done G ind node R))
      as (G1 & ind1 & E1 & R1).
    rewrite E1. cbn [bind fst snd]. simpl app in R1.
    destruct (IH (done ++ [(node, deps)]) G1 ind1 R1)
      as (G' & ind' & E' & R').
    exists G', ind'. rewrite <- app_assoc in R'. auto.
Qed.

Lemma _get_edges_from_dependencies_spec (graph : graph_t) :
  exists G ind,
    _get_edges_from_dependencies graph = Ok (G, ind)
    /\ reversed graph G ind.
Proof.
  apply (@_get_edges_from_dependencies_items_spec graph [] [] []).
  constructor.
  - constructor.
  - intros k. simpl. split; [intros []|].
    intros [[]|(u & ds & [] & _)].
  - intros k [].
  - intros v. reflexivity.
Qed.

(** The canonical graph of a dependencies input. *)
Lemma reversed_wf (graph G : graph_t) ind :
  reversed graph G ind ->
  wf_graph G ind
  /\ (forall k, In k (Dict.keys G) <-> input_node graph k)
  /\ (forall u v, edge G u v <->
                  exists ds, In (v, ds) graph /\ In u ds /\ u <> v).
Proof.
  intros R.
  assert (He : forall u v, edge G u v <->
                 exists ds, In (v, ds) graph /\ In u ds /\ u <> v).
  { intros u v. rewrite edge_iff, <- dependents_In. split.
    - intros (l & E & i).
      pose proof (get_Some_key _ _ _ E) as k.
      rewrite (rv_lists R u k) in E. injection E as <-. exact i.
    - intros i. exists (dependents graph u). split; [|exact i].
      apply (rv_lists R), (rv_keys R). right.
      apply dependents_In in i. destruct i as (ds & i & i' & _). eauto. }
  split; [|split; [apply (rv_keys R) | exact He]]. constructor.
  - apply (rv_nodup R).
  - intros u v e. apply He in e. destruct e as (ds & i & _).
    apply (rv_keys R). left. apply (in_map fst) in i. exact i.
  - apply (rv_degree R).
Qed.
End EdgesFromDependencies.

(** ** Sorting an acyclic graph *)

Section Sorting.
Context {NT : Type} {PN : PyNode NT}.
Local Abbreviation graph_t := (Dict.dict NT (list NT)).

Lemma normalise_spec (graph : graph_t) (graph_type : string) :
  NoDup (Dict.keys graph) ->
  exists G ind,
    normalise graph graph_type = Ok (G, ind)
    /\ wf_graph G ind
    /\ (forall k, In k (Dict.keys G) <-> input_node graph k).
Proof.
  intros nd. unfold normalise.
  destruct (graph_type =? "dependencies").
  - destruct (_get_edges_from_dependencies_spec graph) as (G & ind & E & R).
    exists G, ind. split; [exact E|].
    destruct (@reversed_wf NT PN graph G ind R) as (W & K & _). auto.
  - destruct (@_prepare_graph_spec NT PN graph nd) as (G & ind & E & P).
    exists G, ind. split; [exact E|].
    destruct (@prepared_wf NT PN graph G ind nd P) as (W & K & _). auto.
Qed.

Lemma canonical_eq (graph G : graph_t) ind graph_type :
  normalise graph graph_type = Ok (G, ind) -> canonical graph graph_type = G.
Proof. unfold canonical. intros ->. reflexivity. Qed.

Lemma drain_next_eq {S A : Type} (next : S -> step NT S A) (s1 s2 : S) fuel :
  next s1 = next s2 -> drain fuel next s1 = drain fuel next s2.
Proof. intros E. destruct fuel; simpl; [reflexivity|]. rewrite E. reflexivity. Qed.

(** An order that places every node of an acyclic canonical graph after
    its predecessors exists for each flat call the facade accepts. *)
Lemma topological_sort_nodes_spec (graph G : graph_t) ind
    (method : string) (sort_groups : bool) (graph_type : string)
    (fuel : nat) :
  graph_type = "edges" \/ graph_type = "dependencies" ->
  method = "bfs" \/ (method = "dfs" /\ sort_groups = false) ->
  normalise graph graph_type = Ok (G, ind) ->
  wf_graph G ind -> acyclic G -> List.length G < fuel ->
  exists L,
    topological_sort fuel graph method "nodes" sort_groups graph_type
    = Ok (map Node L)
    /\ Permutation L (Dict.keys G)
    /\ forall u v, edge G u v -> precedes u v L.
Proof.
  intros Hgt Hm EN W ac Hf.
  pose proof (wf_nodup W) as nd. pose proof (wf_closed W) as closed.
  assert (V : forall r : result NT (list (item NT)),
             (let* _ := _validate_return_type "nodes" in
              let* _ := _validate_graph_type graph_type in r) = r).
  { intros r. destruct Hgt as [-> | ->]; reflexivity. }
  unfold topological_sort. rewrite V.
  destruct Hm as [-> | [-> ->]].
  - cbn [String.eqb Ascii.eqb Bool.eqb]. unfold _bfs_topological_sort.
    destruct sort_groups.
    + rewrite (@drain_next_eq _ _ _ topological_sort_generator
                 (TsgFlatten G [] (_group_generator ind (initial_queue G ind)))).
      2: { unfold topological_sort_generator.
           cbn [topological_sort_generator_next]. rewrite EN. reflexivity. }
      destruct (@drain_flatten NT PN G nd closed ac fuel graph "nodes" true
                  graph_type ltac:(lia) fuel
                  (_group_generator ind (initial_queue G ind)) [])
        as (Bs & E & P & Ls).
      * apply kahn_init, W.
      * simpl. lia.
      * cbn [gg_visited _group_generator app] in P, Ls.
        exists (List.concat Bs). split; [exact E|]. split; [exact P|].
        intros u v e. apply batch_precedes_concat.
        destruct (@layers_precedes NT (edge G) Bs [] v u Ls) as [[]|H];
          [|exact e|exact H].
        eapply Permutation_in; [symmetry; exact P|]. eapply closed, e.
    + rewrite (@drain_next_eq _ _ _ topological_sort_generator
                 (TsgNodes G (_node_generator ind (initial_queue G ind)))).
      2: { unfold topological_sort_generator.
           cbn [topological_sort_generator_next]. rewrite EN. reflexivity. }
      destruct (@drain_nodes NT PN G nd closed ac fuel graph "nodes" false
                  graph_type fuel
                  (_node_generator ind (initial_queue G ind)))
        as (L & E & P & R).
      * split; [reflexivity|]. apply kahn_init, W.
      * apply respects_nil.
      * simpl. lia.
      * cbn [ng_visited _node_generator app] in P, R.
        exists L. split; [exact E|]. split; [exact P|].
        intros u v e. apply (@respects_precedes NT (edge G) L v u R); [|exact e].
        eapply Permutation_in; [symmetry; exact P|]. eapply closed, e.
  - cbn [String.eqb Ascii.eqb Bool.eqb negb]. unfold _dfs_topological_sort.
    rewrite EN. cbn [bind fst].
    destruct (@_dfs_topological_sort_loop_spec NT PN graph G nd closed ac
                fuel Hf) as (st & E & P & R).
    rewrite E. cbn [bind]. exists (rev (sorted_list st)).
    split; [reflexivity|]. split; [exact P|].
    intros u v e. apply precedes_rev.
    apply (@respects_precedes NT (fun w u => edge G u w) (sorted_list st)
             u v R); [|exact e].
    apply in_rev. eapply Permutation_in; [symmetry; exact P|].
    eapply edge_source_key, e.
Qed.

Lemma topological_sort_groups_spec (graph G : graph_t) ind
    (sort_groups : bool) (graph_type : string) (fuel : nat) :
  graph_type = "edges" \/ graph_type = "dependencies" ->
  normalise graph graph_type = Ok (G, ind) ->
  wf_graph G ind -> acyclic G -> List.length G < fuel ->
  exists Bs,
    topological_sort fuel graph "bfs" "groups" sort_groups graph_type
    = Ok (map Group Bs)
    /\ Permutation (List.concat Bs) (Dict.keys G)
    /\ forall u v, edge G u v -> batch_precedes u v Bs.
Proof.
  intros Hgt EN W ac Hf.
  pose proof (wf_nodup W) as nd. pose proof (wf_closed W) as closed.
  assert (V : forall r : result NT (list (item NT)),
             (let* _ := _validate_return_type "groups" in
              let* _ := _validate_graph_type graph_type in r) = r).
  { intros r. destruct Hgt as [-> | ->]; reflexivity. }
  unfold topological_sort. rewrite V.
  cbn [String.eqb Ascii.eqb Bool.eqb]. unfold _bfs_topological_sort.
  rewrite (@drain_next_eq _ _ _ topological_sort_generator
             (TsgGroups G (_group_generator ind (initial_queue G ind)))).
  2: { unfold topological_sort_generator.
       cbn [topological_sort_generator_next]. rewrite EN. reflexivity. }
  destruct (@drain_groups NT PN G nd closed ac fuel graph "groups"
              sort_groups graph_type fuel
              (_group_generator ind (initial_queue G ind)))
    as (Bs & E & P & Ls).
  - apply kahn_init, W.
  - simpl. lia.
  - cbn [gg_visited _group_generator app] in P, Ls.
    exists Bs. split; [exact E|]. split; [exact P|].
    intros u v e.
    destruct (@layers_precedes NT (edge G) Bs [] v u Ls) as [[]|H];
      [|exact e|exact H].
    eapply Permutation_in; [symmetry; exact P|]. eapply closed, e.
Qed.
End Sorting.

Section Ranks.
Context {NT : Type} {PN : PyNode NT}.
Local Abbreviation graph_t := (Dict.dict NT (list NT)).

Lemma ranked_acyclic (rank : NT -> nat) (G : graph_t) :
  ranked rank G = true -> acyclic G.
Proof.
  intros H.
  assert (E : forall u v, edge G u v -> rank u < rank v).
  { intros u v e. apply edge_iff in e. destruct e as (ns & E & i).
    apply get_Some_In in E. unfold ranked in H.
    rewrite forallb_forall in H. specialize (H _ E). simpl in H.
    rewrite forallb_forall in H. apply Nat.ltb_lt, H, i. }
  assert (T : forall u v, clos_trans NT (edge G) u v -> rank u < rank v).
  { intros u v c. induction c as [u v e|u w v _ IH1 _ IH2];
      [apply E, e | lia]. }
  intros u c. apply T in c. lia.
Qed.
End Ranks.

(** ** The cycle search *)

Lemma _get_cycle_dfs_unfold {NT} {PN : PyNode NT} fuel graph node curr level
    memo :
  _get_cycle_dfs (S fuel) graph node curr level memo =
    match Dict.get memo_key_dec memo (curr, level) with
    | Some r => Ok (r, memo)
    | None =>
        if is_node node curr && negb (level =? 0)%nat then
          memo_return curr level (Some [curr]) memo
        else
          match Dict.get node_eq_dec graph curr with
          | None => Raise (KeyError curr)
          | Some neighbours =>
              if (List.length neighbours =? 0)%nat then
                memo_return curr level None memo
              else
                _get_cycle_dfs_loop (_get_cycle_dfs fuel graph node)
                  curr level neighbours memo
          end
    end.
Proof. reflexivity. Qed.

(** In [SPIN_GRAPH] the search from D enters the cycle E, F and stays. *)
Lemma SPIN_GRAPH_search_spins (fuel level : nat) :
  _get_cycle_dfs fuel SPIN_GRAPH (Some "D") "E" level [] = Diverge
  /\ _get_cycle_dfs fuel SPIN_GRAPH (Some "D") "F" level [] = Diverge.
Proof.
  revert level. induction fuel as [|fuel IH]; intros level.
  - split; reflexivity.
  - split; rewrite _get_cycle_dfs_unfold.
    + cbn -[_get_cycle_dfs]. rewrite (proj2 (IH (level + 1))). reflexivity.
    + cbn -[_get_cycle_dfs]. rewrite (proj1 (IH (level + 1))). reflexivity.
Qed.

(** In [LOOP_SPIN_GRAPH] the search from A follows the self-reference of B
    and stays on it. *)
Lemma LOOP_SPIN_GRAPH_search_spins (fuel level : nat) :
  _get_cycle_dfs fuel LOOP_SPIN_GRAPH (Some "A") "B" level [] = Diverge.
Proof.
  revert level. induction fuel as [|fuel IH]; intros level; [reflexivity|].
  rewrite _get_cycle_dfs_unfold. cbn -[_get_cycle_dfs].
  rewrite (IH (level + 1)). reflexivity.
Qed.

Lemma LOOP_SPIN_GRAPH_get_cycle_spins (fuel : nat) :
  _get_cycle fuel LOOP_SPIN_GRAPH (Some "A") = Diverge.
Proof.
  destruct fuel as [|fuel]; [reflexivity|].
  pose proof (LOOP_SPIN_GRAPH_search_spins fuel 1) as H.
  unfold _get_cycle, LOOP_SPIN_GRAPH in *. cbn [truthy PyNode_str]. simpl negb.
  rewrite _get_cycle_dfs_unfold. cbn -[_get_cycle_dfs].
  rewrite H. reflexivity.
Qed.

Section CycleSearch.
Context {NT : Type} {PN : PyNode NT}.
Local Abbreviation graph_t := (Dict.dict NT (list NT)).
Local Abbreviation gget := (Dict.get node_eq_dec).

Variable graph : graph_t.

Lemma memo_ok_nil : memo_ok graph [].
Proof. intros key r []. Qed.

Lemma memo_return_ok curr level r memo res memo' :
  memo_ok graph memo -> path_from graph curr r ->
  memo_return curr level r memo = Ok (res, memo') ->
  memo_ok graph memo' /\ path_from graph curr res.
Proof.
  unfold memo_return. intros M P E. injection E as <- <-. split; [|exact P].
  intros key r' [e|i]; [|apply (M key r' i)].
  injection e as <- <-. exact P.
Qed.

Lemma path_from_None curr : path_from graph curr None.
Proof. intros p E. discriminate. Qed.

Lemma path_from_here curr : path_from graph curr (Some [curr]).
Proof.
  intros p E. injection E as <-. split; [exact I | exists []; reflexivity].
Qed.

Lemma path_from_cons curr nb ns path :
  In (curr, ns) graph -> In nb ns -> path_from graph nb (Some path) ->
  path_from graph curr (Some (curr :: path)).
Proof.
  intros i i' P p E. injection E as <-.
  destruct (P path eq_refl) as (C & rest & ->).
  split; [|exists (nb :: rest); reflexivity].
  simpl. split; [eauto | exact C].
Qed.

Lemma _get_cycle_dfs_loop_ok
    (dfs : NT -> nat -> memo_t -> result NT (option (list NT) * memo_t))
    curr level ns :
  In (curr, ns) graph ->
  (forall nb lv memo r memo',
      memo_ok graph memo -> dfs nb lv memo = Ok (r, memo') ->
      memo_ok graph memo' /\ path_from graph nb r) ->
  forall nbs memo r memo',
    incl nbs ns -> memo_ok graph memo ->
    _get_cycle_dfs_loop dfs curr level nbs memo = Ok (r, memo') ->
    memo_ok graph memo' /\ path_from graph curr r.
Proof.
  intros i Hdfs.
  induction nbs as [|nb rest IH]; intros memo r memo' sub M E.
  - cbn [_get_cycle_dfs_loop] in E.
    eapply memo_return_ok; eauto using path_from_None.
  - cbn [_get_cycle_dfs_loop] in E.
    destruct (dfs nb (level + 1) memo) as [[[path|] m1]|e|] eqn:E1;
      try discriminate.
    + destruct (Hdfs _ _ _ _ _ M E1) as [M1 P1].
      eapply memo_return_ok; [exact M1 | | exact E].
      eapply path_from_cons; [exact i | | exact P1].
      apply sub. left. reflexivity.
    + destruct (Hdfs _ _ _ _ _ M E1) as [M1 _].
      apply (IH m1 r memo'); [|exact M1 | exact E].
      intros x ix. apply sub. right. exact ix.
Qed.

Lemma _get_cycle_dfs_ok (node : option NT) :
  forall fuel curr level memo r memo',
    memo_ok graph memo ->
    _get_cycle_dfs fuel graph node curr level memo = Ok (r, memo') ->
    memo_ok graph memo' /\ path_from graph curr r.
Proof.
  induction fuel as [|fuel IH]; intros curr level memo r memo' M E;
    [discriminate|].
  rewrite _get_cycle_dfs_unfold in E.
  destruct (Dict.get memo_key_dec memo (curr, level)) as [r0|] eqn:EM.
  - injection E as <- <-. split; [exact M|].
    apply get_Some_In in EM. apply (M _ _ EM).
  - destruct (is_node node curr && negb (level =? 0)%nat).
    + eapply memo_return_ok; eauto using path_from_here.
    + destruct (gget graph curr) as [ns|] eqn:EG; [|discriminate].
      destruct (List.length ns =? 0)%nat.
      * eapply memo_return_ok; eauto using path_from_None.
      * eapply _get_cycle_dfs_loop_ok; [| | | exact M | exact E].
        -- eapply get_Some_In, EG.
        -- intros nb lv m r1 m1. apply IH.
        -- apply incl_refl.
Qed.

Lemma _get_cycle_scan_ok fuel :
  forall nodes memo c,
    memo_ok graph memo ->
    _get_cycle_scan fuel graph nodes memo = Ok (Some c) ->
    chain graph c /\ exists x rest, c = x :: rest /\ In x nodes.
Proof.
  induction nodes as [|n rest IH]; intros memo c M E; [discriminate|].
  cbn [_get_cycle_scan] in E.
  destruct (_get_cycle_dfs fuel graph (Some n) n 0 memo)
    as [[r m1]|e|] eqn:E1; try discriminate.
  destruct (@_get_cycle_dfs_ok (Some n) fuel n 0 memo r m1 M E1) as [M1 P1].
  assert (next : _get_cycle_scan fuel graph rest m1 = Ok (Some c) ->
                 chain graph c /\ exists x rest0, c = x :: rest0
                                                  /\ In x (n :: rest)).
  { intros E2. destruct (IH m1 c M1 E2) as (C & x & r0 & -> & ix).
    split; [exact C|]. exists x, r0. split; [reflexivity | right; exact ix]. }
  destruct r as [[|x path]|]; [exact (next E) | | exact (next E)].
  injection E as <-.
  destruct (P1 _ eq_refl) as (C & r0 & E0). injection E0 as -> ->.
  split; [exact C|]. exists n, r0. split; [reflexivity | left; reflexivity].
Qed.

(** What [_get_cycle] returns is [None] or a nonempty path along the
    lists of [graph] that starts at the given node or at a key. *)
Lemma _get_cycle_ok fuel (node : option NT) c :
  _get_cycle fuel graph node = Ok (Some c) ->
  chain graph c
  /\ exists x rest, c = x :: rest
                    /\ (node = Some x \/ In x (Dict.keys graph)).
Proof.
  unfold _get_cycle. intros E.
  assert (S : _get_cycle_scan fuel graph (Dict.keys graph) [] = Ok (Some c)
              -> chain graph c
                 /\ exists x rest, c = x :: rest
                      /\ (node = Some x \/ In x (Dict.keys graph))).
  { intros E2.
    destruct (@_get_cycle_scan_ok fuel (Dict.keys graph) [] c memo_ok_nil E2)
      as (C & x & r0 & -> & ix).
    split; [exact C|]. exists x, r0. auto. }
  destruct node as [n|]; [|exact (S E)].
  destruct (truthy n); [|exact (S E)].
  destruct (_get_cycle_dfs fuel graph (Some n) n 0 [])
    as [[r m1]|e|] eqn:E1; try discriminate.
  destruct (@_get_cycle_dfs_ok (Some n) fuel n 0 [] r m1 memo_ok_nil E1)
    as [_ P1].
  cbn [bind fst] in E. injection E as ->.
  destruct (P1 _ eq_refl) as (C & r0 & ->).
  split; [exact C|]. exists n, r0. auto.
Qed.

Lemma raise_CycleError_inv cycle c msg :
  raise_CycleError cycle = CycleError c msg ->
  cycle = Some c /\ exists s, str_join " -> " c = Some s.
Proof.
  unfold raise_CycleError. destruct cycle as [c'|]; [|discriminate].
  destruct (str_join " -> " c') as [s|] eqn:E; [|discriminate].
  intros H. injection H as <- _. eauto.
Qed.

Lemma str_join_head sep x rest s :
  str_join sep (x :: rest) = Some s -> as_str x <> None.
Proof.
  simpl. destruct (as_str x); [discriminate | discriminate].
Qed.
End CycleSearch.

(** ** Where a CycleError comes from *)

Section Reported.
Context {NT : Type} {PN : PyNode NT}.
Local Abbreviation graph_t := (Dict.dict NT (list NT)).
Local Abbreviation gget := (Dict.get node_eq_dec).

Lemma chain_consecutive (graph : graph_t) (c : list NT) a b :
  chain graph c -> consecutive a b c ->
  exists ns, In (a, ns) graph /\ In b ns.
Proof.
  intros C (l1 & l2 & ->). induction l1 as [|x l1 IH]; simpl in C.
  - tauto.
  - apply IH. destruct (l1 ++ a :: b :: l2); [exact I | tauto].
Qed.

Lemma reported_KeyError graph Q k : reported graph Q (KeyError k).
Proof. intros c msg E. discriminate. Qed.

Lemma _get_cycle_dfs_loop_quiet
    (dfs : NT -> nat -> memo_t -> result NT (option (list NT) * memo_t))
    curr level :
  (forall nb lv memo, quiet (dfs nb lv memo)) ->
  forall nbs memo, quiet (_get_cycle_dfs_loop dfs curr level nbs memo).
Proof.
  intros Hdfs. induction nbs as [|nb rest IH]; intros memo c msg E.
  - discriminate.
  - cbn [_get_cycle_dfs_loop] in E.
    destruct (dfs nb (level + 1) memo) as [[[path|] m1]|e|] eqn:E1;
      try discriminate.
    + apply (IH m1 c msg E).
    + injection E as ->. apply (Hdfs nb (level + 1) memo c msg E1).
Qed.

Lemma _get_cycle_dfs_quiet (graph : graph_t) (node : option NT) :
  forall fuel curr level memo,
    quiet (_get_cycle_dfs fuel graph node curr level memo).
Proof.
  induction fuel as [|fuel IH]; intros curr level memo c msg E;
    [discriminate|].
  rewrite _get_cycle_dfs_unfold in E.
  destruct (Dict.get memo_key_dec memo (curr, level)); [discriminate|].
  destruct (is_node node curr && negb (level =? 0)%nat); [discriminate|].
  destruct (gget graph curr) as [ns|]; [|discriminate].
  destruct (List.length ns =? 0)%nat; [discriminate|].
  revert E. apply _get_cycle_dfs_loop_quiet. intros nb lv m. apply IH.
Qed.

Lemma _get_cycle_scan_quiet (graph : graph_t) fuel :
  forall nodes memo, quiet (_get_cycle_scan fuel graph nodes memo).
Proof.
  induction nodes as [|n rest IH]; intros memo c msg E; [discriminate|].
  cbn [_get_cycle_scan] in E.
  destruct (_get_cycle_dfs fuel graph (Some n) n 0 memo)
    as [[r m1]|e|] eqn:E1; try discriminate.
  - destruct r as [[|x path]|]; try discriminate; apply (IH m1 c msg E).
  - injection E as ->.
    apply (@_get_cycle_dfs_quiet graph (Some n) fuel n 0 memo c msg E1).
Qed.

Lemma _get_cycle_quiet (graph : graph_t) fuel node :
  quiet (_get_cycle fuel graph node).
Proof.
  unfold _get_cycle. intros c msg E.
  destruct node as [n|]; [|apply (@_get_cycle_scan_quiet graph fuel (Dict.keys graph) [] c msg E)].
  destruct (truthy n); [|apply (@_get_cycle_scan_quiet graph fuel (Dict.keys graph) [] c msg E)].
  destruct (_get_cycle_dfs fuel graph (Some n) n 0 [])
    as [[r m1]|e|] eqn:E1; try discriminate.
  cbn [bind] in E. injection E as ->.
  apply (@_get_cycle_dfs_quiet graph (Some n) fuel n 0 [] c msg E1).
Qed.

(** [cycle = _get_cycle(graph, node); raise CycleError(cycle)] *)
Lemma raise_reported {A} (graph : graph_t) (Q : NT -> Prop) fuel node e :
  (forall x, node = Some x \/ In x (Dict.keys graph) -> Q x) ->
  (let* cycle := _get_cycle fuel graph node in
   Raise (raise_CycleError cycle)) = @Raise NT A e ->
  reported graph Q e.
Proof.
  intros HQ E c msg ->.
  destruct (_get_cycle fuel graph node) as [cycle|e|] eqn:EG;
    try discriminate; cbn [bind] in E.
  - injection E as E. apply raise_CycleError_inv in E.
    destruct E as (-> & s & J).
    destruct (@_get_cycle_ok NT PN graph fuel node c EG)
      as (C & x & rest & -> & H).
    split; [exact C|]. exists x, rest, s. auto.
  - injection E as ->. exfalso. apply (@_get_cycle_quiet graph fuel node c msg EG).
Qed.

(** *** The depth-first producer *)

Section DepthFirstRaise.
Variables (graph G : graph_t) (Q : NT -> Prop).
Hypothesis Q_keys : forall x, In x (Dict.keys graph) -> Q x.
Hypothesis Q_lists : forall u ns v, gget G u = Some ns -> In v ns -> Q v.

Lemma _dfs_topological_sort_dfs_loop_reported
    (dfs : NT -> dfs_state -> result NT dfs_state) :
  (forall nb st e, Q nb -> dfs nb st = Raise e -> reported graph Q e) ->
  forall nbs st e,
    (forall v, In v nbs -> Q v) ->
    _dfs_topological_sort_dfs_loop dfs nbs st = Raise e ->
    reported graph Q e.
Proof.
  intros Hdfs. induction nbs as [|nb rest IH]; intros st e HQ E;
    [discriminate|].
  cbn [_dfs_topological_sort_dfs_loop] in E.
  assert (HQ' : forall v, In v rest -> Q v) by (intros v i; apply HQ; right; exact i).
  destruct (set_mem node_eq_dec nb (visited st)); [apply (IH st e HQ' E)|].
  destruct (dfs nb st) as [st1|e1|] eqn:E1; cbn [bind] in E;
    try discriminate.
  - apply (IH st1 e HQ' E).
  - injection E as <-. apply (Hdfs nb st e1); [|exact E1].
    apply HQ. left. reflexivity.
Qed.

Lemma _dfs_topological_sort_dfs_reported :
  forall fuel node st e,
    Q node ->
    _dfs_topological_sort_dfs fuel graph G node st = Raise e ->
    reported graph Q e.
Proof.
  induction fuel as [|fuel IH]; intros node st e Qn E; [discriminate|].
  cbn [_dfs_topological_sort_dfs] in E.
  destruct (set_mem node_eq_dec node (currently_visiting st)).
  - eapply raise_reported; [|exact E].
    intros x [H|H]; [injection H as <-; exact Qn | apply Q_keys, H].
  - destruct (gget G node) as [nbs|] eqn:EG.
    + match type of E with
      | (let* st := ?loop in _) = _ => destruct loop as [st2|e2|] eqn:EL
      end; cbn [bind] in E; try discriminate.
      * destruct (set_mem node_eq_dec node (currently_visiting st2));
          [discriminate|].
        injection E as <-. apply reported_KeyError.
      * injection E as <-.
        apply (@_dfs_topological_sort_dfs_loop_reported
                 (_dfs_topological_sort_dfs fuel graph G)) with (3 := EL).
        -- intros nb st' e' Qnb. apply IH, Qnb.
        -- intros v i. eapply Q_lists; [exact EG | exact i].
    + injection E as <-. apply reported_KeyError.
Qed.

Lemma _dfs_topological_sort_loop_reported fuel :
  forall nodes st e,
    (forall v, In v nodes -> Q v) ->
    _dfs_topological_sort_loop fuel graph G nodes st = Raise e ->
    reported graph Q e.
Proof.
  induction nodes as [|n rest IH]; intros st e HQ E; [discriminate|].
  cbn [_dfs_topological_sort_loop] in E.
  assert (HQ' : forall v, In v rest -> Q v) by (intros v i; apply HQ; right; exact i).
  destruct (set_mem node_eq_dec n (visited st)); [apply (IH st e HQ' E)|].
  destruct (_dfs_topological_sort_dfs fuel graph G n st) as [st1|e1|] eqn:E1;
    cbn [bind] in E; try discriminate.
  - apply (IH st1 e HQ' E).
  - injection E as <-.
    apply (@_dfs_topological_sort_dfs_reported fuel n st e1); [|exact E1].
    apply HQ. left. reflexivity.
Qed.
End DepthFirstRaise.
End Reported.

Section BreadthFirstRaise.
Context {NT : Type} {PN : PyNode NT}.
Local Abbreviation graph_t := (Dict.dict NT (list NT)).
Local Abbreviation gget := (Dict.get node_eq_dec).

Lemma reported_headed (graph : graph_t) Q e :
  reported graph Q e -> headed Q e.
Proof. intros R c msg E. destruct (R c msg E) as [_ H]. exact H. Qed.

Lemma headed_KeyError Q k : headed Q (KeyError k).
Proof. intros c msg E. discriminate. Qed.

Lemma _check_cycle_headed fuel (G : graph_t) visited e :
  _check_cycle fuel G visited = Raise e ->
  headed (fun x => In x (Dict.keys G)) e.
Proof.
  unfold _check_cycle.
  destruct (List.length visited <? List.length G)%nat; [|discriminate].
  intros E. eapply reported_headed, raise_reported; [|exact E].
  intros x [H|H]; [discriminate|].
  unfold Dict.keys in *. apply in_map_iff in H.
  destruct H as (item & <- & i). apply filter_In in i.
  apply in_map, i.
Qed.

Lemma _node_generator_next_headed fuel (G : graph_t) s e :
  _node_generator_next fuel G s = Fail e ->
  headed (fun x => In x (Dict.keys G)) e.
Proof.
  unfold _node_generator_next.
  destruct (ng_yielded s) as [x|].
  - destruct (gget G x) as [nbs|].
    + destruct (release nbs (ng_indegree s) (ng_queue s)) as [ind [|y q]];
        [|discriminate].
      destruct (_check_cycle fuel G (ng_visited s)) eqn:E; try discriminate.
      intros H. injection H as <-. eapply _check_cycle_headed, E.
    + intros H. injection H as <-. apply headed_KeyError.
  - destruct (ng_queue s); [|discriminate].
    destruct (_check_cycle fuel G (ng_visited s)) eqn:E; try discriminate.
    intros H. injection H as <-. eapply _check_cycle_headed, E.
Qed.

Lemma _group_generator_batch_headed (G : graph_t) sort_groups Q :
  forall queue ind visited batch N e,
    _group_generator_batch G sort_groups queue ind visited batch N = Fail e ->
    headed Q e.
Proof.
  induction queue as [|x q IH]; intros ind visited batch N e E;
    [discriminate|].
  cbn [_group_generator_batch] in E.
  destruct (gget G x) as [nbs|].
  - destruct (release nbs ind N) as [ind' N'].
    destruct q; [discriminate|]. eapply IH, E.
  - injection E as <-. apply headed_KeyError.
Qed.

Lemma _group_generator_next_headed fuel (G : graph_t) sort_groups s e :
  _group_generator_next fuel G sort_groups s = Fail e ->
  headed (fun x => In x (Dict.keys G)) e.
Proof.
  unfold _group_generator_next. destruct (gg_queue s).
  - destruct (_check_cycle fuel G (gg_visited s)) eqn:E; try discriminate.
    intros H. injection H as <-. eapply _check_cycle_headed, E.
  - apply _group_generator_batch_headed.
Qed.

Lemma flatten_next_ok (graph : graph_t) graph_type fuel (G : graph_t)
    sort_groups :
  forall k s,
    next_ok graph graph_type G (flatten_next fuel k G sort_groups s).
Proof.
  induction k as [|k IH]; intros s; [exact I|].
  cbn [flatten_next].
  destruct (_group_generator_next fuel G sort_groups s)
    as [[|x g] s'|  |e|] eqn:E; try exact I.
  - apply IH.
  - reflexivity.
  - eapply _group_generator_next_headed, E.
Qed.

Lemma topological_sort_generator_next_ok fuel (graph : graph_t)
    return_type sort_groups graph_type s :
  NoDup (Dict.keys graph) ->
  next_ok graph graph_type (tsg_graph graph graph_type s)
    (topological_sort_generator_next fuel graph return_type sort_groups
       graph_type s).
Proof.
  intros nd.
  assert (N : forall G s0,
             next_ok graph graph_type G
               match _node_generator_next fuel G s0 with
               | Yield x s' => Yield (Node x) (TsgNodes G s')
               | Stop => Stop
               | Fail e => Fail e
               | Spin => Spin
               end).
  { intros G s0. destruct (_node_generator_next fuel G s0) eqn:E;
      try exact I; [reflexivity|].
    eapply _node_generator_next_headed, E. }
  assert (Gr : forall G s0,
             next_ok graph graph_type G
               match _group_generator_next fuel G sort_groups s0 with
               | Yield g s' => Yield (Group g) (TsgGroups G s')
               | Stop => Stop
               | Fail e => Fail e
               | Spin => Spin
               end).
  { intros G s0. destruct (_group_generator_next fuel G sort_groups s0) eqn:E;
      try exact I; [reflexivity|].
    eapply _group_generator_next_headed, E. }
  destruct s as [|G s0|G [|x buf] s0|G s0];
    cbn [topological_sort_generator_next tsg_graph].
  - destruct (@normalise_spec NT PN graph graph_type nd)
      as (G & ind & EN & _).
    rewrite (@canonical_eq NT PN graph G ind graph_type EN), EN.
    destruct (return_type =? "nodes"); [destruct sort_groups|].
    + apply flatten_next_ok.
    + apply N.
    + apply Gr.
  - apply N.
  - apply flatten_next_ok.
  - reflexivity.
  - apply Gr.
Qed.

Lemma drain_headed fuel (graph : graph_t) return_type sort_groups
    graph_type :
  NoDup (Dict.keys graph) ->
  forall n s e,
    drain n
      (topological_sort_generator_next fuel graph return_type sort_groups
         graph_type) s = Raise e ->
    headed (fun x => In x (Dict.keys (tsg_graph graph graph_type s))) e.
Proof.
  intros nd. induction n as [|n IH]; intros s e E; [discriminate|].
  cbn [drain] in E.
  pose proof (@topological_sort_generator_next_ok fuel graph return_type
                sort_groups graph_type s nd) as H.
  destruct (topological_sort_generator_next fuel graph return_type
              sort_groups graph_type s) as [a s'| |e'|];
    try discriminate; cbn [next_ok] in H.
  - destruct (drain n _ s') as [l|e'|] eqn:E'; cbn [bind] in E;
      try discriminate.
    injection E as <-. rewrite <- H. apply (IH s' e' E').
  - injection E as <-. exact H.
Qed.
End BreadthFirstRaise.

Section ReportedCycle.
Context {NT : Type} {PN : PyNode NT}.
Local Abbreviation graph_t := (Dict.dict NT (list NT)).
Local Abbreviation gget := (Dict.get node_eq_dec).

(** The edges of the canonical graph, read off the input: the listed
    neighbours of a key for "edges", the keys listing a node for
    "dependencies", self-references left out. *)
Lemma canonical_edge_iff (graph : graph_t) (graph_type : string) :
  NoDup (Dict.keys graph) ->
  forall u v,
    edge (canonical graph graph_type) u v <->
    if graph_type =? "dependencies"
    then exists ds, In (v, ds) graph /\ In u ds /\ u <> v
    else exists ns, In (u, ns) graph /\ In v ns /\ v <> u.
Proof.
  intros nd u v. unfold canonical, normalise.
  destruct (graph_type =? "dependencies").
  - destruct (_get_edges_from_dependencies_spec graph) as (G & ind & E & R).
    rewrite E. cbn [fst].
    destruct (@reversed_wf NT PN graph G ind R) as (_ & _ & H). apply H.
  - destruct (@_prepare_graph_spec NT PN graph nd) as (G & ind & E & P).
    rewrite E. cbn [fst].
    destruct (@prepared_wf NT PN graph G ind nd P) as (_ & _ & H). apply H.
Qed.

Lemma _dfs_topological_sort_reported (graph : graph_t) fuel graph_type e :
  NoDup (Dict.keys graph) ->
  _dfs_topological_sort fuel graph graph_type = Raise e ->
  reported graph (input_node graph) e.
Proof.
  intros nd. unfold _dfs_topological_sort.
  destruct (@normalise_spec NT PN graph graph_type nd)
    as (G & ind & EN & W & K).
  rewrite EN. cbn [bind fst].
  match goal with
  | |- (let* st := ?loop in _) = _ -> _ => destruct loop as [st|e'|] eqn:EL
  end; cbn [bind]; try discriminate.
  intros H. injection H as <-.
  apply (@_dfs_topological_sort_loop_reported NT PN graph G
           (input_node graph)) with (4 := EL).
  - intros x i. left. exact i.
  - intros u ns v E i. apply K. apply (wf_closed W u v).
    apply edge_iff. eauto.
  - intros v i. apply K, i.
Qed.

Lemma topological_sort_dfs_raise (graph : graph_t) fuel return_type
    sort_groups graph_type c msg :
  topological_sort fuel graph "dfs" return_type sort_groups graph_type
  = Raise (CycleError c msg) ->
  _dfs_topological_sort fuel graph graph_type = Raise (CycleError c msg).
Proof.
  unfold topological_sort, _validate_return_type, _validate_graph_type.
  destruct ((return_type =? "nodes") || (return_type =? "groups"));
    cbn [bind]; [|discriminate].
  destruct ((graph_type =? "edges") || (graph_type =? "dependencies"));
    cbn [bind]; [|discriminate].
  cbn [String.eqb Ascii.eqb Bool.eqb].
  destruct (negb (return_type =? "nodes")); [discriminate|].
  destruct sort_groups; [discriminate|].
  destruct (_dfs_topological_sort fuel graph graph_type); cbn [bind];
    [discriminate | intros H; injection H as ->; reflexivity | discriminate].
Qed.

End ReportedCycle.

(** ** The repository's tests *)

Example test_topological_sort_bfs :
  topological_sort 20 TEST_GRAPH "bfs" "nodes" false "edges"
    = Ok (map Node ["D"; "B"; "C"; "A"; "E"])
  /\ topological_sort 20 INV_TEST_GRAPH "bfs" "nodes" false "edges"
    = Ok (map Node ["A"; "E"; "B"; "C"; "D"])
  /\ topological_sort 20 TEST_GRAPH "bfs" "nodes" false "dependencies"
    = Ok (map Node ["A"; "E"; "B"; "C"; "D"])
  /\ topological_sort 20 INV_TEST_GRAPH "bfs" "nodes" false "dependencies"
    = Ok (map Node ["D"; "B"; "C"; "A"; "E"]).
Proof. repeat split; vm_compute; reflexivity. Qed.

Example test_topological_sort_dfs :
  topological_sort 20 TEST_GRAPH "dfs" "nodes" false "edges"
    = Ok (map Node ["D"; "C"; "E"; "B"; "A"])
  /\ topological_sort 20 INV_TEST_GRAPH "dfs" "nodes" false "edges"
    = Ok (map Node ["E"; "A"; "C"; "B"; "D"])
  /\ topological_sort 20 TEST_GRAPH "dfs" "nodes" false "dependencies"
    = Ok (map Node ["E"; "A"; "C"; "B"; "D"])
  /\ topological_sort 20 INV_TEST_GRAPH "dfs" "nodes" false "dependencies"
    = Ok (map Node ["D"; "C"; "E"; "B"; "A"]).
Proof. repeat split; vm_compute; reflexivity. Qed.

Example test_group_return_type :
  topological_sort 20 TEST_GRAPH "bfs" "groups" false "edges"
    = Ok (map Group [["D"]; ["B"; "C"]; ["A"; "E"]])
  /\ topological_sort 20 INV_TEST_GRAPH "bfs" "groups" false "edges"
    = Ok (map Group [["A"; "E"]; ["B"; "C"]; ["D"]])
  /\ topological_sort 20 TEST_GRAPH "bfs" "groups" false "dependencies"
    = Ok (map Group [["A"; "E"]; ["B"; "C"]; ["D"]])
  /\ topological_sort 20 INV_TEST_GRAPH "bfs" "groups" false "dependencies"
    = Ok (map Group [["D"]; ["B"; "C"]; ["A"; "E"]]).
Proof. repeat split; vm_compute; reflexivity. Qed.

Example test_sort_groups :
  topological_sort 20 TEST_GRAPH "bfs" "nodes" true "edges"
    = Ok (map Node ["D"; "B"; "C"; "A"; "E"])
  /\ topological_sort 20 INV_TEST_GRAPH "bfs" "nodes" true "edges"
    = Ok (map Node ["A"; "E"; "B"; "C"; "D"])
  /\ topological_sort 20 TEST_GRAPH "bfs" "groups" true "edges"
    = Ok (map Group [["D"]; ["B"; "C"]; ["A"; "E"]])
  /\ topological_sort 20 INV_TEST_GRAPH "bfs" "groups" true "edges"
    = Ok (map Group [["A"; "E"]; ["B"; "C"]; ["D"]]).
Proof. repeat split; vm_compute; reflexivity. Qed.

Example test_cycle_error :
  topological_sort 20 CYCLE_TEST_GRAPH "bfs" "nodes" false "edges"
    = Raise (CycleError ["D"; "B"; "A"; "D"]
               "Cycle detected in graph: D -> B -> A -> D.")
  /\ topological_sort 20 CYCLE_TEST_GRAPH "dfs" "nodes" false "edges"
    = Raise (CycleError ["D"; "B"; "A"; "D"]
               "Cycle detected in graph: D -> B -> A -> D.").
Proof. repeat split; vm_compute; reflexivity. Qed.

(** ** The claims *)

Lemma TEST_GRAPH_acyclic : acyclic (canonical TEST_GRAPH "edges").
Proof. apply (@ranked_acyclic string _ TEST_GRAPH_rank). vm_compute. reflexivity. Qed.

Lemma TEST_GRAPH_keys : NoDup (Dict.keys TEST_GRAPH).
Proof. repeat constructor; simpl; intuition discriminate. Qed.

Lemma INT_CYCLE_keys : NoDup (Dict.keys INT_CYCLE).
Proof. repeat constructor; simpl; intuition discriminate. Qed.

Lemma LOOP_GRAPH_keys : NoDup (Dict.keys LOOP_GRAPH).
Proof. repeat constructor; simpl; intuition discriminate. Qed.

Section Claims.
Context {NT : Type} {PN : PyNode NT}.
Local Abbreviation graph_t := (Dict.dict NT (list NT)).

(** C1.  For an acyclic input, either method, either graph type and
    either value of [sort_groups], the flat result of [topological_sort]
    is a permutation of the keys of the canonical graph: no node twice,
    none missing, as many as the canonical graph has keys; and these are
    the nodes of the input, its keys and everything its lists name.
    There is such a result for every choice but [method="dfs"] with
    [sort_groups] set, which the facade rejects. *)
Theorem topological_sort_flat_is_permutation :
  forall (graph : graph_t) (method : string) (sort_groups : bool)
         (graph_type : string) (fuel : nat),
    NoDup (Dict.keys graph) ->
    graph_type = "edges" \/ graph_type = "dependencies" ->
    method = "bfs" \/ method = "dfs" ->
    acyclic (canonical graph graph_type) ->
    List.length (canonical graph graph_type) < fuel ->
    (method = "dfs" /\ sort_groups = true
     /\ exists msg,
          topological_sort fuel graph method "nodes" sort_groups graph_type
          = Raise (ValueError msg))
    \/ exists L,
         topological_sort fuel graph method "nodes" sort_groups graph_type
         = Ok (map Node L)
         /\ Permutation L (Dict.keys (canonical graph graph_type))
         /\ NoDup L
         /\ List.length L = List.length (canonical graph graph_type)
         /\ forall v, In v L <-> input_node graph v.
Proof.
  intros graph method sg gt fuel nd Hgt Hm ac Hf.
  assert (Hm' : (method = "dfs" /\ sg = true)
                \/ (method = "bfs" \/ (method = "dfs" /\ sg = false))).
  { destruct Hm as [->| ->]; [auto|]. destruct sg; auto. }
  destruct Hm' as [[-> ->]|Hm'].
  { left. split; [reflexivity|]. split; [reflexivity|]. eexists.
    destruct Hgt as [->| ->]; reflexivity. }
  right.
  destruct (@normalise_spec NT PN graph gt nd) as (G & ind & EN & W & K).
  rewrite (@canonical_eq NT PN graph G ind gt EN) in *.
  destruct (@topological_sort_nodes_spec NT PN graph G ind method sg gt fuel
              Hgt Hm' EN W ac Hf)
    as (L & E & P & _).
  exists L. split; [exact E|]. split; [exact P|]. split; [|split].
  - eapply Permutation_NoDup; [symmetry; exact P | apply (wf_nodup W)].
  - rewrite (Permutation_length P). apply length_map.
  - intros v. rewrite <- K. split; apply Permutation_in; [|symmetry]; exact P.
Qed.

(** C2.  For an acyclic input and an edge [u -> v] of its canonical
    graph: [u] is before [v] in the flat result of either method (of
    every call but [method="dfs"] with [sort_groups] set, which the
    facade rejects), and in the groups result the batch of [u] is before
    the batch of [v], each node being in one batch only. *)
Theorem topological_sort_respects_edges :
  forall (graph : graph_t) (sort_groups : bool) (graph_type : string)
         (fuel : nat) (u v : NT),
    NoDup (Dict.keys graph) ->
    graph_type = "edges" \/ graph_type = "dependencies" ->
    acyclic (canonical graph graph_type) ->
    List.length (canonical graph graph_type) < fuel ->
    edge (canonical graph graph_type) u v ->
    (forall method,
        method = "bfs" \/ method = "dfs" ->
        (method = "dfs" /\ sort_groups = true
         /\ exists msg,
              topological_sort fuel graph method "nodes" sort_groups
                graph_type = Raise (ValueError msg))
        \/ exists L,
             topological_sort fuel graph method "nodes" sort_groups
               graph_type = Ok (map Node L)
             /\ precedes u v L)
    /\ exists Bs,
         topological_sort fuel graph "bfs" "groups" sort_groups graph_type
         = Ok (map Group Bs)
         /\ batch_precedes u v Bs
         /\ NoDup (List.concat Bs).
Proof.
  intros graph sg gt fuel u v nd Hgt ac Hf e.
  destruct (@normalise_spec NT PN graph gt nd) as (G & ind & EN & W & K).
  rewrite (@canonical_eq NT PN graph G ind gt EN) in *. split.
  - intros method Hm.
    assert (Hm' : (method = "dfs" /\ sg = true)
                  \/ (method = "bfs" \/ (method = "dfs" /\ sg = false))).
    { destruct Hm as [->| ->]; [auto|]. destruct sg; auto. }
    destruct Hm' as [[-> ->]|Hm'].
    { left. split; [reflexivity|]. split; [reflexivity|]. eexists.
      destruct Hgt as [->| ->]; reflexivity. }
    right.
    destruct (@topological_sort_nodes_spec NT PN graph G ind method sg gt fuel
                Hgt Hm' EN W ac Hf)
      as (L & E & _ & H).
    exists L. auto.
  - destruct (@topological_sort_groups_spec NT PN graph G ind sg gt fuel
                  Hgt EN W ac Hf)
      as (Bs & E & P & H).
    exists Bs. split; [exact E|]. split; [auto|].
    eapply Permutation_NoDup; [symmetry; exact P | apply (wf_nodup W)].
Qed.

(** C5 (amended).  [topological_sort] raises [ValueError] whatever the
    graph and before touching it: for a [return_type] other than "nodes"
    and "groups", then for a [graph_type] other than "edges" and
    "dependencies", then for a [method] other than "bfs" and "dfs"; the
    messages of these three name the offending value and the two allowed
    ones.  For [method="dfs"] with [return_type="groups"] the message is
    a fixed text that names the allowed return type "nodes" only, and
    with [sort_groups] set it is a fixed text that names no value. *)
Theorem topological_sort_invalid_arguments :
  forall (method return_type : string) (sort_groups : bool)
         (graph_type : string),
    (return_type <> "nodes" -> return_type <> "groups" ->
     exists msg,
       mentions msg return_type /\ mentions msg "nodes"
       /\ mentions msg "groups"
       /\ forall fuel (graph : Dict.dict NT (list NT)),
            topological_sort fuel graph method return_type sort_groups
              graph_type = Raise (ValueError msg))
    /\ (return_type = "nodes" \/ return_type = "groups" ->
        graph_type <> "edges" -> graph_type <> "dependencies" ->
        exists msg,
          mentions msg graph_type /\ mentions msg "edges"
          /\ mentions msg "dependencies"
          /\ forall fuel (graph : Dict.dict NT (list NT)),
               topological_sort fuel graph method return_type sort_groups
                 graph_type = Raise (ValueError msg))
    /\ (return_type = "nodes" \/ return_type = "groups" ->
        graph_type = "edges" \/ graph_type = "dependencies" ->
        method <> "bfs" -> method <> "dfs" ->
        exists msg,
          mentions msg method /\ mentions msg "bfs" /\ mentions msg "dfs"
          /\ forall fuel (graph : Dict.dict NT (list NT)),
               topological_sort fuel graph method return_type sort_groups
                 graph_type = Raise (ValueError msg))
    /\ (graph_type = "edges" \/ graph_type = "dependencies" ->
        forall fuel (graph : Dict.dict NT (list NT)),
          topological_sort fuel graph "dfs" "groups" sort_groups graph_type
            = Raise (ValueError
                ("If sort method is depth-first search, "
                 ++ "return type must be " ++ dq ++ "nodes" ++ dq ++ ".")))
    /\ (graph_type = "edges" \/ graph_type = "dependencies" ->
        forall fuel (graph : Dict.dict NT (list NT)),
          topological_sort fuel graph "dfs" "nodes" true graph_type
            = Raise (ValueError
                ("If sort method is depth-first search, "
                 ++ "cannot sort indegree groups."))).
Proof.
  intros method rt sg gt.
  split; [|split; [|split; [|split]]].
  - intros n1 n2. apply String.eqb_neq in n1, n2.
    eexists. split; [|split; [|split]].
    4: { intros fuel graph.
         unfold topological_sort, _validate_return_type.
         rewrite n1, n2. reflexivity. }
    all: repeat first [apply mentions_head | apply mentions_later].
  - intros Hrt n1 n2. apply String.eqb_neq in n1, n2.
    eexists. split; [|split; [|split]].
    4: { intros fuel graph.
         unfold topological_sort, _validate_return_type,
           _validate_graph_type.
         rewrite n1, n2. destruct Hrt as [-> | ->]; reflexivity. }
    all: repeat first [apply mentions_head | apply mentions_later].
  - intros Hrt Hgt n1 n2. apply String.eqb_neq in n1, n2.
    eexists. split; [|split; [|split]].
    4: { intros fuel graph.
         unfold topological_sort, _validate_return_type,
           _validate_graph_type.
         destruct Hrt as [-> | ->]; destruct Hgt as [-> | ->];
           cbn [String.eqb Ascii.eqb Bool.eqb orb bind];
           rewrite n1, n2; reflexivity. }
    all: repeat first [apply mentions_head | apply mentions_later].
  - intros Hgt fuel graph. destruct Hgt as [-> | ->]; reflexivity.
  - intros Hgt fuel graph. destruct Hgt as [-> | ->]; reflexivity.
Qed.

End Claims.

Lemma topological_sort_flat_is_permutation_witness :
  ("dfs" = "dfs" /\ false = true
   /\ exists msg,
        topological_sort 20 TEST_GRAPH "dfs" "nodes" false "edges"
        = Raise (ValueError msg))
  \/ exists L,
       topological_sort 20 TEST_GRAPH "dfs" "nodes" false "edges"
       = Ok (map Node L)
       /\ Permutation L (Dict.keys (canonical TEST_GRAPH "edges"))
       /\ NoDup L
       /\ List.length L = List.length (canonical TEST_GRAPH "edges")
       /\ forall v, In v L <-> input_node TEST_GRAPH v.
Proof.
  apply topological_sort_flat_is_permutation.
  - exact TEST_GRAPH_keys.
  - left. reflexivity.
  - right. reflexivity.
  - exact TEST_GRAPH_acyclic.
  - vm_compute. lia.
Defined.

Lemma topological_sort_respects_edges_witness :
  (forall method,
      method = "bfs" \/ method = "dfs" ->
      (method = "dfs" /\ false = true
       /\ exists msg,
            topological_sort 20 TEST_GRAPH method "nodes" false "edges"
            = Raise (ValueError msg))
      \/ exists L,
           topological_sort 20 TEST_GRAPH method "nodes" false "edges"
           = Ok (map Node L)
           /\ precedes "C" "E" L)
  /\ exists Bs,
       topological_sort 20 TEST_GRAPH "bfs" "groups" false "edges"
       = Ok (map Group Bs)
       /\ batch_precedes "C" "E" Bs
       /\ NoDup (List.concat Bs).
Proof.
  apply topological_sort_respects_edges.
  - exact TEST_GRAPH_keys.
  - left. reflexivity.
  - exact TEST_GRAPH_acyclic.
  - vm_compute. lia.
  - vm_compute. auto.
Defined.

Lemma topological_sort_invalid_arguments_witness :
  exists msg,
    mentions msg "cfs" /\ mentions msg "bfs" /\ mentions msg "dfs"
    /\ forall fuel (graph : Dict.dict string (list string)),
         topological_sort fuel graph "cfs" "nodes" false "edges"
         = Raise (ValueError msg).
Proof.
  apply (proj1 (proj2 (proj2
           (@topological_sort_invalid_arguments string _
              "cfs" "nodes" false "edges")))).
  - left. reflexivity.
  - left. reflexivity.
  - discriminate.
  - discriminate.
Defined.

(** C5, as the specification words it, fails for the two rejected
    combinations: neither message names the offending value, and the one
    for [sort_groups] names no allowed alternative either. *)
Lemma dfs_combination_messages_name_no_value :
  let m1 := ("If sort method is depth-first search, "
             ++ "return type must be " ++ dq ++ "nodes" ++ dq ++ ".")%string in
  let m2 := ("If sort method is depth-first search, "
             ++ "cannot sort indegree groups.")%string in
  topological_sort 0 (@nil (string * list string)) "dfs" "groups" false
    "edges" = Raise (ValueError m1)
  /\ ~ mentions m1 "groups" /\ ~ mentions m1 "dfs"
  /\ topological_sort 0 (@nil (string * list string)) "dfs" "nodes" true
       "edges" = Raise (ValueError m2)
  /\ ~ mentions m2 "True" /\ ~ mentions m2 "dfs"
  /\ ~ mentions m2 "False" /\ ~ mentions m2 "bfs".
Proof.
  cbv zeta.
  repeat match goal with
         | |- _ /\ _ => split
         | |- ~ mentions _ _ =>
             let H := fresh in
             intros H; apply mentions_mentionsb in H; vm_compute in H;
             discriminate H
         | |- _ = _ => reflexivity
         end.
Qed.

(** C4.  On the cyclic [SPIN_GRAPH] the breadth-first producers have
    nothing to yield, and at the exhaustion point the search for the cycle
    to report does not return under any budget: no [CycleError] is
    raised.  The depth-first producer reports the cycle E, F, E. *)
Theorem SPIN_GRAPH_bfs_raises_no_CycleError :
  forall (fuel : nat) (sort_groups : bool),
    topological_sort fuel SPIN_GRAPH "bfs" "nodes" sort_groups "edges"
      = Diverge
    /\ topological_sort fuel SPIN_GRAPH "bfs" "groups" sort_groups "edges"
      = Diverge
    /\ topological_sort (8 + fuel) SPIN_GRAPH "dfs" "nodes" false "edges"
      = Raise (CycleError ["E"; "F"; "E"]
                 "Cycle detected in graph: E -> F -> E.").
Proof.
  intros fuel sg.
  split; [|split]; [| |vm_compute; reflexivity];
    (destruct fuel as [|fuel]; [reflexivity|]);
    pose proof (SPIN_GRAPH_search_spins fuel 1) as [H _];
    unfold SPIN_GRAPH in H;
    unfold topological_sort, _bfs_topological_sort;
    destruct sg; cbn -[_get_cycle_dfs];
    rewrite _get_cycle_dfs_unfold; cbn -[_get_cycle_dfs];
    rewrite H; reflexivity.
Qed.

(** C6.  On the cyclic [KEY_GRAPH] the breadth-first method raises
    [CycleError] and the depth-first method raises [KeyError]: its cycle
    search runs on the input mapping, in which E is no key. *)
Theorem KEY_GRAPH_methods_disagree :
  forall k : nat,
    topological_sort (8 + k) KEY_GRAPH "bfs" "nodes" false "edges"
      = Raise (CycleError ["D"; "C"; "A"; "D"]
                 "Cycle detected in graph: D -> C -> A -> D.")
    /\ topological_sort (8 + k) KEY_GRAPH "dfs" "nodes" false "edges"
      = Raise (KeyError "E").
Proof. intros k. split; vm_compute; reflexivity. Qed.

(** C8.  With [method="dfs"] a self-reference changes what a cyclic input
    raises.  [LOOP_GRAPH] reports the self-reference B, B as the cycle,
    the same input without it reports B, A, B; on [LOOP_SPIN_GRAPH] the
    search never returns, without the self-reference it reports A, B, A.
    The breadth-first method gives the same answer with and without. *)
Theorem self_reference_changes_dfs_error :
  forall k : nat,
    topological_sort (8 + k) LOOP_GRAPH "dfs" "nodes" false "edges"
      = Raise (CycleError ["B"; "B"] "Cycle detected in graph: B -> B.")
    /\ topological_sort (8 + k) LOOP_GRAPH_removed "dfs" "nodes" false "edges"
      = Raise (CycleError ["B"; "A"; "B"]
                 "Cycle detected in graph: B -> A -> B.")
    /\ topological_sort k LOOP_SPIN_GRAPH "dfs" "nodes" false "edges"
      = Diverge
    /\ topological_sort (8 + k) LOOP_SPIN_GRAPH_removed "dfs" "nodes" false
         "edges"
      = Raise (CycleError ["A"; "B"; "A"]
                 "Cycle detected in graph: A -> B -> A.")
    /\ topological_sort (8 + k) LOOP_GRAPH "bfs" "nodes" false "edges"
      = topological_sort (8 + k) LOOP_GRAPH_removed "bfs" "nodes" false
          "edges".
Proof.
  intros k.
  split; [vm_compute; reflexivity|].
  split; [vm_compute; reflexivity|].
  split; [|split; vm_compute; reflexivity].
  do 3 (destruct k as [|k]; [reflexivity|]).
  unfold topological_sort, _dfs_topological_sort.
  cbn -[_get_cycle].
  rewrite LOOP_SPIN_GRAPH_get_cycle_spins. reflexivity.
Qed.

(** C7, as the specification words it, fails for the depth-first
    producer: its order on [TEST_GRAPH] puts E ahead of B. *)
Lemma TEST_GRAPH_dfs_puts_E_before_B :
  topological_sort 20 TEST_GRAPH "dfs" "nodes" false "edges"
    = Ok (map Node ["D"; "C"; "E"; "B"; "A"])
  /\ ~ precedes "B" "E" ["D"; "C"; "E"; "B"; "A"].
Proof.
  split; [vm_compute; reflexivity|].
  intros H. apply (precedes_precedesb string_dec) in H.
  vm_compute in H. discriminate.
Qed.

(** C7 (amended).  On [TEST_GRAPH] with [graph_type="edges"] every flat
    result, of either method, respects the five edges: D is before B and
    C, B is before A, and C is before A and E.  The breadth-first flat
    result is D, B, C, A, E, which also has B before E; the depth-first
    one is D, C, E, B, A.  With [return_type="groups"] the result is the
    three batches [D], [B, C], [A, E]. *)
Theorem TEST_GRAPH_scenario :
  forall (k : nat) (sort_groups : bool),
    (forall method L,
        topological_sort (6 + k) TEST_GRAPH method "nodes" sort_groups "edges"
          = Ok (map Node L) ->
        precedes "D" "B" L /\ precedes "D" "C" L /\ precedes "B" "A" L
        /\ precedes "C" "A" L /\ precedes "C" "E" L)
    /\ topological_sort (6 + k) TEST_GRAPH "bfs" "nodes" sort_groups "edges"
         = Ok (map Node ["D"; "B"; "C"; "A"; "E"])
    /\ precedes "B" "E" ["D"; "B"; "C"; "A"; "E"]
    /\ topological_sort (6 + k) TEST_GRAPH "dfs" "nodes" false "edges"
         = Ok (map Node ["D"; "C"; "E"; "B"; "A"])
    /\ topological_sort (6 + k) TEST_GRAPH "bfs" "groups" sort_groups "edges"
         = Ok (map Group [["D"]; ["B"; "C"]; ["A"; "E"]]).
Proof.
  intros k sg.
  assert (Hb : topological_sort (6 + k) TEST_GRAPH "bfs" "nodes" sg "edges"
               = Ok (map Node ["D"; "B"; "C"; "A"; "E"])).
  { destruct sg; vm_compute; reflexivity. }
  assert (Hd : topological_sort (6 + k) TEST_GRAPH "dfs" "nodes" false "edges"
               = Ok (map Node ["D"; "C"; "E"; "B"; "A"])).
  { vm_compute; reflexivity. }
  assert (inj : forall l1 l2 : list string,
             map Node l1 = map Node l2 -> l1 = l2).
  { induction l1; destruct l2; simpl; intros E; try discriminate; auto.
    injection E as -> E. f_equal. auto. }
  split; [|split; [exact Hb|split; [|split; [exact Hd|]]]].
  - intros method L H.
    destruct (String.eqb_spec method "bfs") as [->|nb].
    + rewrite Hb in H. injection H as H.
      apply (inj ["D"; "B"; "C"; "A"; "E"] L) in H. subst L.
      repeat split; apply (precedes_precedesb string_dec); reflexivity.
    + destruct (String.eqb_spec method "dfs") as [->|nd].
      * destruct sg.
        -- vm_compute in H. discriminate.
        -- rewrite Hd in H. injection H as H.
           apply (inj ["D"; "C"; "E"; "B"; "A"] L) in H. subst L.
           repeat split; apply (precedes_precedesb string_dec); reflexivity.
      * unfold topological_sort in H. simpl in H.
        apply String.eqb_neq in nb, nd. rewrite nb, nd in H. discriminate.
  - apply (precedes_precedesb string_dec); reflexivity.
  - destruct sg; vm_compute; reflexivity.
Qed.

Lemma TEST_GRAPH_scenario_witness :
  precedes "D" "B" ["D"; "C"; "E"; "B"; "A"]
  /\ precedes "D" "C" ["D"; "C"; "E"; "B"; "A"]
  /\ precedes "B" "A" ["D"; "C"; "E"; "B"; "A"]
  /\ precedes "C" "A" ["D"; "C"; "E"; "B"; "A"]
  /\ precedes "C" "E" ["D"; "C"; "E"; "B"; "A"].
Proof.
  apply (proj1 (TEST_GRAPH_scenario 0 false) "dfs").
  vm_compute. reflexivity.
Defined.

(** C9.  A [CycleError] raised with [method="dfs"] carries a path along
    the lists of the input mapping: each node of it is followed by one
    the input lists under it.  Apart from self-references these pairs
    are the canonical edges for "edges" and the reversed canonical edges
    for "dependencies"; [LOOP_GRAPH] and [DEP_CYCLE] report pairs that
    are no canonical edges. *)
Theorem dfs_cycle_follows_input_lists :
  (forall (NT : Type) (PN : PyNode NT) (graph : Dict.dict NT (list NT))
          (fuel : nat) (return_type : string) (sort_groups : bool)
          (graph_type : string) (c : list NT) (msg : string),
      NoDup (Dict.keys graph) ->
      topological_sort fuel graph "dfs" return_type sort_groups graph_type
      = Raise (CycleError c msg) ->
      forall a b,
        consecutive a b c ->
        (exists ns, In (a, ns) graph /\ In b ns)
        /\ (a <> b ->
            if graph_type =? "dependencies"
            then edge (canonical graph graph_type) b a
            else edge (canonical graph graph_type) a b))
  /\ (topological_sort 8 LOOP_GRAPH "dfs" "nodes" false "edges"
      = Raise (CycleError ["B"; "B"] "Cycle detected in graph: B -> B.")
      /\ consecutive "B" "B" ["B"; "B"]
      /\ ~ edge (canonical LOOP_GRAPH "edges") "B" "B")
  /\ (topological_sort 8 DEP_CYCLE "dfs" "nodes" false "dependencies"
      = Raise (CycleError ["A"; "B"; "C"; "A"]
                 "Cycle detected in graph: A -> B -> C -> A.")
      /\ consecutive "A" "B" ["A"; "B"; "C"; "A"]
      /\ ~ edge (canonical DEP_CYCLE "dependencies") "A" "B").
Proof.
  split; [|split].
  - intros NT PN graph fuel rt sg gt c msg nd E a b H.
    apply topological_sort_dfs_raise in E.
    destruct (@_dfs_topological_sort_reported NT PN graph fuel gt _ nd E
                c msg eq_refl) as [C _].
    destruct (chain_consecutive graph C H) as (ns & i & i').
    split; [eauto|]. intros ne.
    pose proof (@canonical_edge_iff NT PN graph gt nd) as CE.
    pose proof (CE b a) as CE'. specialize (CE a b).
    destruct (gt =? "dependencies").
    + apply CE'. exists ns. auto.
    + apply CE. exists ns. auto.
  - split; [vm_compute; reflexivity|]. split.
    + exists [], []. reflexivity.
    + vm_compute. intros [H|[]]. discriminate.
  - split; [vm_compute; reflexivity|]. split.
    + exists [], ["C"; "A"]. reflexivity.
    + vm_compute. intros [H|[]]. discriminate.
Qed.

Lemma dfs_cycle_follows_input_lists_witness :
  (exists ns, In ("B", ns) LOOP_GRAPH /\ In "B" ns)
  /\ ("B" <> "B" -> edge (canonical LOOP_GRAPH "edges") "B" "B").
Proof.
  apply (proj1 dfs_cycle_follows_input_lists string _ LOOP_GRAPH 8 "nodes"
           false "edges" ["B"; "B"] "Cycle detected in graph: B -> B.").
  - exact LOOP_GRAPH_keys.
  - vm_compute. reflexivity.
  - exists [], []. reflexivity.
Defined.

Example INT_CYCLE_raises_TypeError :
  forall k : nat,
    topological_sort (8 + k) INT_CYCLE "bfs" "nodes" false "edges"
    = Raise TypeError
    /\ topological_sort (8 + k) INT_CYCLE "dfs" "nodes" false "edges"
    = Raise TypeError.
Proof. intros k. split; vm_compute; reflexivity. Qed.

(** * Further properties of the code *)

(** ** What a returned result says about the graph *)

Section OrderAcyclic.
Context {A : Type}.
Variable R : A -> A -> Prop.

Lemma respects_reach (L : list A) :
  respects R L ->
  forall y x, clos_trans A R y x ->
              forall l1 l2, L = l1 ++ x :: l2 -> In y l1.
Proof.
  intros HR y x H. apply clos_trans_tn1 in H.
  induction H as [x r|z x r H IH]; intros l1 l2 E.
  - apply (HR l1 x l2 E y r).
  - pose proof (HR l1 x l2 E z r) as iz.
    apply in_split in iz. destruct iz as (a & b & ->).
    apply in_or_app. left. apply (IH a (b ++ x :: l2)).
    rewrite E, <- app_assoc. reflexivity.
Qed.

Lemma order_acyclic (L : list A) :
  NoDup L -> respects R L -> (forall x y, R y x -> In x L) ->
  forall x, ~ clos_trans A R x x.
Proof.
  intros nd HR tgt x cyc.
  assert (ix : In x L).
  { apply clos_trans_tn1 in cyc. destruct cyc as [r|z w r _];
      eapply tgt; eassumption. }
  apply in_split in ix. destruct ix as (l1 & l2 & E).
  pose proof (respects_reach HR cyc l1 l2 E) as i.
  rewrite E in nd. apply NoDup_remove_2 in nd.
  apply nd, in_or_app. left. exact i.
Qed.

Lemma clos_trans_flip (x y : A) :
  clos_trans A R x y -> clos_trans A (fun a b => R b a) y x.
Proof.
  induction 1 as [x y r|x y z _ IH1 _ IH2].
  - apply t_step. exact r.
  - eapply t_trans; eassumption.
Qed.
End OrderAcyclic.

Section KahnAny.
Context {NT : Type} {PN : PyNode NT}.
Local Abbreviation graph_t := (Dict.dict NT (list NT)).

Variable G : graph_t.
Hypothesis G_nodup : NoDup (Dict.keys G).
Hypothesis G_closed : forall u v, edge G u v -> In v (Dict.keys G).

Lemma kahn_full D ind :
  kahn_inv G D [] ind -> List.length G <= List.length D ->
  Permutation D (Dict.keys G).
Proof.
  intros K len. pose proof (ki_nodup K) as nd. rewrite app_nil_r in nd.
  apply NoDup_Permutation_bis; [exact nd | |].
  - unfold Dict.keys. rewrite length_map. exact len.
  - intros v i. apply (ki_keys K). rewrite app_nil_r. exact i.
Qed.

Lemma _check_cycle_Ok fuel visited u :
  _check_cycle fuel G visited = Ok u -> List.length G <= List.length visited.
Proof.
  unfold _check_cycle.
  destruct (List.length visited <? List.length G)%nat eqn:E.
  - destruct (_get_cycle fuel _ None); discriminate.
  - intros _. apply Nat.ltb_ge in E. exact E.
Qed.

(** One [next] of the node generator, whatever the graph. *)
Lemma node_next_any (fuel : nat) (s : node_gen) :
  node_inv G s ->
  match _node_generator_next fuel G s with
  | Yield y s' =>
      node_inv G s'
      /\ ng_visited s' = ng_visited s ++ [y]
      /\ forall u, edge G u y -> In u (ng_visited s)
  | Stop => Permutation (ng_visited s) (Dict.keys G)
  | _ => True
  end.
Proof.
  intros I.
  assert (X : exists ind' q',
             match ng_yielded s with
             | None => Ok (ng_indegree s, ng_queue s)
             | Some node =>
                 match Dict.get node_eq_dec G node with
                 | None => Raise (KeyError node)
                 | Some neighbours =>
                     Ok (release neighbours (ng_indegree s) (ng_queue s))
                 end
             end = @Ok NT _ (ind', q')
             /\ kahn_inv G (ng_visited s) q' ind').
  { unfold node_inv in I. destruct (ng_yielded s) as [x|].
    - destruct I as (D & EV & K).
      assert (kx : In x (Dict.keys G)).
      { apply (ki_keys K). apply in_or_app. right. left. reflexivity. }
      apply (key_get node_eq_dec) in kx. destruct kx as (nbs & E).
      rewrite E.
      destruct (kahn_step (ng_queue s) G_nodup G_closed K E)
        as (new & ER & K').
      exists (fst (release nbs (ng_indegree s) (ng_queue s))),
             (ng_queue s ++ new).
      split; [rewrite <- ER; destruct (release _ _ _); reflexivity|].
      rewrite EV. exact K'.
    - destruct I as [EV K]. exists (ng_indegree s), (ng_queue s).
      rewrite EV. auto. }
  destruct X as (ind' & q' & E & K).
  unfold _node_generator_next. rewrite E.
  destruct q' as [|y q'].
  - destruct (_check_cycle fuel G (ng_visited s)) as [u|e|] eqn:EC;
      [|exact Logic.I|exact Logic.I].
    eapply kahn_full; [exact K|]. eapply _check_cycle_Ok, EC.
  - assert (ny : ~ In y (ng_visited s)).
    { pose proof (ki_nodup K) as H. apply NoDup_remove_2 in H.
      intros i. apply H, in_or_app. left. exact i. }
    rewrite (sadd_new _ _ ny). cbn [ng_visited].
    split; [|split; [reflexivity|]].
    + unfold node_inv. cbn. exists (ng_visited s). auto.
    + intros u e. eapply kahn_preds_done; [exact K | | exact e].
      apply in_or_app. right. left. reflexivity.
Qed.

(** One [next] of the group generator, whatever the graph. *)
Lemma group_next_any (fuel : nat) (sort_groups : bool) (s : group_gen) :
  group_inv G s ->
  match _group_generator_next fuel G sort_groups s with
  | Yield B s' =>
      gg_queue s <> []
      /\ B = (if sort_groups then sorted (gg_queue s) else gg_queue s)
      /\ gg_visited s' = gg_visited s ++ gg_queue s
      /\ group_inv G s'
  | Stop => Permutation (gg_visited s) (Dict.keys G)
  | _ => True
  end.
Proof.
  unfold group_inv, _group_generator_next. intros K.
  destruct (gg_queue s) as [|x q] eqn:EQ.
  - destruct (_check_cycle fuel G (gg_visited s)) as [u|e|] eqn:EC;
      [|exact I|exact I].
    eapply kahn_full; [exact K|]. eapply _check_cycle_Ok, EC.
  - destruct (@batch_spec NT PN G G_nodup G_closed sort_groups (x :: q)
                (gg_indegree s) (gg_visited s) [] [])
      as (s' & EB & EV & I'); [discriminate | |].
    + rewrite app_nil_r. exact K.
    + rewrite EB. cbn [app]. split; [discriminate|]. auto.
Qed.

Lemma group_batch_perm (sort_groups : bool) (q : list NT) :
  Permutation (if sort_groups then sorted q else q) q.
Proof. destruct sort_groups; [apply sorted_perm | reflexivity]. Qed.

Section Drains.
Variables (fuel' : nat) (graph : graph_t) (return_type : string)
          (sort_groups : bool) (graph_type : string).

Local Abbreviation next :=
  (topological_sort_generator_next fuel' graph return_type sort_groups
     graph_type).

(** The nodes pulled from a node generator, as far as the pulls go. *)
Lemma pull_nodes_any :
  forall (n : nat) (s : node_gen) res,
    node_inv G s -> respects (edge G) (ng_visited s) ->
    pull n next (TsgNodes G s) = Ok res ->
    exists L,
      res = map Node L
      /\ NoDup (ng_visited s ++ L)
      /\ (forall v, In v (ng_visited s ++ L) -> In v (Dict.keys G))
      /\ respects (edge G) (ng_visited s ++ L).
Proof.
  induction n as [|n IH]; intros s res I R E.
  - injection E as <-. exists []. rewrite app_nil_r.
    destruct (node_inv_visited G s I) as [nd sub]. auto.
  - cbn [pull topological_sort_generator_next] in E.
    pose proof (@node_next_any fuel' s I) as H.
    destruct (_node_generator_next fuel' G s) as [y s'| |e|];
      try discriminate.
    + destruct H as (I' & EV & Hy).
      destruct (pull n next (TsgNodes G s')) as [rest|e|] eqn:ED;
        try discriminate.
      cbn [bind] in E. injection E as <-.
      destruct (IH s' rest I') as (L & -> & nd & sub & R'); [|exact ED|].
      * rewrite EV. apply respects_snoc; assumption.
      * exists (y :: L). rewrite EV, <- app_assoc in nd, sub, R'.
        auto.
    + injection E as <-. exists []. rewrite app_nil_r.
      destruct (node_inv_visited G s I) as [nd sub]. auto.
Qed.

Lemma drain_nodes_any :
  forall (fuel : nat) (s : node_gen) res,
    node_inv G s -> respects (edge G) (ng_visited s) ->
    drain fuel next (TsgNodes G s) = Ok res ->
    exists L,
      res = map Node L
      /\ Permutation (ng_visited s ++ L) (Dict.keys G)
      /\ respects (edge G) (ng_visited s ++ L).
Proof.
  induction fuel as [|fuel IH]; intros s res I R E; [discriminate|].
  cbn [drain topological_sort_generator_next] in E.
  pose proof (@node_next_any fuel' s I) as H.
  destruct (_node_generator_next fuel' G s) as [y s'| |e|];
    try discriminate.
  - destruct H as (I' & EV & Hy).
    destruct (drain fuel next (TsgNodes G s')) as [rest|e|] eqn:ED;
      try discriminate.
    cbn [bind] in E. injection E as <-.
    destruct (IH s' rest I') as (L & -> & P & R'); [|exact ED|].
    + rewrite EV. apply respects_snoc; assumption.
    + exists (y :: L). rewrite EV, <- app_assoc in P, R'. auto.
  - injection E as <-. exists []. rewrite app_nil_r. auto.
Qed.

Lemma drain_groups_any :
  forall (fuel : nat) (s : group_gen) res,
    group_inv G s ->
    drain fuel next (TsgGroups G s) = Ok res ->
    exists Bs,
      res = map Group Bs
      /\ Permutation (gg_visited s ++ List.concat Bs) (Dict.keys G)
      /\ layers (edge G) (gg_visited s) Bs.
Proof.
  induction fuel as [|fuel IH]; intros s res I E; [discriminate|].
  cbn [drain topological_sort_generator_next] in E.
  pose proof (@group_next_any fuel' sort_groups s I) as H.
  destruct (_group_generator_next fuel' G sort_groups s) as [B s'| |e|];
    try discriminate.
  - destruct H as (ne & EB & EV & I').
    assert (P : Permutation B (gg_queue s))
      by (rewrite EB; apply group_batch_perm).
    destruct (@group_step_facts NT PN G G_nodup s s' B I ne P EV I')
      as (neB & pre & len & bound & same).
    destruct (drain fuel next (TsgGroups G s')) as [rest|e|] eqn:ED;
      try discriminate.
    cbn [bind] in E. injection E as <-.
    destruct (IH s' rest I' ED) as (Bs & -> & P' & Ls).
    exists (B :: Bs). split; [reflexivity|]. split.
    + cbn [List.concat]. rewrite app_assoc, <- P'.
      apply Permutation_app_tail. rewrite EV.
      apply Permutation_app_head. exact P.
    + cbn [layers]. split; [exact pre|].
      eapply layers_ext; [|exact Ls]. intros x. apply same.
  - injection E as <-. exists []. cbn [List.concat map layers].
    rewrite app_nil_r. auto.
Qed.

Lemma drain_flatten_any :
  forall (fuel : nat) (s : group_gen) (buf : list NT) res,
    group_inv G s ->
    drain fuel next (TsgFlatten G buf s) = Ok res ->
    exists Bs,
      res = map Node (buf ++ List.concat Bs)
      /\ Permutation (gg_visited s ++ List.concat Bs) (Dict.keys G)
      /\ layers (edge G) (gg_visited s) Bs.
Proof.
  assert (F : forall k s,
             group_inv G s ->
             match flatten_next fuel' k G sort_groups s with
             | Yield a t =>
                 exists x B s',
                   a = Node x /\ t = TsgFlatten G B s'
                   /\ gg_queue s <> []
                   /\ Permutation (x :: B) (gg_queue s)
                   /\ gg_visited s' = gg_visited s ++ gg_queue s
                   /\ group_inv G s'
             | Stop => Permutation (gg_visited s) (Dict.keys G)
             | _ => True
             end).
  { induction k as [|k IHk]; intros s I; [exact Logic.I|].
    cbn [flatten_next].
    pose proof (@group_next_any fuel' sort_groups s I) as H.
    destruct (_group_generator_next fuel' G sort_groups s) as [B s'| |e|];
      try exact Logic.I; [|exact H].
    destruct H as (ne & EB & EV & I').
    assert (P : Permutation B (gg_queue s))
      by (rewrite EB; apply group_batch_perm).
    destruct B as [|x B].
    - apply Permutation_nil in P. contradiction.
    - exists x, B, s'. auto 10. }
  induction fuel as [|fuel IH]; intros s buf res I E; [discriminate|].
  destruct buf as [|x buf]; cbn [drain topological_sort_generator_next] in E.
  - pose proof (F fuel' s I) as H.
    destruct (flatten_next fuel' fuel' G sort_groups s) as [a t| |e|];
      try discriminate.
    + destruct H as (x & B & s' & -> & -> & ne & P & EV & I').
      destruct (@group_step_facts NT PN G G_nodup s s' (x :: B) I ne P EV I')
        as (neB & pre & len & bound & same).
      destruct (drain fuel next (TsgFlatten G B s')) as [rest|e|] eqn:ED;
        try discriminate.
      cbn [bind] in E. injection E as <-.
      destruct (IH s' B rest I' ED) as (Bs & -> & P' & Ls).
      exists ((x :: B) :: Bs). split; [reflexivity|]. split.
      * cbn [List.concat]. rewrite app_assoc, <- P'.
        apply Permutation_app_tail. rewrite EV.
        apply Permutation_app_head. exact P.
      * cbn [layers]. split; [exact pre|].
        eapply layers_ext; [|exact Ls]. intros y. apply same.
    + injection E as <-. exists []. cbn [List.concat map layers app].
      rewrite app_nil_r. auto.
  - destruct (drain fuel next (TsgFlatten G buf s)) as [rest|e|] eqn:ED;
      try discriminate.
    cbn [bind] in E. injection E as <-.
    destruct (IH s buf rest I ED) as (Bs & -> & P' & Ls).
    exists Bs. auto.
Qed.
End Drains.
End KahnAny.

Section DepthFirstAny.
Context {NT : Type} {PN : PyNode NT}.
Local Abbreviation graph_t := (Dict.dict NT (list NT)).
Local Abbreviation smem := (set_mem node_eq_dec).

Variables graph G : graph_t.

Local Abbreviation settled := (dfs_settled G).

Lemma dfs_loop_any (dfs : NT -> dfs_state -> result NT dfs_state) :
  (forall nb st st',
      settled st -> ~ In nb (visited st) -> dfs nb st = Ok st' ->
      settled st'
      /\ currently_visiting st' = currently_visiting st
      /\ In nb (visited st')
      /\ forall v, In v (visited st) -> In v (visited st')) ->
  forall nbs st st',
    settled st ->
    _dfs_topological_sort_dfs_loop dfs nbs st = Ok st' ->
    settled st'
    /\ currently_visiting st' = currently_visiting st
    /\ (forall w, In w nbs -> In w (visited st'))
    /\ forall v, In v (visited st) -> In v (visited st').
Proof.
  intros Hdfs. induction nbs as [|nb rest IH]; intros st st' S E.
  - injection E as <-. splits; auto. intros w [].
  - cbn [_dfs_topological_sort_dfs_loop] in E.
    destruct (smem nb (visited st)) eqn:M.
    + destruct (IH st st' S E) as (S' & C & W & Mo).
      splits; auto. intros w [<-|i]; [|auto].
      apply Mo. apply smem_true. exact M.
    + apply smem_false in M.
      destruct (dfs nb st) as [st1|e|] eqn:E1; try discriminate.
      cbn [bind] in E.
      destruct (Hdfs nb st st1 S M E1) as (S1 & C1 & i1 & Mo1).
      destruct (IH st1 st' S1 E) as (S' & C & W & Mo).
      splits; auto.
      * congruence.
      * intros w [<-|i]; auto.
Qed.

Lemma dfs_any :
  forall fuel node st st',
    settled st -> ~ In node (visited st) ->
    _dfs_topological_sort_dfs fuel graph G node st = Ok st' ->
    settled st'
    /\ currently_visiting st' = currently_visiting st
    /\ In node (visited st')
    /\ forall v, In v (visited st) -> In v (visited st').
Proof.
  induction fuel as [|fuel IH]; intros node st st' S nv E; [discriminate|].
  cbn [_dfs_topological_sort_dfs] in E.
  destruct (smem node (currently_visiting st)) eqn:M.
  - destruct (_get_cycle fuel graph (Some node)); discriminate.
  - apply smem_false in M. rewrite (sadd_new _ _ M) in E.
    destruct (Dict.get node_eq_dec G node) as [nbs|] eqn:EG;
      [|discriminate].
    match type of E with
    | (let* st := ?loop in _) = _ => destruct loop as [st2|e2|] eqn:EL
    end; try discriminate.
    cbn [bind] in E.
    destruct S as [D Dis].
    assert (S1 : settled
                   {| sorted_list := sorted_list st; visited := visited st;
                      currently_visiting := currently_visiting st ++ [node] |}).
    { split; [exact D|]. cbn [currently_visiting visited].
      intros c i. apply in_app_or in i. destruct i as [i|[<-|[]]]; auto. }
    destruct (@dfs_loop_any (_dfs_topological_sort_dfs fuel graph G) IH nbs
                _ st2 S1 EL) as (S2 & C2 & W2 & Mo2).
    cbn [currently_visiting visited] in C2, Mo2.
    destruct S2 as [D2 Dis2].
    assert (ic : In node (currently_visiting st2)).
    { rewrite C2. apply in_or_app. right. left. reflexivity. }
    assert (M2 : smem node (currently_visiting st2) = true)
      by (apply smem_true; exact ic).
    rewrite M2 in E. injection E as <-.
    pose proof (Dis2 node ic) as nv2.
    destruct D2 as (EV & nd & sub & R).
    cbn [currently_visiting visited sorted_list].
    rewrite (sadd_new _ _ nv2), C2, (sremove_snoc _ _ M).
    splits; [split| | |].
    + unfold dfs_inv. cbn [visited sorted_list]. splits.
      * rewrite EV. reflexivity.
      * apply NoDup_app; [exact nd | repeat constructor; intros [] |].
        intros a i [<-|[]]. apply nv2. rewrite EV. exact i.
      * intros v i. apply in_app_or in i. destruct i as [i|[<-|[]]].
        -- apply sub, i.
        -- eapply get_Some_key, EG.
      * apply respects_snoc; [exact R|].
        intros y e. rewrite <- EV. apply W2.
        apply edge_iff in e. destruct e as (ns & E1 & i).
        rewrite EG in E1. injection E1 as <-. exact i.
    + cbn [currently_visiting visited]. intros c i i'.
      apply in_app_or in i'. destruct i' as [i'|[<-|[]]].
      * apply (Dis2 c); [|exact i']. rewrite C2. apply in_or_app. auto.
      * apply M, i.
    + reflexivity.
    + apply in_or_app. right. left. reflexivity.
    + intros v i. apply in_or_app. left. apply Mo2, i.
Qed.

Lemma dfs_top_loop_any fuel :
  forall nodes st st',
    settled st -> currently_visiting st = [] ->
    _dfs_topological_sort_loop fuel graph G nodes st = Ok st' ->
    settled st'
    /\ currently_visiting st' = []
    /\ (forall n, In n nodes -> In n (visited st'))
    /\ forall v, In v (visited st) -> In v (visited st').
Proof.
  induction nodes as [|n rest IH]; intros st st' S C E.
  - injection E as <-. splits; auto. intros w [].
  - cbn [_dfs_topological_sort_loop] in E.
    destruct (smem n (visited st)) eqn:M.
    + destruct (IH st st' S C E) as (S' & C' & W & Mo).
      splits; auto. intros w [<-|i]; [|auto].
      apply Mo. apply smem_true. exact M.
    + apply smem_false in M.
      destruct (_dfs_topological_sort_dfs fuel graph G n st)
        as [st1|e|] eqn:E1; try discriminate.
      cbn [bind] in E.
      destruct (dfs_any _ _ S M E1) as (S1 & C1 & i1 & Mo1).
      destruct (IH st1 st' S1) with (2 := E) as (S' & C' & W & Mo);
        [congruence|].
      splits; auto. intros w [<-|i]; auto.
Qed.

Lemma _dfs_topological_sort_loop_any fuel st :
  NoDup (Dict.keys G) ->
  _dfs_topological_sort_loop fuel graph G (Dict.keys G)
    {| sorted_list := []; visited := []; currently_visiting := [] |}
  = Ok st ->
  Permutation (rev (sorted_list st)) (Dict.keys G)
  /\ respects (fun w u => edge G u w) (sorted_list st).
Proof.
  intros ndG E.
  assert (S0 : settled
                 {| sorted_list := []; visited := [];
                    currently_visiting := [] |}).
  { split; [|intros c []]. unfold dfs_inv. cbn. splits; auto.
    - constructor.
    - intros v [].
    - apply respects_nil. }
  destruct (@dfs_top_loop_any fuel (Dict.keys G) _ st S0 eq_refl E)
    as (S & _ & W & _).
  destruct S as [(EV & nd & sub & R) _]. split; [|exact R].
  rewrite <- Permutation_rev.
  apply NoDup_Permutation; [exact nd | exact ndG |].
  intros v. split; [apply sub|]. intros i. rewrite <- EV. apply W, i.
Qed.
End DepthFirstAny.

Section PrecedesOrder.
Context {A : Type}.

Lemma NoDup_split_unique (x : A) (l1 l2 m1 m2 : list A) :
  NoDup (l1 ++ x :: l2) -> l1 ++ x :: l2 = m1 ++ x :: m2 -> l1 = m1.
Proof.
  revert m1. induction l1 as [|a l1 IH]; intros m1 nd E.
  - destruct m1 as [|b m1]; [reflexivity|].
    cbn in E. injection E as <- E. exfalso.
    rewrite E in nd. inversion nd as [|? ? ni _]. subst.
    apply ni, in_or_app. right. left. reflexivity.
  - destruct m1 as [|b m1]; cbn in E.
    + injection E as -> E. exfalso. cbn in nd.
      inversion nd as [|? ? ni _]. subst.
      apply ni, in_or_app. right. left. reflexivity.
    + injection E as <- E. f_equal. apply IH; [|exact E].
      cbn in nd. inversion nd. assumption.
Qed.

Lemma precedes_respects (R : A -> A -> Prop) (L : list A) :
  NoDup L -> (forall u v, R u v -> precedes u v L) -> respects R L.
Proof.
  intros nd H l1 x l2 E y r.
  destruct (H y x r) as (a & b & c & E').
  assert (E2 : l1 ++ x :: l2 = (a ++ y :: b) ++ x :: c).
  { rewrite <- E, E', <- app_assoc. reflexivity. }
  rewrite E in nd. rewrite (@NoDup_split_unique x l1 l2 _ _ nd E2).
  apply in_or_app. right. left. reflexivity.
Qed.

Lemma precedes_In (x y : A) (L : list A) :
  precedes x y L -> In x L /\ In y L.
Proof.
  intros (a & b & c & ->). split; apply in_or_app; right.
  - left. reflexivity.
  - right. apply in_or_app. right. left. reflexivity.
Qed.

Lemma precedes_acyclic (R : A -> A -> Prop) (L : list A) :
  NoDup L -> (forall u v, R u v -> precedes u v L) ->
  forall x, ~ clos_trans A R x x.
Proof.
  intros nd H. apply (@order_acyclic A R L nd).
  - apply precedes_respects; assumption.
  - intros x y r. apply (precedes_In (H y x r)).
Qed.
End PrecedesOrder.

Section ReturnedOrders.
Context {NT : Type} {PN : PyNode NT}.
Local Abbreviation graph_t := (Dict.dict NT (list NT)).

Lemma validated (graph : graph_t) fuel method return_type sort_groups
    graph_type res :
  topological_sort fuel graph method return_type sort_groups graph_type
  = Ok res ->
  (return_type = "nodes" \/ return_type = "groups")
  /\ (if method =? "bfs" then
        _bfs_topological_sort fuel graph return_type sort_groups graph_type
        = Ok res
      else
        return_type = "nodes" /\ sort_groups = false
        /\ exists l, _dfs_topological_sort fuel graph graph_type = Ok l
                     /\ res = map Node l).
Proof.
  unfold topological_sort, _validate_return_type, _validate_graph_type.
  destruct (return_type =? "nodes") eqn:E1;
    [|destruct (return_type =? "groups") eqn:E2]; cbn [orb bind negb];
    try discriminate.
  - apply String.eqb_eq in E1. subst return_type.
    destruct ((graph_type =? "edges") || (graph_type =? "dependencies"));
      cbn [bind]; [|discriminate].
    destruct (method =? "bfs"); [auto|].
    destruct (method =? "dfs"); [|discriminate].
    destruct sort_groups; [discriminate|].
    destruct (_dfs_topological_sort fuel graph graph_type) as [l|e|];
      cbn [bind]; try discriminate.
    intros E. injection E as <-. eauto 10.
  - apply String.eqb_eq in E2. subst return_type.
    destruct ((graph_type =? "edges") || (graph_type =? "dependencies"));
      cbn [bind]; [|discriminate].
    destruct (method =? "bfs"); [auto|].
    destruct (method =? "dfs"); discriminate.
Qed.

(** What a flat call returns, whatever the graph. *)
Lemma topological_sort_nodes_any (graph G : graph_t) ind fuel method
    sort_groups graph_type res :
  normalise graph graph_type = Ok (G, ind) -> wf_graph G ind ->
  topological_sort fuel graph method "nodes" sort_groups graph_type
  = Ok res ->
  exists L,
    res = map Node L
    /\ Permutation L (Dict.keys G)
    /\ forall u v, edge G u v -> precedes u v L.
Proof.
  intros EN W E.
  pose proof (wf_nodup W) as nd. pose proof (wf_closed W) as closed.
  apply validated in E. destruct E as [_ E].
  destruct (method =? "bfs").
  - unfold _bfs_topological_sort in E. destruct sort_groups.
    + rewrite (@drain_next_eq _ _ _ _ topological_sort_generator
                 (TsgFlatten G [] (_group_generator ind (initial_queue G ind))))
        in E.
      2: { unfold topological_sort_generator.
           cbn [topological_sort_generator_next]. rewrite EN. reflexivity. }
      destruct (@drain_flatten_any NT PN G nd closed fuel graph "nodes" true
                  graph_type fuel
                  (_group_generator ind (initial_queue G ind)) [] res
                  (kahn_init W) E)
        as (Bs & -> & P & Ls).
      cbn [gg_visited _group_generator app] in P, Ls.
      exists (List.concat Bs). split; [reflexivity|]. split; [exact P|].
      intros u v e. apply batch_precedes_concat.
      destruct (@layers_precedes NT (edge G) Bs [] v u Ls) as [[]|H];
        [|exact e|exact H].
      eapply Permutation_in; [symmetry; exact P|]. eapply closed, e.
    + rewrite (@drain_next_eq _ _ _ _ topological_sort_generator
                 (TsgNodes G (_node_generator ind (initial_queue G ind))))
        in E.
      2: { unfold topological_sort_generator.
           cbn [topological_sort_generator_next]. rewrite EN. reflexivity. }
      destruct (@drain_nodes_any NT PN G nd closed fuel graph "nodes" false
                  graph_type fuel
                  (_node_generator ind (initial_queue G ind)) res
                  (conj eq_refl (kahn_init W)) (@respects_nil _ _) E)
        as (L & -> & P & R).
      cbn [ng_visited _node_generator app] in P, R.
      exists L. split; [reflexivity|]. split; [exact P|].
      intros u v e. apply (@respects_precedes NT (edge G) L v u R); [|exact e].
      eapply Permutation_in; [symmetry; exact P|]. eapply closed, e.
  - destruct E as (_ & _ & l & E & ->).
    unfold _dfs_topological_sort in E. rewrite EN in E. cbn [bind fst] in E.
    match type of E with
    | (let* st := ?loop in _) = _ => destruct loop as [st|e|] eqn:EL
    end; try discriminate.
    cbn [bind] in E. injection E as <-.
    destruct (@_dfs_topological_sort_loop_any NT PN graph G fuel st nd EL)
      as [P R].
    exists (rev (sorted_list st)).
    split; [reflexivity|]. split; [exact P|].
    intros u v e. apply precedes_rev.
    apply (@respects_precedes NT (fun w u => edge G u w) (sorted_list st)
             u v R); [|exact e].
    apply in_rev. eapply Permutation_in; [symmetry; exact P|].
    eapply edge_source_key, e.
Qed.

(** What a call for groups returns, whatever the graph. *)
Lemma topological_sort_groups_any (graph G : graph_t) ind fuel method
    sort_groups graph_type res :
  normalise graph graph_type = Ok (G, ind) -> wf_graph G ind ->
  topological_sort fuel graph method "groups" sort_groups graph_type
  = Ok res ->
  exists Bs,
    res = map Group Bs
    /\ Permutation (List.concat Bs) (Dict.keys G)
    /\ forall u v, edge G u v -> batch_precedes u v Bs.
Proof.
  intros EN W E.
  pose proof (wf_nodup W) as nd. pose proof (wf_closed W) as closed.
  apply validated in E. destruct E as [_ E].
  destruct (method =? "bfs"); [|destruct E as [E _]; discriminate].
  unfold _bfs_topological_sort in E.
  rewrite (@drain_next_eq _ _ _ _ topological_sort_generator
             (TsgGroups G (_group_generator ind (initial_queue G ind))))
    in E.
  2: { unfold topological_sort_generator.
       cbn [topological_sort_generator_next]. rewrite EN. reflexivity. }
  destruct (@drain_groups_any NT PN G nd closed fuel graph "groups"
              sort_groups graph_type fuel
              (_group_generator ind (initial_queue G ind)) res
              (kahn_init W) E)
    as (Bs & -> & P & Ls).
  cbn [gg_visited _group_generator app] in P, Ls.
  exists Bs. split; [reflexivity|]. split; [exact P|].
  intros u v e.
  destruct (@layers_precedes NT (edge G) Bs [] v u Ls) as [[]|H];
    [|exact e|exact H].
  eapply Permutation_in; [symmetry; exact P|]. eapply closed, e.
Qed.

(** X1.  Whatever the input, a call of [topological_sort] that returns
    has been given an acyclic graph.  A flat result is then a permutation
    of the keys of the canonical graph with the source of every edge
    before its target; a groups result holds every key in one batch, the
    batch of the source of every edge before the batch of its target.
    No ordering is ever returned for a graph with a cycle. *)
Theorem topological_sort_returns_only_orders :
  forall (graph : graph_t) (method return_type : string)
         (sort_groups : bool) (graph_type : string) (fuel : nat)
         (res : list (item NT)),
    NoDup (Dict.keys graph) ->
    topological_sort fuel graph method return_type sort_groups graph_type
    = Ok res ->
    acyclic (canonical graph graph_type)
    /\ (return_type = "nodes" ->
        exists L,
          res = map Node L
          /\ Permutation L (Dict.keys (canonical graph graph_type))
          /\ forall u v, edge (canonical graph graph_type) u v ->
                         precedes u v L)
    /\ (return_type = "groups" ->
        exists Bs,
          res = map Group Bs
          /\ Permutation (List.concat Bs)
               (Dict.keys (canonical graph graph_type))
          /\ forall u v, edge (canonical graph graph_type) u v ->
                         batch_precedes u v Bs).
Proof.
  intros graph method rt sg gt fuel res nd E.
  destruct (@normalise_spec NT PN graph gt nd) as (G & ind & EN & W & K).
  rewrite (@canonical_eq NT PN graph G ind gt EN).
  pose proof (wf_nodup W) as ndG.
  assert (N : rt = "nodes" ->
              exists L,
                res = map Node L /\ Permutation L (Dict.keys G)
                /\ forall u v, edge G u v -> precedes u v L).
  { intros ->. eapply topological_sort_nodes_any; eassumption. }
  assert (Gr : rt = "groups" ->
               exists Bs,
                 res = map Group Bs
                 /\ Permutation (List.concat Bs) (Dict.keys G)
                 /\ forall u v, edge G u v -> batch_precedes u v Bs).
  { intros ->. eapply topological_sort_groups_any; eassumption. }
  split; [|split; assumption].
  destruct (validated _ _ _ _ _ _ E) as [[Hrt|Hrt] _].
  - destruct (N Hrt) as (L & _ & P & H).
    assert (ndL : NoDup L)
      by (eapply Permutation_NoDup; [symmetry; exact P | exact ndG]).
    exact (@precedes_acyclic NT (edge G) L ndL H).
  - destruct (Gr Hrt) as (Bs & _ & P & H).
    assert (ndL : NoDup (List.concat Bs))
      by (eapply Permutation_NoDup; [symmetry; exact P | exact ndG]).
    refine (@precedes_acyclic NT (edge G) (List.concat Bs) ndL _).
    intros u v e. apply batch_precedes_concat, H, e.
Qed.
End ReturnedOrders.

Lemma topological_sort_returns_only_orders_witness :
  acyclic (canonical TEST_GRAPH "edges")
  /\ ("nodes" = "nodes" ->
      exists L,
        map Node ["D"; "C"; "E"; "B"; "A"] = map Node L
        /\ Permutation L (Dict.keys (canonical TEST_GRAPH "edges"))
        /\ forall u v, edge (canonical TEST_GRAPH "edges") u v ->
                       precedes u v L)
  /\ ("nodes" = "groups" ->
      exists Bs,
        map Node ["D"; "C"; "E"; "B"; "A"] = map Group Bs
        /\ Permutation (List.concat Bs)
             (Dict.keys (canonical TEST_GRAPH "edges"))
        /\ forall u v, edge (canonical TEST_GRAPH "edges") u v ->
                       batch_precedes u v Bs).
Proof.
  apply (@topological_sort_returns_only_orders string _ TEST_GRAPH "dfs"
           "nodes" false "edges" 20).
  - exact TEST_GRAPH_keys.
  - vm_compute. reflexivity.
Defined.

(** ** What the stream has yielded so far *)

Section KahnPrefix.
Context {NT : Type} {PN : PyNode NT}.
Local Abbreviation graph_t := (Dict.dict NT (list NT)).

Variable G : graph_t.
Hypothesis G_nodup : NoDup (Dict.keys G).
Hypothesis G_closed : forall u v, edge G u v -> In v (Dict.keys G).

Lemma group_inv_visited (s : group_gen) :
  group_inv G s ->
  NoDup (gg_visited s ++ gg_queue s)
  /\ forall v, In v (gg_visited s ++ gg_queue s) -> In v (Dict.keys G).
Proof. intros K. split; [apply (ki_nodup K) | apply (ki_keys K)]. Qed.

Lemma flatten_next_any (fuel' : nat) (sort_groups : bool) :
  forall k s,
    group_inv G s ->
    match flatten_next fuel' k G sort_groups s with
    | Yield a t =>
        exists x B s',
          a = Node x /\ t = TsgFlatten G B s'
          /\ gg_queue s <> []
          /\ Permutation (x :: B) (gg_queue s)
          /\ gg_visited s' = gg_visited s ++ gg_queue s
          /\ group_inv G s'
    | Stop => Permutation (gg_visited s) (Dict.keys G)
    | _ => True
    end.
Proof.
  induction k as [|k IHk]; intros s I; [exact Logic.I|].
  cbn [flatten_next].
  pose proof (@group_next_any NT PN G G_nodup G_closed fuel' sort_groups s I)
    as H.
  destruct (_group_generator_next fuel' G sort_groups s) as [B s'| |e|];
    try exact Logic.I; [|exact H].
  destruct H as (ne & EB & EV & I').
  assert (P : Permutation B (gg_queue s))
    by (rewrite EB; apply group_batch_perm).
  destruct B as [|x B].
  - apply Permutation_nil in P. contradiction.
  - exists x, B, s'. auto 10.
Qed.

Section Pulls.
Variables (fuel' : nat) (graph : graph_t) (return_type : string)
          (sort_groups : bool) (graph_type : string).

Local Abbreviation next :=
  (topological_sort_generator_next fuel' graph return_type sort_groups
     graph_type).

Lemma pull_groups_any :
  forall (n : nat) (s : group_gen) res,
    group_inv G s ->
    pull n next (TsgGroups G s) = Ok res ->
    exists Bs,
      res = map Group Bs
      /\ NoDup (gg_visited s ++ List.concat Bs)
      /\ (forall v, In v (gg_visited s ++ List.concat Bs) ->
                    In v (Dict.keys G))
      /\ layers (edge G) (gg_visited s) Bs.
Proof.
  assert (Base : forall s, group_inv G s ->
            NoDup (gg_visited s ++ List.concat [])
            /\ (forall v, In v (gg_visited s ++ List.concat []) ->
                          In v (Dict.keys G))).
  { intros s I. cbn [List.concat]. rewrite app_nil_r.
    destruct (group_inv_visited I) as [nd sub]. split.
    - apply NoDup_app_remove_r in nd. exact nd.
    - intros v i. apply sub, in_or_app. left. exact i. }
  induction n as [|n IH]; intros s res I E.
  - injection E as <-. exists []. destruct (Base s I). cbn [map layers].
    auto.
  - cbn [pull topological_sort_generator_next] in E.
    pose proof (@group_next_any NT PN G G_nodup G_closed fuel' sort_groups
                  s I) as H.
    destruct (_group_generator_next fuel' G sort_groups s) as [B s'| |e|];
      try discriminate.
    + destruct H as (ne & EB & EV & I').
      assert (P : Permutation B (gg_queue s))
        by (rewrite EB; apply group_batch_perm).
      destruct (@group_step_facts NT PN G G_nodup s s' B I ne P EV I')
        as (neB & pre & len & bound & same).
      destruct (pull n next (TsgGroups G s')) as [rest|e|] eqn:ED;
        try discriminate.
      cbn [bind] in E. injection E as <-.
      destruct (IH s' rest I' ED) as (Bs & -> & nd & sub & Ls).
      assert (PP : Permutation (gg_visited s' ++ List.concat Bs)
                     (gg_visited s ++ List.concat (B :: Bs))).
      { cbn [List.concat]. rewrite EV, <- app_assoc.
        apply Permutation_app_head, Permutation_app_tail.
        symmetry. exact P. }
      exists (B :: Bs). split; [reflexivity|]. splits.
      * eapply Permutation_NoDup; [exact PP | exact nd].
      * intros v i. apply sub. eapply Permutation_in; [symmetry; exact PP|].
        exact i.
      * cbn [layers]. split; [exact pre|].
        eapply layers_ext; [|exact Ls]. intros x. apply same.
    + injection E as <-. exists []. destruct (Base s I). cbn [map layers].
      auto.
Qed.

Lemma pull_flatten_any :
  forall (n : nat) (s : group_gen) (buf V : list NT) res,
    group_inv G s ->
    (forall x, In x buf -> forall y, edge G y x -> In y V) ->
    NoDup (V ++ buf) ->
    (forall v, In v (V ++ buf) <-> In v (gg_visited s)) ->
    respects (edge G) V ->
    pull n next (TsgFlatten G buf s) = Ok res ->
    exists L,
      res = map Node L
      /\ NoDup (V ++ L)
      /\ (forall v, In v (V ++ L) -> In v (Dict.keys G))
      /\ respects (edge G) (V ++ L).
Proof.
  assert (Base : forall s buf V,
            group_inv G s -> NoDup (V ++ buf) ->
            (forall v, In v (V ++ buf) <-> In v (gg_visited s)) ->
            respects (edge G) V ->
            exists L,
              @nil (item NT) = map Node L
              /\ NoDup (V ++ L)
              /\ (forall v, In v (V ++ L) -> In v (Dict.keys G))
              /\ respects (edge G) (V ++ L)).
  { intros s buf V I nd same R. exists []. rewrite app_nil_r.
    destruct (group_inv_visited I) as [_ sub]. splits; auto.
    - apply NoDup_app_remove_r in nd. exact nd.
    - intros v i. apply sub, in_or_app. left. apply same.
      apply in_or_app. left. exact i. }
  induction n as [|n IH]; intros s buf V res I pre nd same R E.
  - injection E as <-. eapply Base; eassumption.
  - destruct buf as [|x buf];
      cbn [pull topological_sort_generator_next] in E.
    + pose proof (@flatten_next_any fuel' sort_groups fuel' s I) as H.
      destruct (flatten_next fuel' fuel' G sort_groups s) as [a t| |e|];
        try discriminate.
      * destruct H as (x & B & s' & -> & -> & ne & P & EV & I').
        destruct (@group_step_facts NT PN G G_nodup s s' (x :: B) I ne P EV
                    I') as (neB & pre' & len & bound & same').
        rewrite app_nil_r in nd, same.
        assert (preV : forall b, In b (x :: B) ->
                                 forall y, edge G y b -> In y V).
        { intros b ib y e. apply same. eapply pre'; eassumption. }
        assert (ndq : NoDup (V ++ x :: B)).
        { destruct (group_inv_visited I) as [ndq _].
          apply NoDup_app; [exact nd | |].
          - eapply Permutation_NoDup; [symmetry; exact P|].
            apply NoDup_app_remove_l in ndq. exact ndq.
          - intros a ia ib. apply same in ia.
            eapply Permutation_in in ib; [|exact P].
            clear - ndq ia ib. induction (gg_visited s) as [|c l IHl];
              [contradiction|].
            cbn in ndq. inversion ndq as [|? ? ni nd']. subst.
            destruct ia as [->|ia]; [|auto].
            apply ni, in_or_app. right. exact ib. }
        destruct (pull n next (TsgFlatten G B s')) as [rest|e|] eqn:ED;
          try discriminate.
        cbn [bind] in E. injection E as <-.
        destruct (IH s' B (V ++ [x]) rest I') with (5 := ED)
          as (L & -> & nd' & sub' & R').
        -- intros b ib y e. apply in_or_app. left.
           apply (preV b); [right; exact ib | exact e].
        -- rewrite <- app_assoc. exact ndq.
        -- intros v. rewrite <- app_assoc. cbn [app].
           rewrite <- same', !in_app_iff. rewrite same. reflexivity.
        -- apply respects_snoc; [exact R|].
           intros y e. apply (preV x); [left; reflexivity | exact e].
        -- exists (x :: L). rewrite <- app_assoc in nd', sub', R'. auto.
      * injection E as <-. eapply Base; eassumption.
    + destruct (pull n next (TsgFlatten G buf s)) as [rest|e|] eqn:ED;
        try discriminate.
      cbn [bind] in E. injection E as <-.
      destruct (IH s buf (V ++ [x]) rest I) with (5 := ED)
        as (L & -> & nd' & sub' & R').
      * intros b ib y e. apply in_or_app. left.
        apply (pre b); [right; exact ib | exact e].
      * rewrite <- app_assoc. exact nd.
      * intros v. rewrite <- app_assoc. apply same.
      * apply respects_snoc; [exact R|].
        intros y e. apply (pre x); [left; reflexivity | exact e].
      * exists (x :: L). rewrite <- app_assoc in nd', sub', R'. auto.
Qed.
End Pulls.
End KahnPrefix.

Section StreamPrefix.
Context {NT : Type} {PN : PyNode NT}.
Local Abbreviation graph_t := (Dict.dict NT (list NT)).

Lemma pull_next_eq {S A : Type} (next : S -> step NT S A) (s1 s2 : S) n :
  next s1 = next s2 -> pull n next s1 = pull n next s2.
Proof. intros E. destruct n; simpl; [reflexivity|]. rewrite E. reflexivity. Qed.

(** X2.  What [topological_sort_generator] has yielded after any number
    of [next] calls is sound, also on a graph with a cycle and whatever
    the strings given for [return_type] and [graph_type]: with
    [return_type="nodes"] the nodes are distinct keys of the canonical
    graph and each comes after all its predecessors; otherwise the
    batches are disjoint sets of keys and every predecessor of a node is
    in an earlier batch. *)
Theorem topological_sort_generator_prefix_is_sound :
  forall (graph : graph_t) (return_type : string) (sort_groups : bool)
         (graph_type : string) (fuel n : nat) (res : list (item NT)),
    NoDup (Dict.keys graph) ->
    pull n
      (topological_sort_generator_next fuel graph return_type sort_groups
         graph_type) topological_sort_generator = Ok res ->
    (return_type = "nodes" ->
     exists L,
       res = map Node L /\ NoDup L
       /\ (forall v, In v L -> In v (Dict.keys (canonical graph graph_type)))
       /\ respects (edge (canonical graph graph_type)) L)
    /\ (return_type <> "nodes" ->
        exists Bs,
          res = map Group Bs /\ NoDup (List.concat Bs)
          /\ (forall v, In v (List.concat Bs) ->
                        In v (Dict.keys (canonical graph graph_type)))
          /\ layers (edge (canonical graph graph_type)) [] Bs).
Proof.
  intros graph rt sg gt fuel n res nd E.
  destruct (@normalise_spec NT PN graph gt nd) as (G & ind & EN & W & K).
  rewrite (@canonical_eq NT PN graph G ind gt EN).
  pose proof (wf_nodup W) as ndG. pose proof (wf_closed W) as closed.
  pose proof (kahn_init W) as K0.
  split.
  - intros ->. destruct sg.
    + rewrite (@pull_next_eq _ _ _ topological_sort_generator
                 (TsgFlatten G [] (_group_generator ind (initial_queue G ind))))
        in E.
      2: { unfold topological_sort_generator.
           cbn [topological_sort_generator_next]. rewrite EN. reflexivity. }
      apply (@pull_flatten_any NT PN G ndG closed fuel graph "nodes" true gt
               n (_group_generator ind (initial_queue G ind)) [] [] res K0)
        in E; [exact E | | | |].
      * intros x [].
      * constructor.
      * intros v. reflexivity.
      * apply respects_nil.
    + rewrite (@pull_next_eq _ _ _ topological_sort_generator
                 (TsgNodes G (_node_generator ind (initial_queue G ind))))
        in E.
      2: { unfold topological_sort_generator.
           cbn [topological_sort_generator_next]. rewrite EN. reflexivity. }
      apply (@pull_nodes_any NT PN G ndG closed fuel graph "nodes" false gt
               n (_node_generator ind (initial_queue G ind)) res
               (conj eq_refl K0) (@respects_nil _ _)) in E.
      exact E.
  - intros ne. apply String.eqb_neq in ne.
    rewrite (@pull_next_eq _ _ _ topological_sort_generator
               (TsgGroups G (_group_generator ind (initial_queue G ind))))
      in E.
    2: { unfold topological_sort_generator.
         cbn [topological_sort_generator_next]. rewrite EN, ne.
         reflexivity. }
    apply (@pull_groups_any NT PN G ndG closed fuel graph rt sg gt
             n (_group_generator ind (initial_queue G ind)) res K0) in E.
    exact E.
Qed.
End StreamPrefix.

Lemma topological_sort_generator_prefix_is_sound_witness :
  ("nodes" = "nodes" ->
   exists L,
     map Node ["G"] = map Node L /\ NoDup L
     /\ (forall v, In v L ->
                   In v (Dict.keys (canonical CYCLE_TEST_GRAPH "edges")))
     /\ respects (edge (canonical CYCLE_TEST_GRAPH "edges")) L)
  /\ ("nodes" <> "nodes" ->
      exists Bs,
        map Node ["G"] = map Group Bs /\ NoDup (List.concat Bs)
        /\ (forall v, In v (List.concat Bs) ->
                      In v (Dict.keys (canonical CYCLE_TEST_GRAPH "edges")))
        /\ layers (edge (canonical CYCLE_TEST_GRAPH "edges")) [] Bs).
Proof.
  apply (@topological_sort_generator_prefix_is_sound string _
           CYCLE_TEST_GRAPH "nodes" false "edges" 20 1).
  - repeat constructor; simpl; intuition discriminate.
  - vm_compute. reflexivity.
Defined.

(** ** The two breadth-first producers side by side *)

Section Producers.
Context {NT : Type} {PN : PyNode NT}.
Local Abbreviation graph_t := (Dict.dict NT (list NT)).
Local Abbreviation gget := (Dict.get node_eq_dec).
Local Abbreviation sadd := (set_add node_eq_dec).

Lemma release_app (nbs : list NT) :
  forall ind R,
    release nbs ind R
    = (fst (release nbs ind []), R ++ snd (release nbs ind [])).
Proof.
  induction nbs as [|nb rest IH]; intros ind R; cbn [release].
  - cbn. rewrite app_nil_r. reflexivity.
  - cbv zeta. destruct (degree ind nb - 1 =? 0)%Z.
    + rewrite (IH _ (R ++ [nb])), (IH _ ([] ++ [nb])). cbn [fst snd app].
      rewrite <- app_assoc. reflexivity.
    + apply IH.
Qed.

Lemma release_sub (nbs : list NT) :
  forall ind R v,
    In v (snd (release nbs ind R)) -> In v R \/ In v nbs.
Proof.
  induction nbs as [|nb rest IH]; intros ind R v; cbn [release].
  - cbn. auto.
  - cbv zeta. destruct (degree ind nb - 1 =? 0)%Z; intros i;
      apply IH in i.
    + destruct i as [i|i]; [|right; right; exact i].
      apply in_app_or in i. destruct i as [i|[<-|[]]]; auto.
      right. left. reflexivity.
    + destruct i as [i|i]; [left | right; right]; exact i.
Qed.

Variable G : graph_t.

(** The iterations up to a [yield]: what is yielded and what is ready
    next. *)
Lemma batch_yield (sort_groups : bool) (queue : list NT) :
  forall ind visited batch N B s',
    _group_generator_batch G sort_groups queue ind visited batch N
    = Yield B s' ->
    queue <> []
    /\ B = (if sort_groups then sorted (batch ++ queue) else batch ++ queue)
    /\ forall v, In v (gg_queue s') ->
                 In v N \/ exists x, In x queue /\ edge G x v.
Proof.
  induction queue as [|x q IH]; intros ind visited batch N B s' E;
    [discriminate|].
  cbn [_group_generator_batch] in E.
  destruct (gget G x) as [nbs|] eqn:EG; [|discriminate].
  destruct (release nbs ind N) as [ind' N'] eqn:ER.
  assert (HN : forall v, In v N' -> In v N \/ edge G x v).
  { intros v i. replace N' with (snd (release nbs ind N)) in i
      by (rewrite ER; reflexivity).
    apply release_sub in i. destruct i as [i|i]; [auto|].
    right. apply edge_iff. eauto. }
  split; [discriminate|].
  destruct q as [|y q].
  - injection E as <- <-. cbn [gg_queue]. split; [reflexivity|].
    intros v i. destruct (HN v i) as [H|H]; [auto|].
    right. exists x. split; [left; reflexivity | exact H].
  - destruct (IH _ _ _ _ _ _ E) as (_ & -> & H).
    rewrite <- !app_assoc. split; [reflexivity|].
    intros v i. destruct (H v i) as [i'|(z & iz & e)].
    + destruct (HN v i') as [H'|H']; [auto|].
      right. exists x. split; [left; reflexivity | exact H'].
    + right. exists z. split; [right; exact iz | exact e].
Qed.

Lemma batch_not_Stop (sort_groups : bool) (queue : list NT) :
  forall ind visited batch N,
    queue <> [] ->
    _group_generator_batch G sort_groups queue ind visited batch N <> Stop.
Proof.
  induction queue as [|x q IH]; intros ind visited batch N ne;
    [contradiction|].
  cbn [_group_generator_batch].
  destruct (gget G x) as [nbs|]; [|discriminate].
  destruct (release nbs ind N) as [ind' N'].
  destruct q as [|y q]; [discriminate|]. apply IH. discriminate.
Qed.

(** [sort_groups] changes what a batch is yielded as and nothing else. *)
Lemma batch_sort_groups (sort_groups : bool) (queue : list NT) :
  forall ind visited batch N,
    _group_generator_batch G sort_groups queue ind visited batch N
    = match _group_generator_batch G false queue ind visited batch N with
      | Yield B s' => Yield (if sort_groups then sorted B else B) s'
      | Stop => Stop
      | Fail e => Fail e
      | Spin => Spin
      end.
Proof.
  induction queue as [|x q IH]; intros ind visited batch N; [reflexivity|].
  cbn [_group_generator_batch].
  destruct (gget G x) as [nbs|]; [|reflexivity].
  destruct (release nbs ind N) as [ind' N'].
  destruct q as [|y q]; [reflexivity|]. apply IH.
Qed.

Lemma group_next_sort_groups fuel (sort_groups : bool) (s : group_gen) :
  _group_generator_next fuel G sort_groups s
  = match _group_generator_next fuel G false s with
    | Yield B s' => Yield (if sort_groups then sorted B else B) s'
    | Stop => Stop
    | Fail e => Fail e
    | Spin => Spin
    end.
Proof.
  unfold _group_generator_next. destruct (gg_queue s) as [|x q].
  - destruct (_check_cycle fuel G (gg_visited s)); reflexivity.
  - apply batch_sort_groups.
Qed.

Lemma group_next_yield fuel (sort_groups : bool) (s s' : group_gen) B :
  _group_generator_next fuel G sort_groups s = Yield B s' ->
  gg_queue s <> []
  /\ B = (if sort_groups then sorted (gg_queue s) else gg_queue s)
  /\ forall v, In v (gg_queue s') -> exists x, In x (gg_queue s) /\ edge G x v.
Proof.
  unfold _group_generator_next. destruct (gg_queue s) as [|x q] eqn:EQ.
  - destruct (_check_cycle fuel G (gg_visited s)); discriminate.
  - intros E. apply batch_yield in E. destruct E as (ne & -> & H).
    split; [exact ne|]. split; [reflexivity|].
    intros v i. destruct (H v i) as [[]|H']. exact H'.
Qed.

Section Streams.
Variables (fuel' : nat) (graph : graph_t) (graph_type : string).

(** A node generator that has released the node it yielded last. *)
Local Abbreviation settled_at ind queue visited :=
  (TsgNodes G {| ng_indegree := ind; ng_queue := queue;
                 ng_visited := visited; ng_yielded := None |}).

Lemma node_next_settle rt sg ind queue visited x nbs :
  gget G x = Some nbs ->
  topological_sort_generator_next fuel' graph rt sg graph_type
    (TsgNodes G {| ng_indegree := ind; ng_queue := queue;
                   ng_visited := visited; ng_yielded := Some x |})
  = topological_sort_generator_next fuel' graph rt sg graph_type
      (settled_at (fst (release nbs ind queue))
         (snd (release nbs ind queue)) visited).
Proof.
  intros EG. cbn [topological_sort_generator_next].
  unfold _node_generator_next. cbn [ng_yielded ng_indegree ng_queue ng_visited].
  rewrite EG. destruct (release nbs ind queue). reflexivity.
Qed.

(** The node generator yields a batch of the group generator node by
    node, and is then where the group generator is. *)
Lemma batch_as_nodes rt sg (queue : list NT) :
  forall ind visited batch N B s',
    _group_generator_batch G false queue ind visited batch N = Yield B s' ->
    forall fn,
      drain (List.length queue + fn)
        (topological_sort_generator_next fuel' graph rt sg graph_type)
        (settled_at ind (queue ++ N) visited)
      = let* rest :=
          drain fn
            (topological_sort_generator_next fuel' graph rt sg graph_type)
            (settled_at (gg_indegree s') (gg_queue s') (gg_visited s')) in
        Ok (map Node queue ++ rest).
Proof.
  induction queue as [|x q IH]; intros ind visited batch N B s' E fn;
    [discriminate|].
  cbn [_group_generator_batch] in E.
  destruct (gget G x) as [nbs|] eqn:EG; [|discriminate].
  cbn [List.length Nat.add drain app].
  cbn [topological_sort_generator_next].
  unfold _node_generator_next at 1.
  cbn [ng_yielded ng_indegree ng_queue ng_visited].
  rewrite (drain_next_eq _ _ _ (List.length q + fn)
             (node_next_settle rt sg _ _ _ _ EG)).
  rewrite (release_app nbs ind (q ++ N)).
  rewrite (release_app nbs ind N) in E. cbn [fst snd].
  destruct q as [|y q].
  - injection E as _ <-.
    cbn [gg_indegree gg_queue gg_visited app map List.length Nat.add].
    match goal with |- context [drain fn ?nx ?st] =>
      destruct (drain fn nx st); reflexivity end.
  - rewrite <- app_assoc.
    rewrite (IH _ _ _ _ _ _ E fn).
    match goal with |- context [drain fn ?nx ?st] =>
      destruct (drain fn nx st); reflexivity end.
Qed.

Lemma map_Group_inv (res : list (item NT)) (B : list NT) (Bs : list (list NT)) :
  map Group Bs = Group B :: res ->
  exists Bs', Bs = B :: Bs' /\ res = map Group Bs'.
Proof.
  destruct Bs as [|B' Bs']; [discriminate|]. cbn [map].
  intros E. injection E as -> <-. eauto.
Qed.

Lemma groups_as_nodes rt rt' sg' :
  forall fg s Bs,
    drain fg
      (topological_sort_generator_next fuel' graph rt false graph_type)
      (TsgGroups G s) = Ok (map Group Bs) ->
    forall fn,
      List.length (List.concat Bs) < fn ->
      drain fn
        (topological_sort_generator_next fuel' graph rt' sg' graph_type)
        (settled_at (gg_indegree s) (gg_queue s) (gg_visited s))
      = Ok (map Node (List.concat Bs)).
Proof.
  induction fg as [|fg IH]; intros s Bs E fn Hf; [discriminate|].
  cbn [drain topological_sort_generator_next] in E.
  unfold _group_generator_next in E.
  destruct (gg_queue s) as [|x q] eqn:EQ.
  - destruct (_check_cycle fuel' G (gg_visited s)) as [u|e|] eqn:EC;
      try discriminate.
    injection E as E. destruct Bs; [|discriminate].
    destruct fn as [|fn]; [cbn in Hf; lia|].
    cbn [drain topological_sort_generator_next].
    unfold _node_generator_next.
    cbn [ng_yielded ng_indegree ng_queue ng_visited]. rewrite EC.
    reflexivity.
  - destruct (_group_generator_batch G false (x :: q) (gg_indegree s)
                (gg_visited s) [] []) as [B s'| |e|] eqn:EB;
      try discriminate.
    2: { exfalso. revert EB. apply batch_not_Stop. discriminate. }
    destruct (drain fg _ (TsgGroups G s')) as [rest|e|] eqn:ED;
      try discriminate.
    cbn [bind] in E. injection E as E. symmetry in E.
    apply map_Group_inv in E. destruct E as (Bs' & -> & ->).
    destruct (batch_yield _ _ _ _ _ _ EB) as (_ & EBq & _).
    cbn [app] in EBq. subst B.
    cbn [List.concat] in Hf. rewrite length_app in Hf.
    replace fn with (List.length (x :: q) + (fn - List.length (x :: q)))
      by lia.
    pose proof (batch_as_nodes rt' sg' _ _ _ _ _ EB
                  (fn - List.length (x :: q))) as H.
    rewrite app_nil_r in H. rewrite H.
    rewrite (IH s' Bs' ED); [|lia].
    cbn [bind List.concat]. rewrite map_app. reflexivity.
Qed.

Lemma drain_buffer rt sg (buf : list NT) (s : group_gen) :
  forall fn,
    drain (List.length buf + fn)
      (topological_sort_generator_next fuel' graph rt sg graph_type)
      (TsgFlatten G buf s)
    = let* rest :=
        drain fn
          (topological_sort_generator_next fuel' graph rt sg graph_type)
          (TsgFlatten G [] s) in
      Ok (map Node buf ++ rest).
Proof.
  induction buf as [|x buf IH]; intros fn.
  - cbn [List.length Nat.add map app].
    destruct (drain fn _ _); reflexivity.
  - cbn [List.length Nat.add drain topological_sort_generator_next].
    rewrite IH.
    match goal with |- context [drain fn ?nx ?st] =>
      destruct (drain fn nx st); reflexivity end.
Qed.

Lemma flatten_next_pos fuel k sg (s : group_gen) :
  0 < k ->
  flatten_next fuel k G sg s
  = match _group_generator_next fuel G sg s with
    | Yield [] s' => flatten_next fuel (Nat.pred k) G sg s'
    | Yield (x :: group) s' => Yield (Node x) (TsgFlatten G group s')
    | Stop => Stop
    | Fail e => Fail e
    | Spin => Spin
    end.
Proof. destruct k; [lia | reflexivity]. Qed.

Lemma groups_as_flatten rt rt' sg :
  0 < fuel' ->
  forall fg s Bs,
    drain fg
      (topological_sort_generator_next fuel' graph rt sg graph_type)
      (TsgGroups G s) = Ok (map Group Bs) ->
    forall fn,
      List.length (List.concat Bs) < fn ->
      drain fn
        (topological_sort_generator_next fuel' graph rt' sg graph_type)
        (TsgFlatten G [] s)
      = Ok (map Node (List.concat Bs)).
Proof.
  intros pos.
  induction fg as [|fg IH]; intros s Bs E fn Hf; [discriminate|].
  cbn [drain topological_sort_generator_next] in E.
  destruct fn as [|fn]; [lia|].
  cbn [drain topological_sort_generator_next].
  rewrite (flatten_next_pos _ _ _ pos).
  destruct (_group_generator_next fuel' G sg s) as [B s'| |e|] eqn:EN;
    try discriminate.
  - destruct (drain fg _ (TsgGroups G s')) as [rest|e|] eqn:ED;
      try discriminate.
    cbn [bind] in E. injection E as E. symmetry in E.
    apply map_Group_inv in E. destruct E as (Bs' & -> & ->).
    destruct (group_next_yield _ _ _ EN) as (ne & EB & _).
    destruct B as [|x B].
    { exfalso. apply ne. destruct sg; [|symmetry; exact EB].
      apply Permutation_nil. rewrite EB. apply sorted_perm. }
    cbn [List.concat List.length app] in Hf. rewrite length_app in Hf.
    replace fn with (List.length B + (fn - List.length B)) by lia.
    rewrite drain_buffer. rewrite (IH s' Bs' ED); [|lia].
    cbn [bind List.concat app map]. rewrite map_app. reflexivity.
  - injection E as E. destruct Bs; [|discriminate]. reflexivity.
Qed.

Lemma groups_sorted_groups rt (sort_groups : bool) :
  forall fg s,
    drain fg
      (topological_sort_generator_next fuel' graph rt sort_groups graph_type)
      (TsgGroups G s)
    = let* res :=
        drain fg
          (topological_sort_generator_next fuel' graph rt false graph_type)
          (TsgGroups G s) in
      Ok (map (fun it => match it with
                         | Group g =>
                             Group (if sort_groups then sorted g else g)
                         | Node n => Node n
                         end) res).
Proof.
  induction fg as [|fg IH]; intros s; [reflexivity|].
  cbn [drain topological_sort_generator_next].
  rewrite (group_next_sort_groups fuel' sort_groups s).
  destruct (_group_generator_next fuel' G false s) as [B s'| |e|];
    try reflexivity.
  rewrite IH.
  match goal with |- context [drain fg ?nx ?st] =>
    destruct (drain fg nx st); reflexivity end.
Qed.

(** The first batch is the queue; every later batch holds successors of
    the batch before it. *)
Lemma groups_tight rt sg :
  forall fg s Bs,
    drain fg
      (topological_sort_generator_next fuel' graph rt sg graph_type)
      (TsgGroups G s) = Ok (map Group Bs) ->
    (forall B0 rest, Bs = B0 :: rest -> Permutation B0 (gg_queue s))
    /\ forall B1 B2,
         consecutive B1 B2 Bs ->
         forall v, In v B2 -> exists u, In u B1 /\ edge G u v.
Proof.
  induction fg as [|fg IH]; intros s Bs E; [discriminate|].
  cbn [drain topological_sort_generator_next] in E.
  destruct (_group_generator_next fuel' G sg s) as [B s'| |e|] eqn:EN;
    try discriminate.
  - destruct (drain fg _ (TsgGroups G s')) as [rest|e|] eqn:ED;
      try discriminate.
    cbn [bind] in E. injection E as E. symmetry in E.
    apply map_Group_inv in E. destruct E as (Bs' & -> & ->).
    destruct (group_next_yield _ _ _ EN) as (ne & EB & Hq).
    assert (P : Permutation B (gg_queue s)).
    { rewrite EB. destruct sg; [apply sorted_perm | reflexivity]. }
    destruct (IH s' Bs' ED) as [H0 Hc].
    split.
    + intros B0 rest E. injection E as <- _. exact P.
    + intros B1 B2 (l1 & l2 & E) v iv.
      destruct l1 as [|b l1]; cbn [app] in E.
      * injection E as <- ->.
        pose proof (H0 B2 l2 eq_refl) as P2.
        destruct (Hq v) as (x & ix & e).
        { eapply Permutation_in; [exact P2 | exact iv]. }
        exists x. split; [|exact e].
        eapply Permutation_in; [symmetry; exact P | exact ix].
      * injection E as _ ->. apply (Hc B1 B2); [|exact iv].
        exists l1, l2. reflexivity.
  - injection E as E. destruct Bs; [|discriminate]. split.
    + intros B0 rest E'. discriminate.
    + intros B1 B2 (l1 & l2 & E'). destruct l1; discriminate.
Qed.
End Streams.
End Producers.

Section BreadthFirstResults.
Context {NT : Type} {PN : PyNode NT}.
Local Abbreviation graph_t := (Dict.dict NT (list NT)).

(** A breadth-first call that returns has validated its arguments and
    normalised the graph. *)
Lemma bfs_returned (graph : graph_t) fuel return_type sort_groups
    graph_type res :
  topological_sort fuel graph "bfs" return_type sort_groups graph_type
  = Ok res ->
  (forall rt sg,
      rt = "nodes" \/ rt = "groups" ->
      topological_sort fuel graph "bfs" rt sg graph_type
      = _bfs_topological_sort fuel graph rt sg graph_type)
  /\ exists G ind, normalise graph graph_type = Ok (G, ind).
Proof.
  intros E. pose proof E as E0. unfold topological_sort in E.
  unfold _validate_return_type in E.
  destruct ((return_type =? "nodes") || (return_type =? "groups"));
    [|discriminate].
  cbn [bind] in E. unfold _validate_graph_type in E.
  destruct ((graph_type =? "edges") || (graph_type =? "dependencies"))
    eqn:EGT; [|discriminate].
  cbn [bind String.eqb Ascii.eqb Bool.eqb] in E. split.
  - intros rt sg [-> | ->]; unfold topological_sort, _validate_graph_type;
      rewrite EGT; reflexivity.
  - unfold _bfs_topological_sort in E. destruct fuel; [discriminate|].
    cbn [drain topological_sort_generator topological_sort_generator_next]
      in E.
    destruct (normalise graph graph_type) as [[G ind]|e|];
      [eauto | discriminate | discriminate].
Qed.

(** X3.  The flat breadth-first result is the groups result with its
    batches laid end to end, for either value of [sort_groups]: whenever
    the call for groups returns, the call for nodes returns the
    concatenation of its batches. *)
Theorem bfs_nodes_are_the_groups_concatenated :
  forall (graph : graph_t) (sort_groups : bool) (graph_type : string)
         (fuel : nat) (Bs : list (list NT)),
    topological_sort fuel graph "bfs" "groups" sort_groups graph_type
    = Ok (map Group Bs) ->
    List.length (List.concat Bs) < fuel ->
    topological_sort fuel graph "bfs" "nodes" sort_groups graph_type
    = Ok (map Node (List.concat Bs)).
Proof.
  intros graph sg gt fuel Bs E Hf.
  destruct (bfs_returned _ _ _ _ _ E) as (V & G & ind & EN).
  rewrite V in E by auto. rewrite V by auto.
  unfold _bfs_topological_sort in *.
  rewrite (@drain_next_eq _ _ _ _ topological_sort_generator
             (TsgGroups G (_group_generator ind (initial_queue G ind))))
    in E.
  2: { unfold topological_sort_generator.
       cbn [topological_sort_generator_next]. rewrite EN. reflexivity. }
  destruct sg.
  - rewrite (@drain_next_eq _ _ _ _ topological_sort_generator
               (TsgFlatten G [] (_group_generator ind (initial_queue G ind)))).
    2: { unfold topological_sort_generator.
         cbn [topological_sort_generator_next]. rewrite EN. reflexivity. }
    eapply groups_as_flatten; [lia | exact E | exact Hf].
  - rewrite (@drain_next_eq _ _ _ _ topological_sort_generator
               (TsgNodes G (_node_generator ind (initial_queue G ind)))).
    2: { unfold topological_sort_generator.
         cbn [topological_sort_generator_next]. rewrite EN. reflexivity. }
    apply (@groups_as_nodes NT PN G fuel graph gt "groups" "nodes" false
             fuel _ Bs E fuel Hf).
Qed.

(** X4.  [sort_groups] changes nothing but the order inside a batch: the
    groups result with [sort_groups] set is the groups result without it
    with each batch sorted, and the two calls fail alike. *)
Theorem sort_groups_only_sorts_each_batch :
  forall (graph : graph_t) (graph_type : string) (fuel : nat),
    topological_sort fuel graph "bfs" "groups" true graph_type
    = let* res :=
        topological_sort fuel graph "bfs" "groups" false graph_type in
      Ok (map sorted_item res).
Proof.
  intros graph gt fuel.
  unfold topological_sort, _validate_return_type, _validate_graph_type.
  cbn [String.eqb Ascii.eqb Bool.eqb orb bind].
  destruct ((gt =? "edges") || (gt =? "dependencies")); [|reflexivity].
  cbn [bind]. unfold _bfs_topological_sort.
  destruct fuel as [|n]; [reflexivity|].
  cbn [drain topological_sort_generator topological_sort_generator_next].
  destruct (normalise graph gt) as [[G ind]|e|]; [|reflexivity|reflexivity].
  cbn [String.eqb Ascii.eqb Bool.eqb].
  rewrite (group_next_sort_groups G (S n) true).
  destruct (_group_generator_next (S n) G false _) as [B s'| |e|];
    try reflexivity.
  rewrite (groups_sorted_groups G (S n) graph gt "groups" true n s').
  match goal with |- context [drain n ?nx ?st] =>
    destruct (drain n nx st); reflexivity end.
Qed.

Lemma initial_queue_sources (G : graph_t) ind v :
  wf_graph G ind ->
  (In v (initial_queue G ind)
   <-> In v (Dict.keys G) /\ forall u, ~ edge G u v).
Proof.
  intros W. unfold initial_queue. rewrite filter_In.
  rewrite (wf_indegree W v), Z.eqb_eq.
  split; intros [k H]; (split; [exact k|]).
  - intros u e. assert (Z : pending_in G [] v = 0) by lia.
    apply (pending_zero_preds G [] u v Z e).
  - destruct (Nat.eq_dec (pending_in G [] v) 0) as [Z|NZ]; [lia|].
    destruct (@pending_pos_pred NT PN G [] v (wf_nodup W) NZ)
      as (u & _ & e).
    destruct (H u e).
Qed.

(** X5.  The batches are the earliest possible: the first batch holds
    exactly the nodes of the canonical graph that have no predecessor,
    and every node of a later batch has a predecessor in the batch just
    before its own. *)
Theorem bfs_groups_are_the_earliest_batches :
  forall (graph : graph_t) (sort_groups : bool) (graph_type : string)
         (fuel : nat) (Bs : list (list NT)),
    NoDup (Dict.keys graph) ->
    topological_sort fuel graph "bfs" "groups" sort_groups graph_type
    = Ok (map Group Bs) ->
    (forall B0 rest,
        Bs = B0 :: rest ->
        forall v,
          In v B0 <->
          In v (Dict.keys (canonical graph graph_type))
          /\ forall u, ~ edge (canonical graph graph_type) u v)
    /\ forall B1 B2,
         consecutive B1 B2 Bs ->
         forall v, In v B2 ->
                   exists u, In u B1 /\ edge (canonical graph graph_type) u v.
Proof.
  intros graph sg gt fuel Bs nd E.
  destruct (@normalise_spec NT PN graph gt nd) as (G & ind & EN & W & K).
  rewrite (@canonical_eq NT PN graph G ind gt EN).
  destruct (bfs_returned _ _ _ _ _ E) as (V & _).
  rewrite V in E by auto. unfold _bfs_topological_sort in E.
  rewrite (@drain_next_eq _ _ _ _ topological_sort_generator
             (TsgGroups G (_group_generator ind (initial_queue G ind))))
    in E.
  2: { unfold topological_sort_generator.
       cbn [topological_sort_generator_next]. rewrite EN. reflexivity. }
  destruct (groups_tight G fuel graph gt "groups" sg fuel _ Bs E)
    as [H0 Hc].
  split; [|exact Hc].
  intros B0 rest EB v. rewrite <- (initial_queue_sources v W).
  pose proof (H0 B0 rest EB) as P. cbn [gg_queue _group_generator] in P.
  split; apply Permutation_in; [exact P | symmetry; exact P].
Qed.
End BreadthFirstResults.

Lemma bfs_nodes_are_the_groups_concatenated_witness :
  topological_sort 20 TEST_GRAPH "bfs" "nodes" false "edges"
  = Ok (map Node (List.concat [["D"]; ["B"; "C"]; ["A"; "E"]])).
Proof.
  apply (@bfs_nodes_are_the_groups_concatenated string _ TEST_GRAPH false
           "edges" 20 [["D"]; ["B"; "C"]; ["A"; "E"]]).
  - vm_compute. reflexivity.
  - vm_compute. lia.
Defined.

Lemma bfs_groups_are_the_earliest_batches_witness :
  (forall B0 rest,
      [["D"]; ["B"; "C"]; ["A"; "E"]] = B0 :: rest ->
      forall v,
        In v B0 <->
        In v (Dict.keys (canonical TEST_GRAPH "edges"))
        /\ forall u, ~ edge (canonical TEST_GRAPH "edges") u v)
  /\ forall B1 B2,
       consecutive B1 B2 [["D"]; ["B"; "C"]; ["A"; "E"]] ->
       forall v, In v B2 ->
                 exists u, In u B1 /\ edge (canonical TEST_GRAPH "edges") u v.
Proof.
  apply (@bfs_groups_are_the_earliest_batches string _ TEST_GRAPH false
           "edges" 20).
  - exact TEST_GRAPH_keys.
  - vm_compute. reflexivity.
Defined.

(** ** The path a cycle search returns is closed *)

Section ClosedPaths.
Context {NT : Type} {PN : PyNode NT}.
Local Abbreviation graph_t := (Dict.dict NT (list NT)).
Local Abbreviation gget := (Dict.get node_eq_dec).

Variable graph : graph_t.
Variable n : NT.

Lemma memo_return_none curr level memo r memo' :
  memo_none memo ->
  memo_return curr level None memo = Ok (r, memo') ->
  ends_at n level r memo'.
Proof.
  unfold memo_return. intros M E. injection E as <- <-. cbn.
  intros key r [e|i]; [injection e as _ <-; reflexivity | apply (M _ _ i)].
Qed.

Lemma _get_cycle_dfs_loop_closed
    (dfs : NT -> nat -> memo_t -> result NT (option (list NT) * memo_t))
    curr level :
  (forall nb memo r memo',
      memo_none memo -> dfs nb (level + 1) memo = Ok (r, memo') ->
      ends_at n (level + 1) r memo') ->
  forall nbs memo r memo',
    memo_none memo ->
    _get_cycle_dfs_loop dfs curr level nbs memo = Ok (r, memo') ->
    ends_at n level r memo'.
Proof.
  intros Hdfs. induction nbs as [|nb rest IH]; intros memo r memo' M E;
    cbn [_get_cycle_dfs_loop] in E.
  - eapply memo_return_none; eassumption.
  - destruct (dfs nb (level + 1) memo) as [[[path|] m1]|e|] eqn:E1;
      try discriminate.
    + destruct (Hdfs _ _ _ _ M E1) as (mid & -> & _).
      unfold memo_return in E. injection E as <- <-. cbn.
      exists (curr :: mid). split; [reflexivity | discriminate].
    + apply (IH m1 r memo'); [|exact E]. apply (Hdfs _ _ _ _ M E1).
Qed.

Lemma _get_cycle_dfs_closed :
  forall fuel curr level memo r memo',
    memo_none memo ->
    _get_cycle_dfs fuel graph (Some n) curr level memo = Ok (r, memo') ->
    ends_at n level r memo'.
Proof.
  induction fuel as [|fuel IH]; intros curr level memo r memo' M E;
    [discriminate|].
  rewrite _get_cycle_dfs_unfold in E.
  destruct (Dict.get memo_key_dec memo (curr, level)) as [r0|] eqn:EM.
  - injection E as <- <-. apply get_Some_In in EM.
    rewrite (M _ _ EM). exact M.
  - destruct (is_node (Some n) curr && negb (level =? 0)%nat) eqn:EN.
    + apply andb_prop in EN. destruct EN as [EN EL].
      unfold is_node in EN. destruct (node_eq_dec curr n) as [->|];
        [|discriminate].
      unfold memo_return in E. injection E as <- <-. cbn.
      exists []. split; [reflexivity|]. intros ->. discriminate.
    + destruct (gget graph curr) as [ns|] eqn:EG; [|discriminate].
      destruct (List.length ns =? 0)%nat.
      * eapply memo_return_none; eassumption.
      * eapply _get_cycle_dfs_loop_closed; [|exact M | exact E].
        intros nb m r1 m1. apply IH.
Qed.
End ClosedPaths.

Section ClosedCycles.
Context {NT : Type} {PN : PyNode NT}.
Local Abbreviation graph_t := (Dict.dict NT (list NT)).
Local Abbreviation gget := (Dict.get node_eq_dec).

Lemma root_closed (graph : graph_t) fuel n memo p memo' :
  memo_ok graph memo -> memo_none memo ->
  _get_cycle_dfs fuel graph (Some n) n 0 memo = Ok (Some p, memo') ->
  exists mid, p = n :: mid ++ [n].
Proof.
  intros MO MN E.
  destruct (@_get_cycle_dfs_ok NT PN graph (Some n) fuel n 0 memo _ _ MO E)
    as [_ P].
  destruct (P _ eq_refl) as (_ & rest & ->).
  destruct (@_get_cycle_dfs_closed NT PN graph n fuel n 0 memo _ _ MN E)
    as (mid & EQ & ne).
  destruct mid as [|a mid]; [destruct (ne eq_refl eq_refl)|].
  cbn [app] in EQ. injection EQ as <- ->. exists mid. reflexivity.
Qed.

Lemma _get_cycle_scan_closed (graph : graph_t) fuel :
  forall nodes memo c,
    memo_ok graph memo -> memo_none memo ->
    _get_cycle_scan fuel graph nodes memo = Ok (Some c) ->
    exists x mid, c = x :: mid ++ [x] /\ In x nodes.
Proof.
  induction nodes as [|n rest IH]; intros memo c MO MN E; [discriminate|].
  cbn [_get_cycle_scan] in E.
  destruct (_get_cycle_dfs fuel graph (Some n) n 0 memo)
    as [[r m1]|e|] eqn:E1; try discriminate.
  destruct (@_get_cycle_dfs_ok NT PN graph (Some n) fuel n 0 memo r m1 MO E1)
    as [MO1 _].
  destruct r as [p|].
  - destruct (root_closed _ _ MO MN E1) as (mid & ->).
    injection E as <-. exists n, mid. split; [reflexivity | left; reflexivity].
  - pose proof (@_get_cycle_dfs_closed NT PN graph n fuel n 0 memo _ _ MN E1)
      as MN1.
    destruct (IH m1 c MO1 MN1 E) as (x & mid & -> & i).
    exists x, mid. split; [reflexivity | right; exact i].
Qed.

Lemma memo_none_nil : memo_none (@nil ((NT * nat) * option (list NT))).
Proof. intros key r []. Qed.

Lemma _get_cycle_closed (graph : graph_t) (fuel : nat) (node : option NT)
    (c : list NT) :
  _get_cycle fuel graph node = Ok (Some c) ->
  exists x mid,
    c = x :: mid ++ [x] /\ (node = Some x \/ In x (Dict.keys graph)).
Proof.
  intros E. unfold _get_cycle in E.
  assert (MO : memo_ok graph []) by apply memo_ok_nil.
  assert (S : _get_cycle_scan fuel graph (Dict.keys graph) [] = Ok (Some c)
              -> exists x mid,
                   c = x :: mid ++ [x]
                   /\ (node = Some x \/ In x (Dict.keys graph))).
  { intros E2.
    destruct (@_get_cycle_scan_closed graph fuel (Dict.keys graph) [] c MO
                memo_none_nil E2) as (x & mid & -> & i).
    exists x, mid. auto. }
  destruct node as [n|]; [|exact (S E)].
  destruct (truthy n); [|exact (S E)].
  destruct (_get_cycle_dfs fuel graph (Some n) n 0 [])
    as [[r m1]|e|] eqn:E1; try discriminate.
  cbn [bind fst] in E. injection E as ->.
  destruct (@root_closed graph fuel n [] c m1 MO memo_none_nil E1)
    as (mid & ->).
  exists n, mid. auto.
Qed.

(** X6.  A path [_get_cycle] returns is a cycle of the graph it was
    given: it has at least two entries, the last is the first again,
    every entry is listed in the graph under the one before it, and the
    first entry is the start node or a key. *)
Theorem get_cycle_returns_a_closed_path :
  forall (graph : graph_t) (fuel : nat) (node : option NT) (c : list NT),
    _get_cycle fuel graph node = Ok (Some c) ->
    chain graph c
    /\ exists x mid,
         c = x :: mid ++ [x]
         /\ (node = Some x \/ In x (Dict.keys graph)).
Proof.
  intros graph fuel node c E. split.
  - destruct (@_get_cycle_ok NT PN graph fuel node c E) as [C _]. exact C.
  - apply _get_cycle_closed with (fuel := fuel). exact E.
Qed.
End ClosedCycles.

Lemma get_cycle_returns_a_closed_path_witness :
  chain CYCLE_TEST_GRAPH ["D"; "B"; "A"; "D"]
  /\ exists x mid,
       ["D"; "B"; "A"; "D"] = x :: mid ++ [x]
       /\ (Some "D" = Some x \/ In x (Dict.keys CYCLE_TEST_GRAPH)).
Proof.
  apply (@get_cycle_returns_a_closed_path string _ CYCLE_TEST_GRAPH 20
           (Some "D")).
  vm_compute. reflexivity.
Defined.

(** ** What a CycleError carries *)

Section RaisedBy.
Context {NT : Type} {PN : PyNode NT}.
Local Abbreviation graph_t := (Dict.dict NT (list NT)).
Local Abbreviation gget := (Dict.get node_eq_dec).

(** A property of exceptions that every [KeyError] has. *)
Variable P : exn NT -> Prop.
Hypothesis P_key : forall k, P (KeyError k).

Section BreadthFirst.
Variable G : graph_t.
Hypothesis P_check :
  forall fuel visited e, _check_cycle fuel G visited = Raise e -> P e.

Lemma _node_generator_next_raised fuel s e :
  _node_generator_next fuel G s = Fail e -> P e.
Proof.
  unfold _node_generator_next.
  destruct (ng_yielded s) as [x|].
  - destruct (gget G x) as [nbs|].
    + destruct (release nbs (ng_indegree s) (ng_queue s)) as [ind [|y q]];
        [|discriminate].
      destruct (_check_cycle fuel G (ng_visited s)) eqn:E; try discriminate.
      intros H. injection H as <-. eapply P_check, E.
    + intros H. injection H as <-. apply P_key.
  - destruct (ng_queue s); [|discriminate].
    destruct (_check_cycle fuel G (ng_visited s)) eqn:E; try discriminate.
    intros H. injection H as <-. eapply P_check, E.
Qed.

Lemma _group_generator_batch_raised sort_groups :
  forall queue ind visited batch N e,
    _group_generator_batch G sort_groups queue ind visited batch N = Fail e ->
    P e.
Proof.
  induction queue as [|x q IH]; intros ind visited batch N e E;
    [discriminate|].
  cbn [_group_generator_batch] in E.
  destruct (gget G x) as [nbs|].
  - destruct (release nbs ind N) as [ind' N'].
    destruct q; [discriminate|]. eapply IH, E.
  - injection E as <-. apply P_key.
Qed.

Lemma _group_generator_next_raised fuel sort_groups s e :
  _group_generator_next fuel G sort_groups s = Fail e -> P e.
Proof.
  unfold _group_generator_next. destruct (gg_queue s).
  - destruct (_check_cycle fuel G (gg_visited s)) eqn:E; try discriminate.
    intros H. injection H as <-. eapply P_check, E.
  - apply _group_generator_batch_raised.
Qed.

Lemma flatten_next_raised fuel sort_groups :
  forall k s e, flatten_next fuel k G sort_groups s = Fail e -> P e.
Proof.
  induction k as [|k IH]; intros s e E; [discriminate|].
  cbn [flatten_next] in E.
  destruct (_group_generator_next fuel G sort_groups s)
    as [[|x g] s'| |e'|] eqn:EN; try discriminate.
  - eapply IH, E.
  - injection E as <-. eapply _group_generator_next_raised, EN.
Qed.

Lemma topological_sort_generator_next_raised fuel (graph : graph_t)
    return_type sort_groups graph_type s e :
  NoDup (Dict.keys graph) ->
  tsg_graph graph graph_type s = G ->
  topological_sort_generator_next fuel graph return_type sort_groups
    graph_type s = Fail e ->
  P e.
Proof.
  intros nd EG.
  assert (N : forall s0,
             match _node_generator_next fuel G s0 with
             | Yield x s' => Yield (Node x) (TsgNodes G s')
             | Stop => Stop
             | Fail e => Fail e
             | Spin => Spin
             end = Fail e -> P e).
  { intros s0. destruct (_node_generator_next fuel G s0) eqn:E;
      try discriminate.
    intros H. injection H as <-. eapply _node_generator_next_raised, E. }
  assert (Gr : forall s0,
             match _group_generator_next fuel G sort_groups s0 with
             | Yield g s' => Yield (Group g) (TsgGroups G s')
             | Stop => Stop
             | Fail e => Fail e
             | Spin => Spin
             end = Fail e -> P e).
  { intros s0. destruct (_group_generator_next fuel G sort_groups s0) eqn:E;
      try discriminate.
    intros H. injection H as <-. eapply _group_generator_next_raised, E. }
  destruct s as [|G0 s0|G0 [|x buf] s0|G0 s0];
    cbn [topological_sort_generator_next tsg_graph] in *.
  - destruct (@normalise_spec NT PN graph graph_type nd)
      as (G1 & ind & EN & _).
    rewrite (@canonical_eq NT PN graph G1 ind graph_type EN) in EG.
    subst G1. rewrite EN.
    destruct (return_type =? "nodes"); [destruct sort_groups|].
    + apply flatten_next_raised.
    + apply N.
    + apply Gr.
  - subst G0. apply N.
  - subst G0. apply flatten_next_raised.
  - discriminate.
  - subst G0. apply Gr.
Qed.

Lemma drain_raised fuel (graph : graph_t) return_type sort_groups
    graph_type :
  NoDup (Dict.keys graph) ->
  forall n s e,
    tsg_graph graph graph_type s = G ->
    drain n
      (topological_sort_generator_next fuel graph return_type sort_groups
         graph_type) s = Raise e ->
    P e.
Proof.
  intros nd. induction n as [|n IH]; intros s e EG E; [discriminate|].
  cbn [drain] in E.
  pose proof (@topological_sort_generator_next_ok NT PN fuel graph
                return_type sort_groups graph_type s nd) as H.
  pose proof (@topological_sort_generator_next_raised fuel graph
                return_type sort_groups graph_type s) as F.
  destruct (topological_sort_generator_next fuel graph return_type
              sort_groups graph_type s) as [a s'| |e'|];
    try discriminate; cbn [next_ok] in H.
  - destruct (drain n _ s') as [l|e'|] eqn:E'; cbn [bind] in E;
      try discriminate.
    injection E as <-. apply (IH s' e'); [|exact E']. congruence.
  - injection E as <-. apply (F e' nd EG eq_refl).
Qed.
End BreadthFirst.

Section DepthFirst.
Variables graph G : graph_t.
Hypothesis P_raise :
  forall fuel node e,
    (let* cycle := _get_cycle fuel graph (Some node) in
     Raise (raise_CycleError cycle)) = @Raise NT (@dfs_state NT) e ->
    P e.

Lemma _dfs_topological_sort_dfs_loop_raised
    (dfs : NT -> dfs_state -> result NT dfs_state) :
  (forall nb st e, dfs nb st = Raise e -> P e) ->
  forall nbs st e,
    _dfs_topological_sort_dfs_loop dfs nbs st = Raise e -> P e.
Proof.
  intros Hdfs. induction nbs as [|nb rest IH]; intros st e E;
    [discriminate|].
  cbn [_dfs_topological_sort_dfs_loop] in E.
  destruct (set_mem node_eq_dec nb (visited st)); [apply (IH st e E)|].
  destruct (dfs nb st) as [st1|e1|] eqn:E1; cbn [bind] in E;
    try discriminate.
  - apply (IH st1 e E).
  - injection E as <-. apply (Hdfs nb st e1 E1).
Qed.

Lemma _dfs_topological_sort_dfs_raised :
  forall fuel node st e,
    _dfs_topological_sort_dfs fuel graph G node st = Raise e -> P e.
Proof.
  induction fuel as [|fuel IH]; intros node st e E; [discriminate|].
  cbn [_dfs_topological_sort_dfs] in E.
  destruct (set_mem node_eq_dec node (currently_visiting st)).
  - eapply P_raise, E.
  - destruct (gget G node) as [nbs|] eqn:EG.
    + match type of E with
      | (let* st := ?loop in _) = _ => destruct loop as [st2|e2|] eqn:EL
      end; cbn [bind] in E; try discriminate.
      * destruct (set_mem node_eq_dec node (currently_visiting st2));
          [discriminate|].
        injection E as <-. apply P_key.
      * injection E as <-.
        apply (@_dfs_topological_sort_dfs_loop_raised
                 (_dfs_topological_sort_dfs fuel graph G) IH _ _ _ EL).
    + injection E as <-. apply P_key.
Qed.

Lemma _dfs_topological_sort_loop_raised fuel :
  forall nodes st e,
    _dfs_topological_sort_loop fuel graph G nodes st = Raise e -> P e.
Proof.
  induction nodes as [|n rest IH]; intros st e E; [discriminate|].
  cbn [_dfs_topological_sort_loop] in E.
  destruct (set_mem node_eq_dec n (visited st)); [apply (IH st e E)|].
  destruct (_dfs_topological_sort_dfs fuel graph G n st) as [st1|e1|] eqn:E1;
    cbn [bind] in E; try discriminate.
  - apply (IH st1 e E).
  - injection E as <-. eapply _dfs_topological_sort_dfs_raised, E1.
Qed.
End DepthFirst.
End RaisedBy.

Section CyclePayload.
Context {NT : Type} {PN : PyNode NT}.
Local Abbreviation graph_t := (Dict.dict NT (list NT)).
Local Abbreviation gget := (Dict.get node_eq_dec).

Lemma raise_CycleError_msg (cycle : option (list NT)) c msg :
  raise_CycleError cycle = CycleError c msg ->
  cycle = Some c
  /\ exists s, str_join " -> " c = Some s
               /\ msg = ("Cycle detected in graph: " ++ s ++ ".")%string.
Proof.
  unfold raise_CycleError. destruct cycle as [c'|]; [|discriminate].
  destruct (str_join " -> " c') as [s|] eqn:E; [|discriminate].
  intros H. injection H as <- <-. eauto.
Qed.

(** [cycle = _get_cycle(graph, node); raise CycleError(cycle)] *)
Lemma raise_well_reported {A} (graph : graph_t) fuel node e :
  (let* cycle := _get_cycle fuel graph node in
   Raise (raise_CycleError cycle)) = @Raise NT A e ->
  well_reported e
  /\ forall c msg, e = CycleError c msg -> chain graph c.
Proof.
  intros E.
  assert (H : forall c msg, e = CycleError c msg ->
                            _get_cycle fuel graph node = Ok (Some c)
                            /\ exists s, str_join " -> " c = Some s
                                 /\ msg = ("Cycle detected in graph: "
                                           ++ s ++ ".")%string).
  { intros c msg ->.
    destruct (_get_cycle fuel graph node) as [cycle|e|] eqn:EG;
      try discriminate; cbn [bind] in E.
    - injection E as E. apply raise_CycleError_msg in E.
      destruct E as (-> & H). auto.
    - injection E as ->. exfalso.
      apply (@_get_cycle_quiet NT PN graph fuel node c msg EG). }
  split.
  - intros c msg Ee. destruct (H c msg Ee) as (EG & Hs).
    split; [|exact Hs].
    destruct (_get_cycle_closed _ _ _ EG) as (x & mid & -> & _).
    exists x, mid. reflexivity.
  - intros c msg Ee. destruct (H c msg Ee) as (EG & _).
    apply (@_get_cycle_ok NT PN graph fuel node c EG).
Qed.

Lemma chain_walk (G' G : graph_t) (c : list NT) :
  NoDup (Dict.keys G) ->
  (forall item, In item G' -> In item G) ->
  chain G' c -> walk (edge G) c.
Proof.
  intros nd sub. induction c as [|a [|b c] IH]; try exact (fun _ => I).
  intros [(ns & i & ib) C]. split; [|apply IH, C].
  apply edge_iff. exists ns. split; [|exact ib].
  apply In_get; [exact nd | apply sub, i].
Qed.

Lemma _check_cycle_raised fuel (G : graph_t) visited e :
  NoDup (Dict.keys G) ->
  _check_cycle fuel G visited = Raise e ->
  well_reported e /\ along G e.
Proof.
  intros nd. unfold _check_cycle.
  destruct (List.length visited <? List.length G)%nat; [|discriminate].
  intros E. apply raise_well_reported in E. destruct E as [W C].
  split; [exact W|].
  intros c msg Ee. eapply chain_walk; [exact nd | | exact (C c msg Ee)].
  intros item i. apply filter_In in i. apply i.
Qed.
End CyclePayload.

Section CycleErrors.
Context {NT : Type} {PN : PyNode NT}.
Local Abbreviation graph_t := (Dict.dict NT (list NT)).

Lemma well_reported_KeyError (k : NT) : well_reported (KeyError k).
Proof. intros c msg E. discriminate. Qed.

Lemma along_KeyError (G : graph_t) (k : NT) : along G (KeyError k).
Proof. intros c msg E. discriminate. Qed.

Lemma topological_sort_bfs_raise (graph : graph_t) fuel method return_type
    sort_groups graph_type c msg :
  topological_sort fuel graph method return_type sort_groups graph_type
  = Raise (CycleError c msg) ->
  (method = "bfs"
   /\ _bfs_topological_sort fuel graph return_type sort_groups graph_type
      = Raise (CycleError c msg))
  \/ (method = "dfs"
      /\ _dfs_topological_sort fuel graph graph_type
         = Raise (CycleError c msg)).
Proof.
  unfold topological_sort, _validate_return_type, _validate_graph_type.
  destruct ((return_type =? "nodes") || (return_type =? "groups"));
    cbn [bind]; [|discriminate].
  destruct ((graph_type =? "edges") || (graph_type =? "dependencies"));
    cbn [bind]; [|discriminate].
  destruct (method =? "bfs") eqn:EB.
  - apply String.eqb_eq in EB. auto.
  - destruct (method =? "dfs") eqn:ED; [|discriminate].
    apply String.eqb_eq in ED.
    destruct (negb (return_type =? "nodes")); [discriminate|].
    destruct sort_groups; [discriminate|].
    destruct (_dfs_topological_sort fuel graph graph_type); cbn [bind];
      [discriminate | | discriminate].
    intros H. injection H as ->. auto.
Qed.

(** X7.  A [CycleError] that leaves [topological_sort] carries a closed
    path, with either method: at least two entries, the last being the
    first again; and its message is "Cycle detected in graph: " followed
    by the entries joined by " -> " and a full stop.  With
    [method="bfs"] the path runs along the edges of the canonical
    graph, so it is a cycle of the graph that was sorted. *)
Theorem CycleError_carries_a_closed_path :
  forall (graph : graph_t) (method return_type : string)
         (sort_groups : bool) (graph_type : string) (fuel : nat)
         (c : list NT) (msg : string),
    NoDup (Dict.keys graph) ->
    topological_sort fuel graph method return_type sort_groups graph_type
    = Raise (CycleError c msg) ->
    closed_path c
    /\ (exists s, str_join " -> " c = Some s
                  /\ msg = ("Cycle detected in graph: " ++ s ++ ".")%string)
    /\ (method = "bfs" -> walk (edge (canonical graph graph_type)) c).
Proof.
  intros graph method rt sg gt fuel c msg nd E.
  destruct (@normalise_spec NT PN graph gt nd) as (G & ind & EN & W & K).
  rewrite (@canonical_eq NT PN graph G ind gt EN).
  apply topological_sort_bfs_raise in E. destruct E as [[-> E]|[-> E]].
  - unfold _bfs_topological_sort in E.
    assert (H : well_reported (CycleError c msg)
                /\ along G (CycleError c msg)).
    { eapply (@drain_raised NT PN
                (fun e => well_reported e /\ along G e)) with (G := G);
        [| | exact nd | | exact E].
      - intros k. split; [apply well_reported_KeyError | apply along_KeyError].
      - intros f v e. apply _check_cycle_raised, (wf_nodup W).
      - cbn [tsg_graph topological_sort_generator].
        apply (@canonical_eq NT PN graph G ind gt EN). }
    destruct H as [WR A]. destruct (WR c msg eq_refl) as [C M].
    split; [exact C|]. split; [exact M|]. intros _. apply (A c msg eq_refl).
  - unfold _dfs_topological_sort in E. rewrite EN in E. cbn [bind fst] in E.
    match type of E with
    | (let* st := ?loop in _) = _ => destruct loop as [st|e'|] eqn:EL
    end; cbn [bind] in E; try discriminate.
    injection E as ->.
    assert (WR : well_reported (CycleError c msg)).
    { eapply (@_dfs_topological_sort_loop_raised NT PN well_reported)
        with (3 := EL).
      - apply well_reported_KeyError.
      - intros f node e H. apply raise_well_reported in H. apply H. }
    destruct (WR c msg eq_refl) as [C M].
    split; [exact C|]. split; [exact M|]. discriminate.
Qed.
End CycleErrors.

Lemma CycleError_carries_a_closed_path_witness :
  closed_path ["D"; "B"; "A"; "D"]
  /\ (exists s, str_join " -> " ["D"; "B"; "A"; "D"] = Some s
                /\ "Cycle detected in graph: D -> B -> A -> D."
                   = ("Cycle detected in graph: " ++ s ++ ".")%string)
  /\ ("bfs" = "bfs" -> walk (edge (canonical CYCLE_TEST_GRAPH "edges"))
                         ["D"; "B"; "A"; "D"]).
Proof.
  apply (@CycleError_carries_a_closed_path string _ CYCLE_TEST_GRAPH "bfs"
           "nodes" false "edges" 20).
  - repeat constructor; simpl; intuition discriminate.
  - vm_compute. reflexivity.
Defined.

(** ** The two normalisers *)

Section Normalisers.
Context {NT : Type} {PN : PyNode NT}.
Local Abbreviation graph_t := (Dict.dict NT (list NT)).
Local Abbreviation gget := (Dict.get node_eq_dec).

(** X8.  [_prepare_graph] never fails on a dict.  Its graph has as
    keys the keys of the input and everything the input lists; under a
    key of the input it has the list of the input without the key
    itself, in the same order and with its repetitions, under a node
    that is only listed the empty list; and [indegree] counts, for each
    node, its entries in these lists. *)
Theorem prepare_graph_builds_the_canonical_graph :
  forall (graph : graph_t),
    NoDup (Dict.keys graph) ->
    exists G ind,
      _prepare_graph graph = Ok (G, ind)
      /\ NoDup (Dict.keys G)
      /\ (forall k, In k (Dict.keys G) <-> input_node graph k)
      /\ (forall k ns, In (k, ns) graph ->
                       gget G k = Some (remove_self k ns))
      /\ (forall k, In k (Dict.keys G) -> ~ In k (Dict.keys graph) ->
                    gget G k = Some [])
      /\ forall v,
           degree ind v
           = Z.of_nat
               (list_sum
                  (map (fun item => count_occ node_eq_dec (snd item) v) G)).
Proof.
  intros graph nd.
  destruct (_prepare_graph_spec graph nd) as (G & ind & E & P).
  destruct (prepared_wf nd P) as (W & HK & _).
  exists G, ind. split; [exact E|]. split; [apply (wf_nodup W)|].
  split; [exact HK|]. splits.
  - intros k ns i.
    assert (ik : In k (Dict.keys G)).
    { apply HK. left. apply in_map_iff. exists (k, ns). auto. }
    rewrite (pr_lists P k ik).
    rewrite (In_get node_eq_dec _ _ _ nd i). reflexivity.
  - intros k ik nk. rewrite (pr_lists P k ik).
    apply (get_None_iff node_eq_dec) in nk. rewrite nk. reflexivity.
  - intros v. rewrite (pr_degree P v), pending_in_nil. reflexivity.
Qed.

(** X9.  [_get_edges_from_dependencies] never fails.  Its graph has
    the same keys; under a node it lists the keys of the input that name
    the node as a dependency, once for each time they name it, in the
    order of the input, a key never under itself; and [indegree] counts,
    for each node, its entries in these lists. *)
Theorem get_edges_from_dependencies_reverses_the_lists :
  forall (graph : graph_t),
    exists G ind,
      _get_edges_from_dependencies graph = Ok (G, ind)
      /\ NoDup (Dict.keys G)
      /\ (forall k, In k (Dict.keys G) <-> input_node graph k)
      /\ (forall k, In k (Dict.keys G) ->
                    gget G k = Some (dependents graph k))
      /\ (forall k u,
             In u (dependents graph k) <->
             exists ds, In (u, ds) graph /\ In k ds /\ k <> u)
      /\ forall v,
           degree ind v
           = Z.of_nat
               (list_sum
                  (map (fun item => count_occ node_eq_dec (snd item) v) G)).
Proof.
  intros graph.
  destruct (_get_edges_from_dependencies_spec graph) as (G & ind & E & R).
  destruct (reversed_wf R) as (W & HK & _).
  exists G, ind. split; [exact E|]. split; [apply (wf_nodup W)|].
  split; [exact HK|]. splits.
  - intros k ik. apply (rv_lists R k ik).
  - intros k u. apply dependents_In.
  - intros v. rewrite (rv_degree R v), pending_in_nil. reflexivity.
Qed.

(** X10.  The two graph types are each other's mirror image: on the
    same input, [graph_type="dependencies"] gives the canonical graph of
    [graph_type="edges"] with every edge turned round, over the same
    nodes. *)
Theorem dependencies_are_reversed_edges :
  forall (graph : graph_t),
    NoDup (Dict.keys graph) ->
    (forall k,
        In k (Dict.keys (canonical graph "dependencies"))
        <-> In k (Dict.keys (canonical graph "edges")))
    /\ forall u v,
         edge (canonical graph "dependencies") u v
         <-> edge (canonical graph "edges") v u.
Proof.
  intros graph nd. split.
  - intros k.
    destruct (@normalise_spec NT PN graph "dependencies" nd)
      as (G1 & i1 & E1 & _ & K1).
    destruct (@normalise_spec NT PN graph "edges" nd)
      as (G2 & i2 & E2 & _ & K2).
    rewrite (@canonical_eq NT PN graph G1 i1 _ E1).
    rewrite (@canonical_eq NT PN graph G2 i2 _ E2).
    rewrite K1, K2. reflexivity.
  - intros u v.
    rewrite (@canonical_edge_iff NT PN graph "dependencies" nd u v).
    rewrite (@canonical_edge_iff NT PN graph "edges" nd v u).
    reflexivity.
Qed.

(** X11.  In the words of the input: whenever a flat call returns, with
    [graph_type="edges"] every key comes before each neighbour it lists,
    and with [graph_type="dependencies"] every key comes after each
    dependency it lists, a key that lists itself aside. *)
Theorem flat_result_in_terms_of_the_input :
  forall (graph : graph_t) (method : string) (sort_groups : bool)
         (graph_type : string) (fuel : nat) (res : list (item NT)),
    NoDup (Dict.keys graph) ->
    topological_sort fuel graph method "nodes" sort_groups graph_type
    = Ok res ->
    exists L,
      res = map Node L
      /\ (forall v, In v L <-> input_node graph v)
      /\ forall k ns v,
           In (k, ns) graph -> In v ns -> v <> k ->
           if graph_type =? "dependencies" then precedes v k L
           else precedes k v L.
Proof.
  intros graph method sg gt fuel res nd E.
  destruct (@normalise_spec NT PN graph gt nd) as (G & ind & EN & W & K).
  destruct (@topological_sort_nodes_any NT PN graph G ind fuel method sg gt res
              EN W E) as (L & -> & P & H).
  exists L. split; [reflexivity|]. split.
  - intros v. rewrite <- K. split; apply Permutation_in;
      [exact P | symmetry; exact P].
  - intros k ns v i iv ne.
    pose proof (@canonical_edge_iff NT PN graph gt nd) as CE.
    rewrite (@canonical_eq NT PN graph G ind gt EN) in CE.
    destruct (gt =? "dependencies").
    + apply H, CE. exists ns. auto.
    + apply H, CE. exists ns. auto.
Qed.
End Normalisers.

Lemma prepare_graph_builds_the_canonical_graph_witness :
  exists G ind,
    _prepare_graph TEST_GRAPH = Ok (G, ind)
    /\ NoDup (Dict.keys G)
    /\ (forall k, In k (Dict.keys G) <-> input_node TEST_GRAPH k)
    /\ (forall k ns, In (k, ns) TEST_GRAPH ->
                     Dict.get node_eq_dec G k = Some (remove_self k ns))
    /\ (forall k, In k (Dict.keys G) -> ~ In k (Dict.keys TEST_GRAPH) ->
                  Dict.get node_eq_dec G k = Some [])
    /\ forall v,
         degree ind v
         = Z.of_nat
             (list_sum
                (map (fun item => count_occ node_eq_dec (snd item) v) G)).
Proof.
  apply (@prepare_graph_builds_the_canonical_graph string _ TEST_GRAPH).
  exact TEST_GRAPH_keys.
Defined.

Lemma dependencies_are_reversed_edges_witness :
  (forall k,
      In k (Dict.keys (canonical TEST_GRAPH "dependencies"))
      <-> In k (Dict.keys (canonical TEST_GRAPH "edges")))
  /\ forall u v,
       edge (canonical TEST_GRAPH "dependencies") u v
       <-> edge (canonical TEST_GRAPH "edges") v u.
Proof.
  apply (@dependencies_are_reversed_edges string _ TEST_GRAPH).
  exact TEST_GRAPH_keys.
Defined.

Lemma flat_result_in_terms_of_the_input_witness :
  exists L,
    map Node ["E"; "A"; "C"; "B"; "D"] = map Node L
    /\ (forall v, In v L <-> input_node TEST_GRAPH v)
    /\ forall k ns v,
         In (k, ns) TEST_GRAPH -> In v ns -> v <> k ->
         if "dependencies" =? "dependencies" then precedes v k L
         else precedes k v L.
Proof.
  apply (@flat_result_in_terms_of_the_input string _ TEST_GRAPH "dfs" false
           "dependencies" 20).
  - exact TEST_GRAPH_keys.
  - vm_compute. reflexivity.
Defined.

(** ** Deleting from a dictionary *)

Section DictDelete.
Context {K V : Type} (eq_dec : forall x y : K, {x = y} + {x <> y}).

Local Abbreviation get := (Dict.get eq_dec).
Local Abbreviation del := (Dict.del eq_dec).
Local Abbreviation keys := (@Dict.keys K V).

Lemma del_None_iff (d : Dict.dict K V) k :
  del d k = None <-> ~ In k (keys d).
Proof.
  induction d as [|[k' v] d IH]; cbn [Dict.del Dict.keys map fst In].
  - tauto.
  - destruct (eq_dec k k') as [->|ne].
    + split; [discriminate | intros H; destruct H; left; reflexivity].
    + destruct (del d k) as [d'|].
      * split; [discriminate|]. intros H.
        assert (n : ~ In k (keys d)) by tauto.
        apply IH in n. discriminate.
      * split; [|reflexivity]. intros _ [e|i]; [congruence|].
        revert i. apply IH. reflexivity.
Qed.

Lemma del_Some_key (d d' : Dict.dict K V) k :
  del d k = Some d' -> In k (keys d).
Proof.
  intros E. destruct (in_dec eq_dec k (keys d)) as [i|n]; [exact i|].
  apply del_None_iff in n. congruence.
Qed.

Lemma key_del (d : Dict.dict K V) k :
  In k (keys d) -> exists d', del d k = Some d'.
Proof.
  intros i. destruct (del d k) as [d'|] eqn:E; [eauto|].
  apply del_None_iff in E. contradiction.
Qed.

Lemma del_In (d d' : Dict.dict K V) k :
  NoDup (keys d) -> del d k = Some d' ->
  forall a b, In (a, b) d' <-> In (a, b) d /\ a <> k.
Proof.
  revert d'. induction d as [|[k' v] d IH]; intros d' nd E a b;
    cbn [Dict.del] in E; [discriminate|].
  cbn [Dict.keys map fst] in nd. inversion nd as [|? ? ni nd']. subst.
  destruct (eq_dec k k') as [->|ne].
  - injection E as <-. split.
    + intros i. split; [right; exact i|]. intros ->. apply ni.
      apply in_map_iff. exists (k', b). auto.
    + intros [[e|i] na]; [injection e as -> _; contradiction | exact i].
  - destruct (del d k) as [d1|] eqn:E1; [|discriminate].
    injection E as <-. cbn [In]. rewrite (IH d1 nd' eq_refl a b).
    split.
    + intros [e|[i na]]; [|auto]. injection e as -> ->. auto.
    + intros [[e|i] na]; auto.
Qed.

Lemma del_keys (d d' : Dict.dict K V) k :
  NoDup (keys d) -> del d k = Some d' ->
  NoDup (keys d') /\ forall a, In a (keys d') <-> In a (keys d) /\ a <> k.
Proof.
  revert d'. induction d as [|[k' v] d IH]; intros d' nd E;
    cbn [Dict.del] in E; [discriminate|].
  cbn [Dict.keys map fst] in nd. inversion nd as [|? ? ni nd']. subst.
  destruct (eq_dec k k') as [->|ne].
  - injection E as <-. split; [exact nd'|].
    intros a. cbn [Dict.keys map fst In]. split.
    + intros i. split; [right; exact i|]. intros ->. contradiction.
    + intros [[e|i] na]; [congruence | exact i].
  - destruct (del d k) as [d1|] eqn:E1; [|discriminate].
    injection E as <-. destruct (IH d1 nd' eq_refl) as [nd1 H].
    cbn [Dict.keys map fst]. split.
    + constructor; [|exact nd1]. intros i. apply H in i. apply ni, i.
    + intros a. cbn [In]. rewrite H. split.
      * intros [e|[i na]]; [subst; auto | auto].
      * intros [[e|i] na]; auto.
Qed.

Lemma del_length (d d' : Dict.dict K V) k :
  del d k = Some d' -> List.length d = S (List.length d').
Proof.
  revert d'. induction d as [|[k' v] d IH]; intros d' E;
    cbn [Dict.del] in E; [discriminate|].
  destruct (eq_dec k k'); [injection E as <-; reflexivity|].
  destruct (del d k) as [d1|] eqn:E1; [|discriminate].
  injection E as <-. cbn [List.length]. rewrite (IH d1 eq_refl). reflexivity.
Qed.

Lemma get_iff_In (d : Dict.dict K V) k v :
  NoDup (keys d) -> (get d k = Some v <-> In (k, v) d).
Proof.
  intros nd. split; [apply get_Some_In | apply In_get, nd].
Qed.

Lemma get_del (d d' : Dict.dict K V) k :
  NoDup (keys d) -> del d k = Some d' ->
  forall a, get d' a = if eq_dec a k then None else get d a.
Proof.
  intros nd E a. destruct (@del_keys d d' k nd E) as [nd' HK].
  destruct (eq_dec a k) as [->|ne].
  - apply get_None_iff. intros i. apply HK in i. destruct i as [_ H].
    apply H. reflexivity.
  - destruct (get d a) as [v|] eqn:EG.
    + apply (@get_iff_In d' a v nd'). apply (@del_In d d' k nd E).
      split; [|exact ne]. apply get_Some_In in EG. exact EG.
    + apply get_None_iff. intros i. apply HK in i. destruct i as [i _].
      apply get_None_iff in EG. contradiction.
Qed.

Lemma set_In (d : Dict.dict K V) k v :
  NoDup (keys d) ->
  forall a b, In (a, b) (Dict.set eq_dec d k v)
              <-> (a = k /\ b = v) \/ (In (a, b) d /\ a <> k).
Proof.
  intros nd a b.
  pose proof (NoDup_keys_set eq_dec d k v nd) as nd'.
  rewrite <- (@get_iff_In _ a b nd'), <- (@get_iff_In d a b nd).
  destruct (eq_dec k a) as [->|ne].
  - rewrite get_set_eq. split.
    + intros E. injection E as <-. auto.
    + intros [[_ ->]|[_ H]]; [reflexivity | contradiction].
  - rewrite (get_set_neq eq_dec d v ne). split.
    + intros E. right. split; [exact E | congruence].
    + intros [[-> _]|[E _]]; [contradiction | exact E].
Qed.

Lemma set_length (d : Dict.dict K V) k v :
  List.length (Dict.set eq_dec d k v)
  = if Dict.mem eq_dec d k then List.length d else S (List.length d).
Proof.
  destruct (Dict.mem eq_dec d k) eqn:M.
  - apply (mem_iff eq_dec) in M.
    rewrite <- (length_map fst (Dict.set eq_dec d k v)).
    change (map fst (Dict.set eq_dec d k v))
      with (Dict.keys (Dict.set eq_dec d k v)).
    rewrite (keys_set_old eq_dec d k v M). apply length_map.
  - assert (n : ~ In k (keys d)).
    { intros i. apply (mem_iff eq_dec) in i. congruence. }
    rewrite (set_new eq_dec d k v n), length_app. cbn. lia.
Qed.
End DictDelete.

(** ** InvertibleDict *)

Section InvertibleDictFacts.
Context {K V : Type} {HK : PyKey K} {HV : PyKey V}.

Local Abbreviation getF := (Dict.get (@key_eq_dec K HK)).
Local Abbreviation getB := (Dict.get (@key_eq_dec V HV)).

Lemma inv_eq (d : InvertibleDict K V) :
  inv d = Ok {| _forward := _backward d; _backward := _forward d |}.
Proof. reflexivity. Qed.

Lemma consistent_get (d : InvertibleDict K V) k v :
  consistent d ->
  (getF (_forward d) k = Some v <-> getB (_backward d) v = Some k).
Proof.
  intros (ndF & ndB & H).
  rewrite (get_iff_In _ _ _ _ ndF), (get_iff_In _ _ _ _ ndB). apply H.
Qed.

Lemma consistent_value_key (d : InvertibleDict K V) v :
  consistent d ->
  (In v (Dict.keys (_backward d)) <-> exists k, getF (_forward d) k = Some v).
Proof.
  intros C. split.
  - intros i. apply (key_get key_eq_dec) in i. destruct i as (k & E).
    exists k. apply (consistent_get _ _ C). exact E.
  - intros (k & E). apply (consistent_get _ _ C) in E.
    eapply get_Some_key, E.
Qed.

Lemma __getitem___Ok (d : InvertibleDict K V) k v :
  __getitem__ d k = Ok v <-> getF (_forward d) k = Some v.
Proof.
  unfold __getitem__. destruct (getF (_forward d) k) as [v'|].
  - split; intros E; injection E as ->; reflexivity.
  - split; discriminate.
Qed.

Lemma __getitem___missing (d : InvertibleDict K V) k :
  __getitem__ d k = Raise (KeyError (inl k)) <-> getF (_forward d) k = None.
Proof.
  unfold __getitem__. destruct (getF (_forward d) k) as [v'|].
  - split; discriminate.
  - split; reflexivity.
Qed.

Lemma consistent_swap (d : InvertibleDict K V) :
  consistent d ->
  consistent {| _forward := _backward d; _backward := _forward d |}.
Proof.
  intros (ndF & ndB & H). split; [exact ndB|]. split; [exact ndF|].
  intros k v. cbn [_forward _backward]. symmetry. apply H.
Qed.

(** *** Construction *)

Lemma _check_non_invertible_loop_spec (vals : list V) :
  forall seen,
    (NoDup vals /\ (forall v, In v vals -> ~ In v seen) ->
     _check_non_invertible_loop vals seen = @Ok (K + V) _ tt)
    /\ (~ (NoDup vals /\ (forall v, In v vals -> ~ In v seen)) ->
        exists msg,
          _check_non_invertible_loop vals seen
          = @Raise (K + V) _ (ValueError msg)).
Proof.
  induction vals as [|val rest IH]; intros seen;
    cbn [_check_non_invertible_loop].
  - split; [reflexivity|]. intros H. exfalso. apply H.
    split; [constructor | intros v []].
  - destruct (set_mem key_eq_dec val seen) eqn:M.
    + apply set_mem_correct1 in M. split.
      * intros [_ H]. exfalso. apply (H val); [left; reflexivity | exact M].
      * intros _. eauto.
    + apply set_mem_complete1 in M.
      assert (M' : ~ In val seen) by exact M.
      destruct (IH (set_add key_eq_dec val seen)) as [IH1 IH2].
      assert (EQ : (NoDup rest
                    /\ forall v, In v rest ->
                                 ~ In v (set_add key_eq_dec val seen))
                   <-> (NoDup (val :: rest)
                        /\ forall v, In v (val :: rest) -> ~ In v seen)).
      { split.
        - intros [nd H]. split.
          + constructor; [|exact nd]. intros i. apply (H val i).
            apply set_add_intro2. reflexivity.
          + intros v [<-|i]; [exact M'|]. intros i'. apply (H v i).
            apply set_add_intro1. exact i'.
        - intros [nd H]. inversion nd as [|? ? ni nd']. subst.
          split; [exact nd'|]. intros v i i'.
          apply set_add_elim in i'. destruct i' as [->|i'].
          + contradiction.
          + apply (H v); [right; exact i | exact i']. }
      split.
      * intros H. apply IH1, EQ, H.
      * intros H. apply IH2. intros H'. apply H, EQ, H'.
Qed.

Lemma inverted_spec (forward : Dict.dict K V) :
  NoDup (Dict.values forward) ->
  inverted forward = map (fun item => (snd item, fst item)) forward.
Proof.
  unfold inverted.
  assert (H : forall acc : Dict.dict V K,
             NoDup (Dict.keys acc ++ Dict.values forward) ->
             fold_left
               (fun acc item =>
                  Dict.set key_eq_dec acc (snd item) (fst item)) forward acc
             = acc ++ map (fun item => (snd item, fst item)) forward).
  { induction forward as [|[k v] f IH]; intros acc nd; cbn [fold_left map].
    - rewrite app_nil_r. reflexivity.
    - cbn [fst snd Dict.values map] in *.
      assert (n : ~ In v (Dict.keys acc)).
      { apply NoDup_remove_2 in nd. intros i. apply nd, in_or_app.
        left. exact i. }
      rewrite (set_new key_eq_dec acc v k n).
      rewrite IH.
      + rewrite <- app_assoc. reflexivity.
      + rewrite keys_app. cbn [Dict.keys map fst app].
        rewrite <- app_assoc. cbn [app].
        fold (Dict.keys acc). fold (Dict.values f). exact nd. }
  intros nd. apply (H []). exact nd.
Qed.

Lemma swapped_In (forward : Dict.dict K V) k v :
  In (v, k) (map (fun item => (snd item, fst item)) forward)
  <-> In (k, v) forward.
Proof.
  rewrite in_map_iff. split.
  - intros ([a b] & E & i). cbn in E. injection E as -> ->. exact i.
  - intros i. exists (k, v). auto.
Qed.
End InvertibleDictFacts.

Section InvertibleDictMethods.
Context {K V : Type} {HK : PyKey K} {HV : PyKey V}.

Local Abbreviation getF := (Dict.get (@key_eq_dec K HK)).
Local Abbreviation getB := (Dict.get (@key_eq_dec V HV)).

Lemma keys_functional {A B : Type} (dec : forall x y : A, {x = y} + {x <> y})
    (d : Dict.dict A B) a b b' :
  NoDup (Dict.keys d) -> In (a, b) d -> In (a, b') d -> b = b'.
Proof.
  intros nd i i'. apply (In_get dec _ _ _ nd) in i, i'. congruence.
Qed.

Lemma __init___spec (forward : Dict.dict K V) :
  NoDup (Dict.keys forward) ->
  (NoDup (Dict.values forward) ->
   __init__ (Some forward) None
   = Ok {| _forward := forward;
           _backward := map (fun item => (snd item, fst item)) forward |}
   /\ consistent
        {| _forward := forward;
           _backward := map (fun item => (snd item, fst item)) forward |})
  /\ (~ NoDup (Dict.values forward) ->
      exists msg, __init__ (Some forward) None = Raise (ValueError msg)).
Proof.
  intros ndK. unfold __init__, _check_non_invertible. cbn [_forward].
  destruct (@_check_non_invertible_loop_spec K V HV (Dict.values forward) [])
    as [H1 H2].
  split.
  - intros ndV. rewrite H1 by (split; [exact ndV | intros v _ []]).
    cbn [bind]. rewrite (inverted_spec _ ndV). split; [reflexivity|].
    split; [exact ndK|]. cbn [_forward _backward]. split.
    + unfold Dict.keys. rewrite map_map. cbn [fst]. exact ndV.
    + intros k v. symmetry. apply swapped_In.
  - intros ndV. destruct H2 as (msg & E).
    + intros [nd _]. contradiction.
    + rewrite E. cbn [bind]. eauto.
Qed.

Lemma __setitem___spec (d : InvertibleDict K V) key value :
  consistent d ->
  ~ In value (Dict.keys (_backward d)) ->
  exists d',
    __setitem__ d key value = (d', Ok tt)
    /\ consistent d'
    /\ getF (_forward d') key = Some value
    /\ (forall k', k' <> key ->
                   getF (_forward d') k' = getF (_forward d) k')
    /\ Dict.keys (_forward d')
       = (if Dict.mem key_eq_dec (_forward d) key
          then Dict.keys (_forward d)
          else Dict.keys (_forward d) ++ [key])
    /\ forall old, getF (_forward d) key = Some old ->
                   getB (_backward d') old = None.
Proof.
  intros C nv. pose proof C as (ndF & ndB & H).
  assert (M : Dict.mem key_eq_dec (_backward d) value = false).
  { destruct (Dict.mem key_eq_dec (_backward d) value) eqn:M;
      [|reflexivity].
    apply (mem_iff key_eq_dec) in M. contradiction. }
  assert (X : exists B1,
             (if Dict.mem key_eq_dec (_forward d) key then
                match getF (_forward d) key with
                | None => Raise (KeyError (inl key))
                | Some old =>
                    match Dict.del key_eq_dec (_backward d) old with
                    | None => Raise (KeyError (inr old))
                    | Some backward => Ok backward
                    end
                end
              else Ok (_backward d)) = @Ok (K + V) _ B1
             /\ NoDup (Dict.keys B1)
             /\ (forall b a, In (b, a) B1 <->
                             In (b, a) (_backward d)
                             /\ getF (_forward d) key <> Some b)
             /\ (forall old, getF (_forward d) key = Some old ->
                             getB B1 old = None)).
  { destruct (Dict.mem key_eq_dec (_forward d) key) eqn:MK.
    - apply (mem_iff key_eq_dec) in MK.
      apply (key_get key_eq_dec) in MK. destruct MK as (old & EO).
      rewrite EO.
      assert (io : In old (Dict.keys (_backward d))).
      { apply (consistent_value_key _ C). eauto. }
      apply (key_del key_eq_dec) in io. destruct io as (B1 & ED).
      rewrite ED. exists B1. split; [reflexivity|].
      destruct (del_keys key_eq_dec _ _ ndB ED) as [nd1 _].
      split; [exact nd1|]. split.
      + intros b a. rewrite (del_In key_eq_dec _ _ ndB ED). split.
        * intros [i n]. split; [exact i|]. congruence.
        * intros [i n]. split; [exact i|]. congruence.
      + intros old' E'. injection E' as <-.
        rewrite (get_del key_eq_dec _ _ ndB ED).
        destruct (key_eq_dec old old); [reflexivity | contradiction].
    - exists (_backward d). split; [reflexivity|]. split; [exact ndB|].
      assert (EN : getF (_forward d) key = None).
      { unfold Dict.mem in MK. destruct (getF (_forward d) key);
          [discriminate | reflexivity]. }
      rewrite EN. split.
      + intros b a. split; [intros i; split; [exact i | discriminate]|].
        intros [i _]. exact i.
      + discriminate. }
  destruct X as (B1 & EB & nd1 & HB & Hold).
  unfold __setitem__. rewrite M, EB.
  eexists. split; [reflexivity|]. cbn [_forward _backward].
  assert (nv1 : ~ In value (Dict.keys B1)).
  { intros i. apply (key_get key_eq_dec) in i. destruct i as (a & E).
    apply get_Some_In in E. apply HB in E. destruct E as [i _].
    apply nv. apply in_map_iff. exists (value, a). auto. }
  splits.
  - split; [apply NoDup_keys_set, ndF|].
    split; [apply NoDup_keys_set, nd1|].
    cbn [_forward _backward]. intros a b.
    rewrite (set_In key_eq_dec _ _ _ ndF), (set_In key_eq_dec _ _ _ nd1).
    rewrite HB, <- H. split.
    + intros [[-> ->]|[i n]]; [auto|]. right. split.
      * split; [exact i|]. intros E. apply get_Some_In in E.
        apply H in i, E.
        apply n. apply (@keys_functional V K key_eq_dec _ b a key ndB i E).
      * intros ->. apply nv. apply H in i.
        apply in_map_iff. exists (value, a). auto.
    + intros [[-> ->]|[[i n] n']]; [auto|]. right. split; [exact i|].
      intros ->. apply n. apply (In_get key_eq_dec _ _ _ ndF i).
  - apply get_set_eq.
  - intros k' ne. apply get_set_neq. congruence.
  - destruct (Dict.mem key_eq_dec (_forward d) key) eqn:MK.
    + apply keys_set_old. apply (mem_iff key_eq_dec). exact MK.
    + rewrite set_new, keys_app; [reflexivity|].
      intros i. apply (mem_iff key_eq_dec) in i. congruence.
  - intros old E. rewrite get_set_neq; [apply Hold, E|].
    intros <-. apply nv. apply (consistent_value_key _ C). eauto.
Qed.

Lemma __setitem___in_use (d : InvertibleDict K V) key value :
  In value (Dict.keys (_backward d)) ->
  __setitem__ d key value
  = (d, Raise (ValueError
                 "Value must be unique to maintain invertibility.")).
Proof.
  intros i. apply (mem_iff key_eq_dec) in i. unfold __setitem__.
  rewrite i. reflexivity.
Qed.

Lemma __delitem___spec (d : InvertibleDict K V) key value :
  consistent d ->
  getF (_forward d) key = Some value ->
  exists d',
    __delitem__ d key = (d', Ok tt)
    /\ consistent d'
    /\ getF (_forward d') key = None
    /\ getB (_backward d') value = None
    /\ (forall k', k' <> key ->
                   getF (_forward d') k' = getF (_forward d) k')
    /\ List.length (_forward d) = S (List.length (_forward d')).
Proof.
  intros C E. pose proof C as (ndF & ndB & H).
  unfold __delitem__. rewrite E.
  assert (ik : In key (Dict.keys (_forward d))) by (eapply get_Some_key, E).
  apply (key_del key_eq_dec) in ik. destruct ik as (F1 & EF). rewrite EF.
  assert (iv : In value (Dict.keys (_backward d))).
  { apply (consistent_value_key _ C). eauto. }
  apply (key_del key_eq_dec) in iv. destruct iv as (B1 & EB).
  cbv zeta. cbn [_forward _backward]. rewrite EB.
  eexists. split; [reflexivity|]. cbn [_forward _backward].
  destruct (del_keys key_eq_dec _ _ ndF EF) as [nd1 _].
  destruct (del_keys key_eq_dec _ _ ndB EB) as [nd2 _].
  apply get_Some_In in E.
  splits.
  - split; [exact nd1|]. split; [exact nd2|]. cbn [_forward _backward].
    intros a b.
    rewrite (del_In key_eq_dec _ _ ndF EF), (del_In key_eq_dec _ _ ndB EB).
    rewrite <- H. split; intros [i n]; (split; [exact i|]); intros ->.
    + apply n. apply H in i. pose proof E as E'. apply H in E'.
      apply (@keys_functional V K key_eq_dec _ value a key ndB i E').
    + apply n. apply (@keys_functional K V key_eq_dec _ key b value ndF i E).
  - rewrite (get_del key_eq_dec _ _ ndF EF).
    destruct (key_eq_dec key key); [reflexivity | contradiction].
  - rewrite (get_del key_eq_dec _ _ ndB EB).
    destruct (key_eq_dec value value); [reflexivity | contradiction].
  - intros k' ne. rewrite (get_del key_eq_dec _ _ ndF EF).
    destruct (key_eq_dec k' key); [contradiction | reflexivity].
  - apply (del_length key_eq_dec _ _ EF).
Qed.

Lemma __delitem___missing (d : InvertibleDict K V) key :
  getF (_forward d) key = None ->
  __delitem__ d key = (d, Raise (KeyError (inl key))).
Proof. intros E. unfold __delitem__. rewrite E. reflexivity. Qed.
End InvertibleDictMethods.

Section InvertibleDictProperties.
Context {K V : Type} {HK : PyKey K} {HV : PyKey V}.

Local Abbreviation getF := (Dict.get (@key_eq_dec K HK)).
Local Abbreviation getB := (Dict.get (@key_eq_dec V HV)).

Lemma __getitem___congr (d d' : InvertibleDict K V) k :
  getF (_forward d') k = getF (_forward d) k ->
  __getitem__ d' k = __getitem__ d k.
Proof. unfold __getitem__. intros ->. reflexivity. Qed.

Lemma unused_value (d : InvertibleDict K V) value :
  consistent d ->
  (forall k', __getitem__ d k' <> Ok value) ->
  ~ In value (Dict.keys (_backward d)).
Proof.
  intros C H i. apply (consistent_value_key _ C) in i.
  destruct i as (k & E). apply (H k). apply __getitem___Ok. exact E.
Qed.

(** X12.  The two dicts of an [InvertibleDict] stay each other's
    inverse: the object built without [_backward] has them so, and
    assignment, deletion (whether they return or raise) and the view
    [inv] keep them so. *)
Theorem InvertibleDict_stays_consistent :
  (forall (b : option (Dict.dict V K)) (d : InvertibleDict K V),
      __init__ None b = Ok d -> consistent d)
  /\ (forall (forward : Dict.dict K V) (d : InvertibleDict K V),
         NoDup (Dict.keys forward) ->
         __init__ (Some forward) None = Ok d -> consistent d)
  /\ (forall (d : InvertibleDict K V) key value,
         consistent d -> consistent (fst (__setitem__ d key value)))
  /\ (forall (d : InvertibleDict K V) key,
         consistent d -> consistent (fst (__delitem__ d key)))
  /\ (forall (d : InvertibleDict K V) (i : InvertibleDict V K),
         consistent d -> inv d = Ok i -> consistent i).
Proof.
  splits.
  - intros b d E. cbn in E. injection E as <-.
    split; [constructor|]. split; [constructor|]. intros k v. cbn. tauto.
  - intros forward d nd E.
    destruct (__init___spec forward nd) as [H1 H2].
    destruct (NoDup_dec key_eq_dec (Dict.values forward)) as [ndV|ndV].
    + destruct (H1 ndV) as [E' C]. rewrite E' in E. injection E as <-.
      exact C.
    + destruct (H2 ndV) as (msg & E'). rewrite E' in E. discriminate.
  - intros d key value C.
    destruct (in_dec key_eq_dec value (Dict.keys (_backward d))) as [i|n].
    + rewrite (__setitem___in_use d key value i). exact C.
    + destruct (__setitem___spec key value C n) as (d' & E & C' & _).
      rewrite E. exact C'.
  - intros d key C.
    destruct (getF (_forward d) key) as [value|] eqn:E.
    + destruct (__delitem___spec key C E) as (d' & E' & C' & _).
      rewrite E'. exact C'.
    + rewrite (__delitem___missing _ _ E). exact C.
  - intros d i C E. rewrite inv_eq in E. injection E as <-.
    apply consistent_swap, C.
Qed.

(** X13.  [InvertibleDict(forward)] succeeds exactly when no two keys
    of [forward] share a value: it then holds [forward] itself, and its
    inverse maps each value back to its key; with a shared value the
    constructor raises [ValueError]. *)
Theorem InvertibleDict_needs_distinct_values :
  forall (forward : Dict.dict K V),
    NoDup (Dict.keys forward) ->
    (NoDup (Dict.values forward) ->
     exists d i,
       __init__ (Some forward) None = Ok d
       /\ inv d = Ok i
       /\ _forward d = forward
       /\ forall k v, In (k, v) forward <-> __getitem__ i v = Ok k)
    /\ (~ NoDup (Dict.values forward) ->
        exists msg, __init__ (Some forward) None = Raise (ValueError msg)).
Proof.
  intros forward nd. destruct (__init___spec forward nd) as [H1 H2].
  split; [|exact H2].
  intros ndV. destruct (H1 ndV) as [E C].
  eexists _, _. split; [exact E|]. split; [apply inv_eq|].
  split; [reflexivity|].
  intros k v. rewrite __getitem___Ok. cbn [_forward _backward].
  destruct C as (_ & ndB & H). cbn [_forward _backward] in *.
  rewrite (get_iff_In _ _ _ _ ndB). apply H.
Qed.

(** X14.  Assigning a value that no key holds succeeds: afterwards the
    key maps to the value and the inverse maps the value to the key, the
    other keys are untouched, the value the key held before is gone from
    the inverse, and iteration keeps its order, a new key coming
    last. *)
Theorem setitem_stores_the_pair :
  forall (d : InvertibleDict K V) (key : K) (value : V),
    consistent d ->
    (forall k', __getitem__ d k' <> Ok value) ->
    exists d' i',
      __setitem__ d key value = (d', Ok tt)
      /\ inv d' = Ok i'
      /\ __getitem__ d' key = Ok value
      /\ __getitem__ i' value = Ok key
      /\ (forall k', k' <> key -> __getitem__ d' k' = __getitem__ d k')
      /\ (forall old, __getitem__ d key = Ok old ->
                      __getitem__ i' old = Raise (KeyError (inl old)))
      /\ __iter__ d' = match __getitem__ d key with
                       | Ok _ => __iter__ d
                       | _ => __iter__ d ++ [key]
                       end.
Proof.
  intros d key value C H.
  destruct (__setitem___spec key value C (unused_value C H))
    as (d' & E & C' & Ek & Eo & EI & Eold).
  exists d', {| _forward := _backward d'; _backward := _forward d' |}.
  split; [exact E|]. split; [apply inv_eq|]. splits.
  - apply __getitem___Ok, Ek.
  - apply __getitem___Ok. cbn [_forward].
    apply (consistent_get _ _ C'). exact Ek.
  - intros k' ne. apply __getitem___congr, Eo, ne.
  - intros old Eg. apply __getitem___Ok in Eg.
    apply __getitem___missing. cbn [_forward]. apply Eold, Eg.
  - unfold __iter__. rewrite EI. unfold __getitem__, Dict.mem.
    destruct (getF (_forward d) key); reflexivity.
Qed.

(** X15.  Assigning a value that some key already holds raises
    [ValueError] and changes nothing, also when that key is the one
    assigned to: [d[k] = d[k]] fails. *)
Theorem setitem_rejects_a_value_in_use :
  forall (d : InvertibleDict K V) (key k' : K) (value : V),
    consistent d ->
    __getitem__ d k' = Ok value ->
    exists msg,
      __setitem__ d key value = (d, Raise (ValueError msg))
      /\ __setitem__ d k' value = (d, Raise (ValueError msg)).
Proof.
  intros d key k' value C E. apply __getitem___Ok in E.
  assert (i : In value (Dict.keys (_backward d))).
  { apply (consistent_value_key _ C). eauto. }
  eexists. split; apply __setitem___in_use, i.
Qed.

(** X16.  Deleting a key that is present removes it and its value from
    both directions, leaves the other keys alone, makes the object one
    shorter, and frees the value: it can be assigned again.  Deleting a
    key that is missing raises [KeyError] for it and changes nothing. *)
Theorem delitem_removes_the_pair :
  forall (d : InvertibleDict K V) (key : K),
    consistent d ->
    match __getitem__ d key with
    | Ok value =>
        exists d' i' d'',
          __delitem__ d key = (d', Ok tt)
          /\ inv d' = Ok i'
          /\ __getitem__ d' key = Raise (KeyError (inl key))
          /\ __getitem__ i' value = Raise (KeyError (inl value))
          /\ (forall k', k' <> key -> __getitem__ d' k' = __getitem__ d k')
          /\ __len__ d = S (__len__ d')
          /\ __setitem__ d' key value = (d'', Ok tt)
          /\ __getitem__ d'' key = Ok value
    | _ => __delitem__ d key = (d, Raise (KeyError (inl key)))
    end.
Proof.
  intros d key C. unfold __getitem__ at 1.
  destruct (getF (_forward d) key) as [value|] eqn:E;
    [|apply __delitem___missing, E].
  destruct (__delitem___spec key C E) as (d' & E' & C' & Ek & Ev & Eo & El).
  assert (nv : ~ In value (Dict.keys (_backward d'))).
  { intros i. apply (key_get key_eq_dec) in i. destruct i as (k & Ei).
    congruence. }
  destruct (__setitem___spec key value C' nv) as (d'' & E'' & _ & Ek'' & _).
  exists d', {| _forward := _backward d'; _backward := _forward d' |}, d''.
  split; [exact E'|]. split; [apply inv_eq|]. splits.
  - apply __getitem___missing, Ek.
  - apply __getitem___missing. exact Ev.
  - intros k' ne. apply __getitem___congr, Eo, ne.
  - exact El.
  - exact E''.
  - apply __getitem___Ok, Ek''.
Qed.
Lemma consistent_length (d : InvertibleDict K V) :
  consistent d ->
  List.length (_forward d) <= List.length (_backward d).
Proof.
  intros (ndF & ndB & H).
  rewrite <- (length_map (fun item => (snd item, fst item)) (_backward d)).
  apply NoDup_incl_length.
  - apply (NoDup_map_inv fst). exact ndF.
  - intros [k v] i. apply swapped_In. apply H. exact i.
Qed.

End InvertibleDictProperties.

Section InvertibleDictViews.
Context {K V : Type} {HK : PyKey K} {HV : PyKey V}.

(** X17.  The view [inv] of a consistent object is the same mapping read
    backwards: it is consistent, its own [inv] is the object again, both
    have the same length, [d[k] == v] exactly when [d.inv[v] == k], no
    two keys share a value, and an assignment made through the view is
    seen from the object. *)
Theorem inv_is_the_inverse_mapping :
  forall (d : InvertibleDict K V),
    consistent d ->
    exists i,
      inv d = Ok i
      /\ consistent i
      /\ inv i = Ok d
      /\ __len__ i = __len__ d
      /\ (forall k v, __getitem__ d k = Ok v <-> __getitem__ i v = Ok k)
      /\ (forall k1 k2 v,
             __getitem__ d k1 = Ok v -> __getitem__ d k2 = Ok v -> k1 = k2)
      /\ (forall v k i',
             __setitem__ i v k = (i', Ok tt) ->
             exists d', inv i' = Ok d' /\ __getitem__ d' k = Ok v).
Proof.
  intros d C. pose proof (consistent_swap C) as Ci.
  exists {| _forward := _backward d; _backward := _forward d |}.
  split; [apply inv_eq|]. split; [exact Ci|]. splits.
  - rewrite inv_eq. destruct d. reflexivity.
  - unfold __len__. cbn [_forward]. apply Nat.le_antisymm.
    + apply (consistent_length Ci).
    + apply (consistent_length C).
  - intros k v. rewrite !__getitem___Ok. cbn [_forward].
    apply (consistent_get _ _ C).
  - intros k1 k2 v E1 E2. apply __getitem___Ok in E1, E2.
    apply (consistent_get _ _ C) in E1, E2. congruence.
  - intros v k i' E.
    destruct (in_dec key_eq_dec k
                (Dict.keys (_backward
                   {| _forward := _backward d; _backward := _forward d |})))
      as [i|n].
    + rewrite (__setitem___in_use _ v k i) in E. discriminate.
    + destruct (__setitem___spec v k Ci n) as (i'' & E' & C'' & Ek & _).
      rewrite E' in E. injection E as <-.
      exists {| _forward := _backward i''; _backward := _forward i'' |}.
      split; [apply inv_eq|]. apply __getitem___Ok. cbn [_forward].
      apply (consistent_get _ _ C''). exact Ek.
Qed.

(** X18.  [InvertibleDict(forward, _backward=backward)] checks nothing.
    When [backward] lacks the value of a key, deleting the key raises
    [KeyError] for the value after the key has been removed from the
    forward dict: the object is left changed by the call that failed. *)
Theorem unchecked_backward_breaks_deletion :
  forall (forward : Dict.dict K V) (backward : Dict.dict V K)
         (key : K) (value : V),
    NoDup (Dict.keys forward) ->
    Dict.get key_eq_dec forward key = Some value ->
    ~ In value (Dict.keys backward) ->
    exists d d',
      __init__ (Some forward) (Some backward) = Ok d
      /\ __getitem__ d key = Ok value
      /\ __delitem__ d key = (d', Raise (KeyError (inr value)))
      /\ __getitem__ d' key = Raise (KeyError (inl key))
      /\ _backward d' = backward.
Proof.
  intros forward backward key value nd E n.
  assert (ik : In key (Dict.keys forward)) by (eapply get_Some_key, E).
  apply (key_del key_eq_dec) in ik. destruct ik as (F1 & EF).
  exists {| _forward := forward; _backward := backward |},
         {| _forward := F1; _backward := backward |}.
  split; [reflexivity|]. split; [apply __getitem___Ok, E|].
  apply (del_None_iff key_eq_dec) in n.
  split; [|split; [|reflexivity]].
  - unfold __delitem__. cbn [_forward _backward]. rewrite E, EF.
    cbv zeta. cbn [_forward _backward]. rewrite n. reflexivity.
  - apply __getitem___missing. cbn [_forward].
    rewrite (get_del key_eq_dec _ _ nd EF).
    destruct (key_eq_dec key key); [reflexivity | contradiction].
Qed.
End InvertibleDictViews.

(** *** The repository's tests of InvertibleDict *)

Example test_empty_dict :
  exists d i,
    __init__ (K := string) (V := string) None None = Ok d
    /\ inv d = Ok i /\ __len__ d = 0 /\ __len__ i = 0.
Proof. eexists _, _. repeat split. Qed.

Example test_non_empty_dict :
  __init__ (Some food_dict) None = Ok FOODS
  /\ __len__ FOODS = 2
  /\ exists msg,
       __init__ (Some duplicate_food_dict) None = Raise (ValueError msg).
Proof. split; [reflexivity|]. split; [reflexivity|]. eexists. reflexivity. Qed.

Example test_add_retrieve_update_item :
  let empty : InvertibleDict string string :=
    {| _forward := []; _backward := [] |} in
  let d1 := fst (__setitem__ empty "apple" "fruit") in
  let d2 := fst (__setitem__ d1 "apple" "food") in
  __getitem__ d1 "apple" = Ok "fruit"
  /\ (let* i := inv d1 in __getitem__ i "fruit") = Ok "apple"
  /\ __getitem__ d2 "apple" = Ok "food"
  /\ (let* i := inv d2 in __getitem__ i "fruit")
     = Raise (KeyError (inl "fruit"))
  /\ (let* i := inv d2 in __getitem__ i "food") = Ok "apple".
Proof. repeat split. Qed.

Example test_duplicate_value :
  let empty : InvertibleDict string string :=
    {| _forward := []; _backward := [] |} in
  let d1 := fst (__setitem__ empty "apple" "fruit") in
  (exists msg, snd (__setitem__ d1 "orange" "fruit") = Raise (ValueError msg))
  /\ exists i msg,
       inv d1 = Ok i
       /\ snd (__setitem__ i "food" "apple") = Raise (ValueError msg).
Proof. split; [eexists | eexists _, _; split]; reflexivity. Qed.

Example test_deletion :
  let empty : InvertibleDict string string :=
    {| _forward := []; _backward := [] |} in
  let d1 := fst (__setitem__ empty "apple" "fruit") in
  let d2 := fst (__delitem__ d1 "apple") in
  snd (__delitem__ d1 "apple") = Ok tt
  /\ __getitem__ d2 "apple" = Raise (KeyError (inl "apple"))
  /\ (let* i := inv d2 in __getitem__ i "fruit")
     = Raise (KeyError (inl "fruit"))
  /\ __len__ d2 = 0.
Proof. repeat split. Qed.

Lemma food_dict_keys : NoDup (Dict.keys food_dict).
Proof. repeat constructor; simpl; intuition discriminate. Qed.

Lemma FOODS_consistent : consistent FOODS.
Proof.
  split; [exact food_dict_keys|].
  split; [repeat constructor; simpl; intuition discriminate|].
  intros k v. cbn. split; intros [E|[E|[]]]; injection E as <- <-; auto.
Qed.

Lemma InvertibleDict_needs_distinct_values_witness :
  (NoDup (Dict.values food_dict) ->
   exists d i,
     __init__ (Some food_dict) None = Ok d
     /\ inv d = Ok i
     /\ _forward d = food_dict
     /\ forall k v, In (k, v) food_dict <-> __getitem__ i v = Ok k)
  /\ (~ NoDup (Dict.values food_dict) ->
      exists msg, __init__ (Some food_dict) None = Raise (ValueError msg)).
Proof.
  apply (@InvertibleDict_needs_distinct_values string string _ _ food_dict).
  exact food_dict_keys.
Defined.

Lemma setitem_stores_the_pair_witness :
  exists d' i',
    __setitem__ FOODS "apple" "food" = (d', Ok tt)
    /\ inv d' = Ok i'
    /\ __getitem__ d' "apple" = Ok "food"
    /\ __getitem__ i' "food" = Ok "apple"
    /\ (forall k', k' <> "apple" ->
                   __getitem__ d' k' = __getitem__ FOODS k')
    /\ (forall old, __getitem__ FOODS "apple" = Ok old ->
                    __getitem__ i' old = Raise (KeyError (inl old)))
    /\ __iter__ d' = match __getitem__ FOODS "apple" with
                     | Ok _ => __iter__ FOODS
                     | _ => __iter__ FOODS ++ ["apple"]
                     end.
Proof.
  apply (@setitem_stores_the_pair string string _ _ FOODS "apple"
           "food").
  - exact FOODS_consistent.
  - intros k'. unfold __getitem__. cbn.
    destruct (key_eq_dec k' "apple"); [discriminate|].
    destruct (key_eq_dec k' "carrot"); discriminate.
Defined.

Lemma setitem_rejects_a_value_in_use_witness :
  exists msg,
    __setitem__ FOODS "orange" "fruit" = (FOODS, Raise (ValueError msg))
    /\ __setitem__ FOODS "apple" "fruit" = (FOODS, Raise (ValueError msg)).
Proof.
  apply (@setitem_rejects_a_value_in_use string string _ _ FOODS
           "orange" "apple" "fruit").
  - exact FOODS_consistent.
  - reflexivity.
Defined.

Lemma delitem_removes_the_pair_witness :
  match __getitem__ FOODS "apple" with
  | Ok value =>
      exists d' i' d'',
        __delitem__ FOODS "apple" = (d', Ok tt)
        /\ inv d' = Ok i'
        /\ __getitem__ d' "apple" = Raise (KeyError (inl "apple"))
        /\ __getitem__ i' value = Raise (KeyError (inl value))
        /\ (forall k', k' <> "apple" ->
                       __getitem__ d' k' = __getitem__ FOODS k')
        /\ __len__ FOODS = S (__len__ d')
        /\ __setitem__ d' "apple" value = (d'', Ok tt)
        /\ __getitem__ d'' "apple" = Ok value
  | _ => __delitem__ FOODS "apple"
         = (FOODS, Raise (KeyError (inl "apple")))
  end.
Proof.
  apply (@delitem_removes_the_pair string string _ _ FOODS "apple").
  exact FOODS_consistent.
Defined.

Lemma inv_is_the_inverse_mapping_witness :
  exists i,
    inv FOODS = Ok i
    /\ consistent i
    /\ inv i = Ok FOODS
    /\ __len__ i = __len__ FOODS
    /\ (forall k v, __getitem__ FOODS k = Ok v <-> __getitem__ i v = Ok k)
    /\ (forall k1 k2 v,
           __getitem__ FOODS k1 = Ok v -> __getitem__ FOODS k2 = Ok v ->
           k1 = k2)
    /\ (forall v k i',
           __setitem__ i v k = (i', Ok tt) ->
           exists d', inv i' = Ok d' /\ __getitem__ d' k = Ok v).
Proof.
  apply (@inv_is_the_inverse_mapping string string _ _ FOODS).
  exact FOODS_consistent.
Defined.

Lemma unchecked_backward_breaks_deletion_witness :
  exists d d',
    __init__ (Some food_dict) (Some []) = Ok d
    /\ __getitem__ d "apple" = Ok "fruit"
    /\ __delitem__ d "apple" = (d', Raise (KeyError (inr "fruit")))
    /\ __getitem__ d' "apple" = Raise (KeyError (inl "apple"))
    /\ _backward d' = [].
Proof.
  apply (@unchecked_backward_breaks_deletion string string _ _ food_dict []
           "apple" "fruit").
  - exact food_dict_keys.
  - reflexivity.
  - simpl. tauto.
Defined.

(** * The stream and the sort of nodes that are no strings *)

(** ** The exceptions of the cycle search and of the normalisers *)

Section SearchRaises.
Context {NT : Type} {PN : PyNode NT}.
Local Abbreviation graph_t := (Dict.dict NT (list NT)).
Local Abbreviation gget := (Dict.get node_eq_dec).

Variable graph : graph_t.

Lemma _get_cycle_dfs_loop_missing
    (dfs : NT -> nat -> memo_t -> result NT (option (list NT) * memo_t)) :
  (forall nb level memo e,
      dfs nb level memo = Raise e -> missing_key graph e) ->
  forall nbs curr level memo e,
    _get_cycle_dfs_loop dfs curr level nbs memo = Raise e ->
    missing_key graph e.
Proof.
  intros Hdfs. induction nbs as [|nb rest IH]; intros curr level memo e E.
  - discriminate.
  - cbn [_get_cycle_dfs_loop] in E.
    destruct (dfs nb (level + 1) memo) as [[[p|] memo']|e1|] eqn:E1;
      try discriminate.
    + eapply IH, E.
    + injection E as <-. eapply Hdfs, E1.
Qed.

(** The search raises nothing but the [KeyError] of [graph[curr]]. *)
Lemma _get_cycle_dfs_missing (node : option NT) :
  forall fuel curr level memo e,
    _get_cycle_dfs fuel graph node curr level memo = Raise e ->
    missing_key graph e.
Proof.
  induction fuel as [|fuel IH]; intros curr level memo e E; [discriminate|].
  cbn [_get_cycle_dfs] in E.
  destruct (Dict.get memo_key_dec memo (curr, level)); [discriminate|].
  destruct (is_node node curr && negb (level =? 0)%nat); [discriminate|].
  destruct (gget graph curr) as [nbs|] eqn:EG.
  - destruct (List.length nbs =? 0)%nat; [discriminate|].
    eapply _get_cycle_dfs_loop_missing; [|exact E]. exact IH.
  - injection E as <-. exists curr. split; [reflexivity|].
    apply (get_None_iff node_eq_dec), EG.
Qed.

Lemma _get_cycle_scan_missing fuel :
  forall nodes memo e,
    _get_cycle_scan fuel graph nodes memo = Raise e -> missing_key graph e.
Proof.
  induction nodes as [|n rest IH]; intros memo e E; [discriminate|].
  cbn [_get_cycle_scan] in E.
  destruct (_get_cycle_dfs fuel graph (Some n) n 0 memo)
    as [[[[|x p]|] memo']|e1|] eqn:E1; try discriminate.
  - eapply IH, E.
  - eapply IH, E.
  - injection E as <-. eapply _get_cycle_dfs_missing, E1.
Qed.

Lemma _get_cycle_missing fuel node e :
  _get_cycle fuel graph node = Raise e -> missing_key graph e.
Proof.
  unfold _get_cycle. destruct node as [n|].
  - destruct (truthy n).
    + destruct (_get_cycle_dfs fuel graph (Some n) n 0 []) as [rm|e1|] eqn:E1;
        cbn [bind]; try discriminate.
      intros H. injection H as <-. eapply _get_cycle_dfs_missing, E1.
    + apply _get_cycle_scan_missing.
  - apply _get_cycle_scan_missing.
Qed.

(** On a graph whose lists name keys only, the search raises nothing. *)
Section Closed.
Hypothesis graph_closed : list_closed graph.

Lemma _get_cycle_dfs_loop_total
    (dfs : NT -> nat -> memo_t -> result NT (option (list NT) * memo_t)) :
  (forall nb level memo e,
      In nb (Dict.keys graph) -> dfs nb level memo <> Raise e) ->
  forall nbs curr level memo e,
    (forall nb, In nb nbs -> In nb (Dict.keys graph)) ->
    _get_cycle_dfs_loop dfs curr level nbs memo <> Raise e.
Proof.
  intros Hdfs. induction nbs as [|nb rest IH]; intros curr level memo e sub E.
  - discriminate.
  - cbn [_get_cycle_dfs_loop] in E.
    destruct (dfs nb (level + 1) memo) as [[[p|] memo']|e1|] eqn:E1;
      try discriminate.
    + apply (IH curr level memo' e); [|exact E].
      intros x i. apply sub. right. exact i.
    + apply (Hdfs nb (level + 1) memo e1); [|exact E1].
      apply sub. left. reflexivity.
Qed.

Lemma _get_cycle_dfs_total (node : option NT) :
  forall fuel curr level memo e,
    In curr (Dict.keys graph) ->
    _get_cycle_dfs fuel graph node curr level memo <> Raise e.
Proof.
  induction fuel as [|fuel IH]; intros curr level memo e k E; [discriminate|].
  cbn [_get_cycle_dfs] in E.
  destruct (Dict.get memo_key_dec memo (curr, level)); [discriminate|].
  destruct (is_node node curr && negb (level =? 0)%nat); [discriminate|].
  destruct (gget graph curr) as [nbs|] eqn:EG.
  - destruct (List.length nbs =? 0)%nat; [discriminate|].
    revert E. apply _get_cycle_dfs_loop_total; [exact IH|].
    intros nb i. eapply graph_closed; [|exact i].
    eapply get_Some_In, EG.
  - apply (get_None_iff node_eq_dec) in EG. contradiction.
Qed.

Lemma _get_cycle_scan_total fuel :
  forall nodes memo e,
    (forall n, In n nodes -> In n (Dict.keys graph)) ->
    _get_cycle_scan fuel graph nodes memo <> Raise e.
Proof.
  induction nodes as [|n rest IH]; intros memo e sub E; [discriminate|].
  cbn [_get_cycle_scan] in E.
  assert (sub' : forall x, In x rest -> In x (Dict.keys graph))
    by (intros x i; apply sub; right; exact i).
  destruct (_get_cycle_dfs fuel graph (Some n) n 0 memo)
    as [[[[|x p]|] memo']|e1|] eqn:E1; try discriminate.
  - apply (IH memo' e sub' E).
  - apply (IH memo' e sub' E).
  - apply (@_get_cycle_dfs_total (Some n) fuel n 0 memo e1); [|exact E1].
    apply sub. left. reflexivity.
Qed.

Lemma _get_cycle_None_total fuel e :
  _get_cycle fuel graph None <> Raise e.
Proof.
  unfold _get_cycle. apply _get_cycle_scan_total. auto.
Qed.
End Closed.
End SearchRaises.

Section NormaliserRaises.
Context {NT : Type} {PN : PyNode NT}.
Local Abbreviation graph_t := (Dict.dict NT (list NT)).

Lemma append_to_raises (g : graph_t) k x e :
  append_to g k x = Raise e -> e = KeyError k.
Proof.
  unfold append_to. destruct (Dict.get node_eq_dec g k); [discriminate|].
  intros H. injection H as <-. reflexivity.
Qed.

Lemma _prepare_graph_inner_raises (graph : graph_t) node :
  forall nbs g ind e,
    _prepare_graph_inner graph node nbs g ind = Raise e ->
    exists k, e = KeyError k.
Proof.
  induction nbs as [|nb rest IH]; intros g ind e E; [discriminate|].
  cbn [_prepare_graph_inner] in E.
  destruct (node_eq_dec nb node); [eapply IH, E|].
  cbv zeta in E.
  match type of E with
  | (let* g' := ?a in _) = _ => destruct a as [g'|e1|] eqn:EA
  end; cbn [bind] in E; try discriminate.
  - eapply IH, E.
  - injection E as <-. apply append_to_raises in EA. eauto.
Qed.

Lemma _prepare_graph_items_raises (graph : graph_t) :
  forall items g ind e,
    _prepare_graph_items graph items g ind = Raise e ->
    exists k, e = KeyError k.
Proof.
  induction items as [|[node nbs] rest IH]; intros g ind e E;
    [discriminate|].
  cbn [_prepare_graph_items] in E.
  match type of E with
  | (let* gi := ?a in _) = _ => destruct a as [gi|e1|] eqn:EA
  end; cbn [bind] in E; try discriminate.
  - eapply IH, E.
  - injection E as <-. eapply _prepare_graph_inner_raises, EA.
Qed.

Lemma _get_edges_from_dependencies_inner_raises node :
  forall deps (g : graph_t) ind e,
    _get_edges_from_dependencies_inner node deps g ind = Raise e ->
    exists k, e = KeyError k.
Proof.
  induction deps as [|d rest IH]; intros g ind e E; [discriminate|].
  cbn [_get_edges_from_dependencies_inner] in E.
  destruct (node_eq_dec d node); [eapply IH, E|].
  cbv zeta in E.
  match type of E with
  | (let* g' := ?a in _) = _ => destruct a as [g'|e1|] eqn:EA
  end; cbn [bind] in E; try discriminate.
  - eapply IH, E.
  - injection E as <-. apply append_to_raises in EA. eauto.
Qed.

Lemma _get_edges_from_dependencies_items_raises :
  forall items (g : graph_t) ind e,
    _get_edges_from_dependencies_items items g ind = Raise e ->
    exists k, e = KeyError k.
Proof.
  induction items as [|[node deps] rest IH]; intros g ind e E;
    [discriminate|].
  cbn [_get_edges_from_dependencies_items] in E. cbv zeta in E.
  match type of E with
  | (let* gi := ?a in _) = _ => destruct a as [gi|e1|] eqn:EA
  end; cbn [bind] in E; try discriminate.
  - eapply IH, E.
  - injection E as <-. eapply _get_edges_from_dependencies_inner_raises, EA.
Qed.

(** The normalisers raise nothing but [KeyError]. *)
Lemma normalise_raises (graph : graph_t) graph_type e :
  normalise graph graph_type = Raise e -> exists k, e = KeyError k.
Proof.
  unfold normalise, _get_edges_from_dependencies, _prepare_graph.
  destruct (graph_type =? "dependencies").
  - apply _get_edges_from_dependencies_items_raises.
  - apply _prepare_graph_items_raises.
Qed.
End NormaliserRaises.

(** ** The stream raises no invalid-argument error *)

Section StreamRaises.
Context {NT : Type} {PN : PyNode NT}.
Local Abbreviation graph_t := (Dict.dict NT (list NT)).

Lemma KeyError_no_ValueError (k : NT) : no_ValueError (KeyError k).
Proof. intros msg. discriminate. Qed.

Lemma raise_CycleError_no_ValueError (cycle : option (list NT)) :
  no_ValueError (raise_CycleError cycle).
Proof.
  intros msg. unfold raise_CycleError.
  destruct cycle as [c|]; [destruct (str_join " -> " c)|]; discriminate.
Qed.

Lemma _check_cycle_no_ValueError fuel (G : graph_t) visited e :
  _check_cycle fuel G visited = Raise e -> no_ValueError e.
Proof.
  unfold _check_cycle.
  destruct (List.length visited <? List.length G)%nat; [|discriminate].
  match goal with
  | |- (let* c := ?a in _) = _ -> _ => destruct a as [c|e1|] eqn:EC
  end; cbn [bind]; try discriminate; intros H; injection H as <-.
  - apply raise_CycleError_no_ValueError.
  - destruct (_get_cycle_missing _ _ _ EC) as (k & -> & _).
    apply KeyError_no_ValueError.
Qed.

Variables (fuel : nat) (graph : graph_t) (return_type : string)
          (sort_groups : bool) (graph_type : string).

Local Abbreviation next :=
  (topological_sort_generator_next fuel graph return_type sort_groups
     graph_type).

Lemma topological_sort_generator_next_no_ValueError s e :
  next s = Fail e -> no_ValueError e.
Proof.
  assert (N : forall G s0,
             match _node_generator_next fuel G s0 with
             | Yield x s' => Yield (Node x) (TsgNodes G s')
             | Stop => Stop
             | Fail e => Fail e
             | Spin => Spin
             end = Fail e -> no_ValueError e).
  { intros G s0. destruct (_node_generator_next fuel G s0) eqn:E;
      try discriminate.
    intros H. injection H as <-.
    refine (@_node_generator_next_raised NT PN (@no_ValueError NT)
              KeyError_no_ValueError G _ fuel s0 _ E).
    intros f v e'. apply _check_cycle_no_ValueError. }
  assert (Gr : forall G s0,
             match _group_generator_next fuel G sort_groups s0 with
             | Yield g s' => Yield (Group g) (TsgGroups G s')
             | Stop => Stop
             | Fail e => Fail e
             | Spin => Spin
             end = Fail e -> no_ValueError e).
  { intros G s0. destruct (_group_generator_next fuel G sort_groups s0) eqn:E;
      try discriminate.
    intros H. injection H as <-.
    refine (@_group_generator_next_raised NT PN (@no_ValueError NT)
              KeyError_no_ValueError G _ fuel sort_groups s0 _ E).
    intros f v e'. apply _check_cycle_no_ValueError. }
  assert (Fl : forall G s0,
             flatten_next fuel fuel G sort_groups s0 = Fail e ->
             no_ValueError e).
  { intros G s0 E.
    refine (@flatten_next_raised NT PN (@no_ValueError NT)
              KeyError_no_ValueError G _ fuel sort_groups fuel s0 _ E).
    intros f v e'. apply _check_cycle_no_ValueError. }
  destruct s as [|G0 s0|G0 [|x buf] s0|G0 s0];
    cbn [topological_sort_generator_next].
  - destruct (normalise graph graph_type) as [[G ind]|e1|] eqn:EN;
      try discriminate.
    + destruct (return_type =? "nodes"); [destruct sort_groups|].
      * apply Fl.
      * apply N.
      * apply Gr.
    + intros H. injection H as <-.
      destruct (normalise_raises _ _ EN) as (k & ->).
      apply KeyError_no_ValueError.
  - apply N.
  - apply Fl.
  - discriminate.
  - apply Gr.
Qed.

Lemma drain_no_ValueError :
  forall n s e, drain n next s = Raise e -> no_ValueError e.
Proof.
  induction n as [|n IH]; intros s e E; [discriminate|].
  cbn [drain] in E.
  destruct (next s) as [a s'| |e'|] eqn:EN; try discriminate.
  - destruct (drain n next s') as [l|e'|] eqn:E'; cbn [bind] in E;
      try discriminate.
    injection E as <-. apply (IH s' e' E').
  - injection E as <-.
    eapply topological_sort_generator_next_no_ValueError, EN.
Qed.

Lemma pull_no_ValueError :
  forall n s e, pull n next s = Raise e -> no_ValueError e.
Proof.
  induction n as [|n IH]; intros s e E; [discriminate|].
  cbn [pull] in E.
  destruct (next s) as [a s'| |e'|] eqn:EN; try discriminate.
  - destruct (pull n next s') as [l|e'|] eqn:E'; cbn [bind] in E;
      try discriminate.
    injection E as <-. apply (IH s' e' E').
  - injection E as <-.
    eapply topological_sort_generator_next_no_ValueError, EN.
Qed.
End StreamRaises.

Section StreamSpelling.
Context {NT : Type} {PN : PyNode NT}.
Local Abbreviation graph_t := (Dict.dict NT (list NT)).

Lemma drain_ext {S A} (next1 next2 : S -> step NT S A) :
  (forall s, next1 s = next2 s) ->
  forall n s, drain n next1 s = drain n next2 s.
Proof.
  intros H. induction n as [|n IH]; intros s; [reflexivity|].
  cbn [drain]. rewrite H.
  destruct (next2 s) as [a s'| | |]; try reflexivity.
  rewrite IH. reflexivity.
Qed.

Lemma pull_ext {S A} (next1 next2 : S -> step NT S A) :
  (forall s, next1 s = next2 s) ->
  forall n s, pull n next1 s = pull n next2 s.
Proof.
  intros H. induction n as [|n IH]; intros s; [reflexivity|].
  cbn [pull]. rewrite H.
  destruct (next2 s) as [a s'| | |]; try reflexivity.
  rewrite IH. reflexivity.
Qed.

(** The stream reads [return_type] and [graph_type] by one comparison
    each. *)
Lemma topological_sort_generator_next_spelling fuel (graph : graph_t)
    return_type sort_groups graph_type s :
  topological_sort_generator_next fuel graph return_type sort_groups
    graph_type s
  = topological_sort_generator_next fuel graph
      (if return_type =? "nodes" then "nodes" else "groups") sort_groups
      (if graph_type =? "dependencies" then "dependencies" else "edges") s.
Proof.
  destruct s; try reflexivity.
  unfold topological_sort_generator_next, normalise.
  destruct (return_type =? "nodes"), (graph_type =? "dependencies");
    reflexivity.
Qed.
End StreamSpelling.

Section StreamDispatch.
Context {NT : Type} {PN : PyNode NT}.

End StreamDispatch.



(** ** How a sort of nodes that are no strings fails *)

Section KahnFails.
Context {NT : Type} {PN : PyNode NT}.
Local Abbreviation graph_t := (Dict.dict NT (list NT)).

Variable G : graph_t.
Hypothesis G_nodup : NoDup (Dict.keys G).
Hypothesis G_closed : forall u v, edge G u v -> In v (Dict.keys G).
Hypothesis G_not_str : forall v, In v (Dict.keys G) -> as_str v = None.

(** With the queue empty, the lists of the nodes left name nodes that
    are left. *)
Lemma unvisited_closed D ind :
  kahn_inv G D [] ind ->
  list_closed
    (filter (fun item : NT * list NT =>
               negb (set_mem node_eq_dec (fst item) D)) G).
Proof.
  intros K u ns v i j.
  apply filter_In in i. destruct i as [i nu]. cbn [fst] in nu.
  apply negb_true_iff, smem_false in nu.
  assert (e : edge G u v).
  { unfold edge, successors.
    rewrite (In_get node_eq_dec G u ns G_nodup i). exact j. }
  pose proof (G_closed u v e) as kv.
  assert (nv : ~ In v D).
  { intros iv. apply nu. eapply kahn_preds_done; [exact K| |exact e].
    rewrite app_nil_r. exact iv. }
  unfold Dict.keys in kv. apply in_map_iff in kv.
  destruct kv as ([v' ns'] & E & iv). cbn [fst] in E. subst v'.
  unfold Dict.keys. apply in_map_iff. exists (v, ns').
  split; [reflexivity|].
  apply filter_In. split; [exact iv|]. cbn [fst].
  apply negb_true_iff, smem_false. exact nv.
Qed.

(** [_check_cycle] at the end of a producer: the search returns a path
    or [None], and the [join] of the message fails. *)
Lemma _check_cycle_TypeError fuel D ind e :
  kahn_inv G D [] ind ->
  _check_cycle fuel G D = Raise e -> e = TypeError.
Proof.
  intros K. unfold _check_cycle.
  destruct (List.length D <? List.length G)%nat; [|discriminate].
  destruct (_get_cycle fuel _ None) as [cy|e1|] eqn:EC; cbn [bind];
    try discriminate.
  - intros H. injection H as <-. destruct cy as [c|]; [|reflexivity].
    destruct (_get_cycle_ok _ _ _ EC) as (_ & x & rest & -> & [H|H]);
      [discriminate|].
    unfold raise_CycleError.
    destruct (str_join " -> " (x :: rest)) as [s|] eqn:J; [|reflexivity].
    exfalso. apply (str_join_head _ _ _ J). apply G_not_str.
    unfold Dict.keys in *. apply in_map_iff in H.
    destruct H as (it & <- & i). apply filter_In in i.
    apply in_map. apply i.
  - exfalso.
    exact (@_get_cycle_None_total NT PN _ (unvisited_closed K) fuel e1 EC).
Qed.

Variable fuel' : nat.

(** The statements a resumed [_node_generator] runs before the [while]
    test. *)
Lemma node_resume (s : node_gen) :
  node_inv G s ->
  exists ind' q',
    match ng_yielded s with
    | None => Ok (ng_indegree s, ng_queue s)
    | Some node =>
        match Dict.get node_eq_dec G node with
        | None => Raise (KeyError node)
        | Some neighbours =>
            Ok (release neighbours (ng_indegree s) (ng_queue s))
        end
    end = @Ok NT _ (ind', q')
    /\ kahn_inv G (ng_visited s) q' ind'.
Proof.
  intros I. unfold node_inv in I. destruct (ng_yielded s) as [x|].
  - destruct I as (D & EV & K).
    assert (kx : In x (Dict.keys G)).
    { apply (ki_keys K). apply in_or_app. right. left. reflexivity. }
    apply (key_get node_eq_dec) in kx. destruct kx as (nbs & E).
    rewrite E.
    destruct (kahn_step (ng_queue s) G_nodup G_closed K E)
      as (new & ER & K').
    exists (fst (release nbs (ng_indegree s) (ng_queue s))),
           (ng_queue s ++ new).
    split; [rewrite <- ER; destruct (release _ _ _); reflexivity|].
    rewrite EV. exact K'.
  - destruct I as [EV K]. exists (ng_indegree s), (ng_queue s).
    rewrite EV. auto.
Qed.

Lemma _node_generator_next_fails (s : node_gen) e :
  node_inv G s ->
  _node_generator_next fuel' G s = Fail e -> e = TypeError.
Proof.
  intros I. destruct (@node_resume s I) as (ind' & q' & E & K).
  unfold _node_generator_next. rewrite E.
  destruct q' as [|y q']; [|discriminate].
  destruct (_check_cycle fuel' G (ng_visited s)) eqn:EC; try discriminate.
  intros H. injection H as <-. eapply _check_cycle_TypeError; eassumption.
Qed.

Lemma _group_generator_next_fails sort_groups (s : group_gen) e :
  group_inv G s ->
  _group_generator_next fuel' G sort_groups s = Fail e -> e = TypeError.
Proof.
  unfold group_inv, _group_generator_next. intros K.
  destruct (gg_queue s) as [|x q] eqn:EQ.
  - destruct (_check_cycle fuel' G (gg_visited s)) eqn:EC;
      try discriminate.
    intros H. injection H as <-. eapply _check_cycle_TypeError; eassumption.
  - destruct (@batch_spec NT PN G G_nodup G_closed sort_groups (x :: q)
                (gg_indegree s) (gg_visited s) [] [])
      as (s' & EB & _); [discriminate | |].
    + rewrite app_nil_r. exact K.
    + rewrite EB. discriminate.
Qed.

Lemma flatten_next_fails sort_groups :
  forall k (s : group_gen) e,
    group_inv G s ->
    flatten_next fuel' k G sort_groups s = Fail e -> e = TypeError.
Proof.
  induction k as [|k IH]; intros s e I E; [discriminate|].
  cbn [flatten_next] in E.
  pose proof (@group_next_any NT PN G G_nodup G_closed fuel' sort_groups s I)
    as H.
  destruct (_group_generator_next fuel' G sort_groups s)
    as [[|x g] s'| |e'|] eqn:EN; try discriminate.
  - destruct H as (_ & _ & _ & I'). eapply IH; eassumption.
  - injection E as <-. eapply _group_generator_next_fails; eassumption.
Qed.

Lemma flatten_next_yields sort_groups :
  forall k (s : group_gen) a t,
    group_inv G s ->
    flatten_next fuel' k G sort_groups s = Yield a t ->
    exists buf s', t = TsgFlatten G buf s' /\ group_inv G s'.
Proof.
  induction k as [|k IH]; intros s a t I E; [discriminate|].
  cbn [flatten_next] in E.
  pose proof (@group_next_any NT PN G G_nodup G_closed fuel' sort_groups s I)
    as H.
  destruct (_group_generator_next fuel' G sort_groups s)
    as [[|x g] s'| |e'|] eqn:EN; try discriminate;
    destruct H as (_ & _ & _ & I').
  - eapply IH; eassumption.
  - injection E as _ <-. eauto.
Qed.

Variables (graph : graph_t) (return_type : string) (sort_groups : bool)
          (graph_type : string).

Local Abbreviation next :=
  (topological_sort_generator_next fuel' graph return_type sort_groups
     graph_type).

Lemma drain_nodes_fails :
  forall n (s : node_gen) e,
    node_inv G s ->
    drain n next (TsgNodes G s) = Raise e -> e = TypeError.
Proof.
  induction n as [|n IH]; intros s e I E; [discriminate|].
  cbn [drain topological_sort_generator_next] in E.
  pose proof (@node_next_any NT PN G G_nodup G_closed fuel' s I) as H.
  destruct (_node_generator_next fuel' G s) as [y s'| |e'|] eqn:EN;
    try discriminate.
  - destruct H as (I' & _).
    destruct (drain n next (TsgNodes G s')) as [rest|e'|] eqn:ED;
      cbn [bind] in E; try discriminate.
    injection E as <-. eapply IH; eassumption.
  - injection E as <-. eapply _node_generator_next_fails; eassumption.
Qed.

Lemma drain_groups_fails :
  forall n (s : group_gen) e,
    group_inv G s ->
    drain n next (TsgGroups G s) = Raise e -> e = TypeError.
Proof.
  induction n as [|n IH]; intros s e I E; [discriminate|].
  cbn [drain topological_sort_generator_next] in E.
  pose proof (@group_next_any NT PN G G_nodup G_closed fuel' sort_groups s I)
    as H.
  destruct (_group_generator_next fuel' G sort_groups s)
    as [B s'| |e'|] eqn:EN; try discriminate.
  - destruct H as (_ & _ & _ & I').
    destruct (drain n next (TsgGroups G s')) as [rest|e'|] eqn:ED;
      cbn [bind] in E; try discriminate.
    injection E as <-. eapply IH; eassumption.
  - injection E as <-. eapply _group_generator_next_fails; eassumption.
Qed.

Lemma drain_flatten_fails :
  forall n (s : group_gen) buf e,
    group_inv G s ->
    drain n next (TsgFlatten G buf s) = Raise e -> e = TypeError.
Proof.
  induction n as [|n IH]; intros s buf e I E; [discriminate|].
  destruct buf as [|x buf]; cbn [drain topological_sort_generator_next] in E.
  - destruct (flatten_next fuel' fuel' G sort_groups s)
      as [a t| |e'|] eqn:EN; try discriminate.
    + destruct (@flatten_next_yields sort_groups fuel' s a t I EN) as (buf' & s' & -> & I').
      destruct (drain n next (TsgFlatten G buf' s')) as [rest|e'|] eqn:ED;
        cbn [bind] in E; try discriminate.
      injection E as <-. eapply IH; eassumption.
    + injection E as <-. eapply flatten_next_fails; eassumption.
  - destruct (drain n next (TsgFlatten G buf s)) as [rest|e'|] eqn:ED;
      cbn [bind] in E; try discriminate.
    injection E as <-. eapply IH; eassumption.
Qed.
End KahnFails.

Section DepthFirstFails.
Context {NT : Type} {PN : PyNode NT}.
Local Abbreviation graph_t := (Dict.dict NT (list NT)).
Local Abbreviation gget := (Dict.get node_eq_dec).

Variables graph G : graph_t.
Hypothesis G_closed : forall u v, edge G u v -> In v (Dict.keys G).

(** A call [dfs(node)] that returns leaves the nodes being visited as
    they were. *)
Lemma dfs_loop_visiting (dfs : NT -> dfs_state -> result NT dfs_state) :
  (forall nb st st',
      dfs nb st = Ok st' -> currently_visiting st' = currently_visiting st) ->
  forall nbs st st',
    _dfs_topological_sort_dfs_loop dfs nbs st = Ok st' ->
    currently_visiting st' = currently_visiting st.
Proof.
  intros Hdfs. induction nbs as [|nb rest IH]; intros st st' E.
  - injection E as <-. reflexivity.
  - cbn [_dfs_topological_sort_dfs_loop] in E.
    destruct (set_mem node_eq_dec nb (visited st)); [apply (IH _ _ E)|].
    destruct (dfs nb st) as [st1|e1|] eqn:E1; cbn [bind] in E;
      try discriminate.
    rewrite (IH _ _ E). apply (Hdfs _ _ _ E1).
Qed.

Lemma dfs_visiting :
  forall fuel node st st',
    _dfs_topological_sort_dfs fuel graph G node st = Ok st' ->
    currently_visiting st' = currently_visiting st.
Proof.
  induction fuel as [|fuel IH]; intros node st st' E; [discriminate|].
  cbn [_dfs_topological_sort_dfs] in E.
  destruct (set_mem node_eq_dec node (currently_visiting st)) eqn:EM.
  - destruct (_get_cycle fuel graph (Some node)); discriminate.
  - destruct (gget G node) as [nbs|]; [|discriminate].
    match type of E with
    | (let* st := ?loop in _) = _ => destruct loop as [st2|e2|] eqn:EL
    end; cbn [bind] in E; try discriminate.
    apply (@dfs_loop_visiting _ IH) in EL. cbn [currently_visiting] in EL.
    destruct (set_mem node_eq_dec node (currently_visiting st2));
      [|discriminate].
    injection E as <-. cbn [currently_visiting]. rewrite EL.
    apply smem_false in EM. rewrite (sadd_new _ _ EM).
    apply sremove_snoc. exact EM.
Qed.

Variable R : exn NT -> Prop.
Hypothesis R_raise :
  forall fuel node e,
    In node (Dict.keys G) ->
    (let* cycle := _get_cycle fuel graph (Some node) in
     Raise (raise_CycleError cycle)) = @Raise NT (@dfs_state NT) e ->
    R e.

Lemma dfs_loop_fails (dfs : NT -> dfs_state -> result NT dfs_state) :
  (forall nb st e, In nb (Dict.keys G) -> dfs nb st = Raise e -> R e) ->
  forall nbs st e,
    (forall nb, In nb nbs -> In nb (Dict.keys G)) ->
    _dfs_topological_sort_dfs_loop dfs nbs st = Raise e -> R e.
Proof.
  intros Hdfs. induction nbs as [|nb rest IH]; intros st e sub E;
    [discriminate|].
  cbn [_dfs_topological_sort_dfs_loop] in E.
  assert (sub' : forall x, In x rest -> In x (Dict.keys G))
    by (intros x i; apply sub; right; exact i).
  destruct (set_mem node_eq_dec nb (visited st)); [apply (IH st e sub' E)|].
  destruct (dfs nb st) as [st1|e1|] eqn:E1; cbn [bind] in E;
    try discriminate.
  - apply (IH st1 e sub' E).
  - injection E as <-. apply (Hdfs nb st e1); [|exact E1].
    apply sub. left. reflexivity.
Qed.

(** A call [dfs(node)] on a key fails in the [raise CycleError]
    statement only. *)
Lemma dfs_fails :
  forall fuel node st e,
    In node (Dict.keys G) ->
    _dfs_topological_sort_dfs fuel graph G node st = Raise e -> R e.
Proof.
  induction fuel as [|fuel IH]; intros node st e k E; [discriminate|].
  cbn [_dfs_topological_sort_dfs] in E.
  destruct (set_mem node_eq_dec node (currently_visiting st)) eqn:EM.
  - eapply R_raise; eassumption.
  - destruct (gget G node) as [nbs|] eqn:EG.
    + match type of E with
      | (let* st := ?loop in _) = _ => destruct loop as [st2|e2|] eqn:EL
      end; cbn [bind] in E; try discriminate.
      * apply (@dfs_loop_visiting _ (dfs_visiting fuel)) in EL.
        cbn [currently_visiting] in EL.
        assert (M : set_mem node_eq_dec node (currently_visiting st2) = true).
        { rewrite EL. apply smem_true. apply set_add_intro2. reflexivity. }
        rewrite M in E. discriminate.
      * injection E as <-.
        eapply (@dfs_loop_fails _ IH); [|exact EL].
        intros nb i. apply (G_closed node).
        unfold edge, successors. rewrite EG. exact i.
    + apply (get_None_iff node_eq_dec) in EG. contradiction.
Qed.

Lemma _dfs_topological_sort_loop_fails fuel :
  forall nodes st e,
    (forall n, In n nodes -> In n (Dict.keys G)) ->
    _dfs_topological_sort_loop fuel graph G nodes st = Raise e -> R e.
Proof.
  induction nodes as [|n rest IH]; intros st e sub E; [discriminate|].
  cbn [_dfs_topological_sort_loop] in E.
  assert (sub' : forall x, In x rest -> In x (Dict.keys G))
    by (intros x i; apply sub; right; exact i).
  destruct (set_mem node_eq_dec n (visited st)); [apply (IH st e sub' E)|].
  destruct (_dfs_topological_sort_dfs fuel graph G n st) as [st1|e1|] eqn:E1;
    cbn [bind] in E; try discriminate.
  - apply (IH st1 e sub' E).
  - injection E as <-. eapply dfs_fails; [|exact E1].
    apply sub. left. reflexivity.
Qed.
End DepthFirstFails.

Section NoStrings.
Context {NT : Type} {PN : PyNode NT}.
Local Abbreviation graph_t := (Dict.dict NT (list NT)).

Variable graph : graph_t.
Hypothesis graph_nodup : NoDup (Dict.keys graph).
Hypothesis graph_not_str : forall v, input_node graph v -> as_str v = None.

Lemma raise_CycleError_TypeError x rest :
  input_node graph x -> raise_CycleError (Some (x :: rest)) = TypeError.
Proof.
  intros Q. unfold raise_CycleError.
  destruct (str_join " -> " (x :: rest)) as [s|] eqn:J; [|reflexivity].
  exfalso. apply (str_join_head _ _ _ J). apply graph_not_str, Q.
Qed.

(** The breadth-first sort fails in the [join] of the message only. *)
Lemma _bfs_topological_sort_fails fuel return_type sort_groups graph_type e :
  _bfs_topological_sort fuel graph return_type sort_groups graph_type
  = Raise e ->
  e = TypeError.
Proof.
  destruct (@normalise_spec NT PN graph graph_type graph_nodup)
    as (G & ind & EN & W & K).
  pose proof (wf_nodup W) as nd. pose proof (wf_closed W) as closed.
  assert (ns : forall v, In v (Dict.keys G) -> as_str v = None)
    by (intros v i; apply graph_not_str, K, i).
  unfold _bfs_topological_sort. intros E.
  destruct (return_type =? "nodes") eqn:ER; [destruct sort_groups|].
  - rewrite (@drain_next_eq _ _ _ _ topological_sort_generator
               (TsgFlatten G [] (_group_generator ind (initial_queue G ind))))
      in E.
    2: { unfold topological_sort_generator.
         cbn [topological_sort_generator_next]. rewrite EN, ER.
         reflexivity. }
    eapply (@drain_flatten_fails NT PN G nd closed ns); [|exact E].
    exact (kahn_init W).
  - rewrite (@drain_next_eq _ _ _ _ topological_sort_generator
               (TsgNodes G (_node_generator ind (initial_queue G ind))))
      in E.
    2: { unfold topological_sort_generator.
         cbn [topological_sort_generator_next]. rewrite EN, ER.
         reflexivity. }
    eapply (@drain_nodes_fails NT PN G nd closed ns); [|exact E].
    exact (conj eq_refl (kahn_init W)).
  - rewrite (@drain_next_eq _ _ _ _ topological_sort_generator
               (TsgGroups G (_group_generator ind (initial_queue G ind))))
      in E.
    2: { unfold topological_sort_generator.
         cbn [topological_sort_generator_next]. rewrite EN, ER.
         reflexivity. }
    eapply (@drain_groups_fails NT PN G nd closed ns); [|exact E].
    exact (kahn_init W).
Qed.

(** The depth-first sort fails in the [join] of the message, or earlier
    in the cycle search at a listed node that is no key of the input. *)
Lemma _dfs_topological_sort_fails fuel graph_type e :
  _dfs_topological_sort fuel graph graph_type = Raise e ->
  e = TypeError \/ missing_key graph e.
Proof.
  destruct (@normalise_spec NT PN graph graph_type graph_nodup)
    as (G & ind & EN & W & K).
  unfold _dfs_topological_sort. rewrite EN. cbn [bind fst].
  match goal with
  | |- (let* st := ?loop in _) = _ -> _ => destruct loop as [st|e1|] eqn:EL
  end; cbn [bind]; try discriminate.
  intros H. injection H as <-.
  refine (@_dfs_topological_sort_loop_fails NT PN graph G (wf_closed W)
            (fun e => e = TypeError \/ missing_key graph e) _
            fuel (Dict.keys G) _ e1 (fun n i => i) EL).
  intros f node e k.
  destruct (_get_cycle f graph (Some node)) as [c|e2|] eqn:EC; cbn [bind];
    try discriminate; intros H; injection H as <-.
  - left. destruct c as [c|]; [|reflexivity].
    destruct (_get_cycle_ok _ _ _ EC) as (_ & x & rest & -> & Hx).
    apply raise_CycleError_TypeError.
    destruct Hx as [Hx|Hx].
    + injection Hx as <-. apply K, k.
    + left. exact Hx.
  - right. eapply _get_cycle_missing, EC.
Qed.

Lemma topological_sort_fails fuel method return_type sort_groups
    graph_type e :
  topological_sort fuel graph method return_type sort_groups graph_type
  = Raise e ->
  e = TypeError
  \/ (exists msg, e = ValueError msg)
  \/ (method = "dfs" /\ missing_key graph e).
Proof.
  unfold topological_sort, _validate_return_type, _validate_graph_type.
  destruct ((return_type =? "nodes") || (return_type =? "groups"));
    cbn [bind]; [|intros H; injection H as <-; eauto].
  destruct ((graph_type =? "edges") || (graph_type =? "dependencies"));
    cbn [bind]; [|intros H; injection H as <-; eauto].
  destruct (method =? "bfs").
  - intros E. left. eapply _bfs_topological_sort_fails, E.
  - destruct (String.eqb_spec method "dfs") as [->|nd'];
      [|intros H; injection H as <-; eauto].
    destruct (negb (return_type =? "nodes"));
      [intros H; injection H as <-; eauto|].
    destruct sort_groups; [intros H; injection H as <-; eauto|].
    destruct (_dfs_topological_sort fuel graph graph_type) as [l|e1|] eqn:ED;
      cbn [bind]; try discriminate.
    intros H. injection H as <-.
    destruct (_dfs_topological_sort_fails _ _ ED) as [->|M]; auto.
Qed.

(** A call that returns was given an acyclic graph. *)
Lemma topological_sort_Ok_acyclic fuel method return_type sort_groups
    graph_type res :
  topological_sort fuel graph method return_type sort_groups graph_type
  = Ok res ->
  acyclic (canonical graph graph_type).
Proof.
  intros E.
  destruct (@normalise_spec NT PN graph graph_type graph_nodup)
    as (G & ind & EN & W & K).
  rewrite (@canonical_eq NT PN graph G ind graph_type EN).
  pose proof (wf_nodup W) as ndG.
  destruct (validated _ _ _ _ _ _ E) as [[-> | ->] _].
  - destruct (@topological_sort_nodes_any NT PN graph G ind fuel method
                sort_groups graph_type res EN W E) as (L & _ & P & H).
    assert (ndL : NoDup L)
      by (eapply Permutation_NoDup; [symmetry; exact P | exact ndG]).
    exact (@precedes_acyclic NT (edge G) L ndL H).
  - destruct (@topological_sort_groups_any NT PN graph G ind fuel method
                sort_groups graph_type res EN W E) as (Bs & _ & P & H).
    assert (ndL : NoDup (List.concat Bs))
      by (eapply Permutation_NoDup; [symmetry; exact P | exact ndG]).
    refine (@precedes_acyclic NT (edge G) (List.concat Bs) ndL _).
    intros u v e. apply batch_precedes_concat, H, e.
Qed.
End NoStrings.

Section NoStringsClaim.
Context {NT : Type} {PN : PyNode NT}.
Local Abbreviation graph_t := (Dict.dict NT (list NT)).

End NoStringsClaim.

Lemma INT_CYCLE_cyclic : ~ acyclic (canonical INT_CYCLE "edges").
Proof.
  intros H. apply (H 1%Z).
  apply t_trans with (y := 2%Z); apply t_step; vm_compute; auto.
Qed.


